(** * traintools: a shallow embedding of [traintools.py]

    The timetable tools are modelled function by function.  Python integers
    are [Z] (unbounded, with floor division and a modulus that takes the sign
    of the divisor, which is what [Z.div] and [Z.modulo] compute).  The
    quotient of a true division and the cells of the occupancy table are
    binary64 floats: a finite float is the rational it stands for, and the
    rounding is written out.  Code that can raise returns a [result];
    dictionaries, whose iteration order is the insertion order, are
    association lists. *)

From Stdlib Require Import ZArith QArith Qround Qminmax Qabs Qpower Qreduction.
From Stdlib Require Import Lia Lqa String.
From stdpp Require Import base list sorting.

Local Open Scope Z_scope.

(** ** Python values and exceptions *)

(** The dynamically typed values a caller can hand to the time conversions.
    A float among them is kept as its binary64 bit pattern: the conversions
    only look at its type. *)
Inductive pyval : Type :=
  | PyInt (z : Z)
  | PyBool (b : bool)
  | PyFloat (bits : Z)
  | PyStr (s : string)
  | PyNone.

Inductive pytype : Type := TInt | TBool | TFloat | TStr | TNoneType.

(** [type(v)] *)
Definition type_of (v : pyval) : pytype :=
  match v with
  | PyInt _ => TInt
  | PyBool _ => TBool
  | PyFloat _ => TFloat
  | PyStr _ => TStr
  | PyNone => TNoneType
  end.

Definition pytype_eqb (a b : pytype) : bool :=
  match a, b with
  | TInt, TInt | TBool, TBool | TFloat, TFloat
  | TStr, TStr | TNoneType, TNoneType => true
  | _, _ => false
  end.

Inductive exn : Type :=
  | AssertionError (msg : string)
  | ZeroDivisionError
  | OverflowError
  | IndexError.

Inductive result (A : Type) : Type :=
  | Ok (a : A)
  | Raise (e : exn).
Arguments Ok {A} a.
Arguments Raise {A} e.

#[global] Instance result_ret : MRet result := λ A a, Ok a.
#[global] Instance result_bind : MBind result := λ A B k m,
  match m with
  | Ok a => k a
  | Raise e => Raise e
  end.

(** [assert c, msg] *)
Definition py_assert (c : bool) (msg : string) : result unit :=
  if c then Ok tt else Raise (AssertionError msg).

(** The value is an integer: its type is exactly [int]. *)
Definition is_int (v : pyval) : Prop := ∃ z, v = PyInt z.

(** ** Time conversion *)

Definition to_minutes_past_midnight (time : pyval) : result Z :=
  _ ← py_assert (pytype_eqb (type_of time) TInt) "The time must be an integer!";
  match time with
  | PyInt time =>
      let hours := time / 100 in
      let minutes := time mod 100 in
      Ok (60 * hours + minutes)
  | _ => Raise (AssertionError "The time must be an integer!")
  end.

Definition to_regular_time (time : pyval) : result Z :=
  _ ← py_assert (pytype_eqb (type_of time) TInt) "The time must be an integer!";
  match time with
  | PyInt time =>
      let hours := time / 60 in
      let minutes := time mod 60 in
      Ok (hours * 100 + minutes)
  | _ => Raise (AssertionError "The time must be an integer!")
  end.

(** [InvalidInput]: the failure of the type assertion. *)
Definition InvalidInput {A} (r : result A) : Prop :=
  r = Raise (AssertionError "The time must be an integer!").

Definition returns {A} (r : result A) : Prop := ∃ a, r = Ok a.

(** ** Insertion-ordered dictionaries

    A Python [dict] iterates in insertion order and assigning to a key that
    is present keeps the key's position, so a dictionary is an association
    list whose keys are pairwise distinct. *)
Module Dict.
Section ops.
Context {K V : Type} `{EqDecision K}.

Local Abbreviation t := (list (K * V)).

Definition keys (d : t) : list K := d.*1.
Definition values (d : t) : list V := d.*2.

(** [d.get(k)] *)
Fixpoint get (k : K) (d : t) : option V :=
  match d with
  | [] => None
  | (k', v) :: d' => if decide (k = k') then Some v else get k d'
  end.

(** [d[k] = v] *)
Fixpoint set_item (k : K) (v : V) (d : t) : t :=
  match d with
  | [] => [(k, v)]
  | (k', v') :: d' =>
      if decide (k = k') then (k', v) :: d' else (k', v') :: set_item k v d'
  end.

(** [d[k]] on a [defaultdict]: a missing key is first inserted with the
    value of the default factory. *)
Definition get_default (dflt : V) (k : K) (d : t) : V * t :=
  match get k d with
  | Some v => (v, d)
  | None => (dflt, set_item k dflt d)
  end.
End ops.
Abbreviation t K V := (list (K * V)).
End Dict.

(** ** Timetable rows *)

(** One row of the schedule table, columns in file order; the times are
    minutes past midnight. *)
Record Row : Type := {
  train_number : Z;
  first_class : Z;
  second_class : Z;
  start : Z;
  end_ : Z;
  departure_time : Z;
  arrival_time : Z
}.

(** ** Binary64 arithmetic

    A finite float is the rational number it stands for.  [round] is the
    rounding of IEEE 754 binary64 to the nearest value, ties to the even
    significand: 53 significant bits and a least exponent of -1074, so that
    subnormal results and the underflow to zero are covered.  [round] has no
    largest exponent; [of_Q] adds it.  The sign of a zero is not kept: no
    operation of the model tells the two zeros apart. *)
Module binary64.

Definition pow2 (e : Z) : Q := (2 ^ e)%Q.

(** The exponent [l] with [2^l <= x < 2^(l+1)], for a positive [x]. *)
Definition ilog2 (x : Q) : Z :=
  let l := Z.log2 (Qnum x) - Z.log2 (Zpos (Qden x)) in
  if Qle_bool (pow2 l) x then l else l - 1.

(** The nearest integer, ties to even. *)
Definition round_half_even (q : Q) : Z :=
  let f := Qfloor q in
  match (q - inject_Z f ?= 1 # 2)%Q with
  | Lt => f
  | Gt => f + 1
  | Eq => if Z.even f then f else f + 1
  end.

(** The exponent of the unit in the last place of a positive [x]. *)
Definition exponent (x : Q) : Z := Z.max (ilog2 x - 52) (-1074).

Definition round_pos (x : Q) : Q :=
  (inject_Z (round_half_even (x / pow2 (exponent x))) * pow2 (exponent x))%Q.

Definition round (x : Q) : Q :=
  let x := Qred x in
  Qred match (x ?= 0)%Q with
       | Eq => 0%Q
       | Gt => round_pos x
       | Lt => (- round_pos (- x))%Q
       end.

(** The float of an exact value, or nothing when it rounds past the
    largest float. *)
Definition of_Q (x : Q) : option Q :=
  let r := round x in
  if Qle_bool (pow2 1024) (Qabs r) then None else Some r.

End binary64.

(** A cell of a float64 array. *)
Inductive float64 : Type :=
  | Finite (q : Q)
  | Infinite (negative : bool)
  | NaN.

Module np.

(** The float of an exact value in array arithmetic: a result past the
    largest float is an infinity, and nothing is raised. *)
Definition of_Q (x : Q) : float64 :=
  match binary64.of_Q x with
  | Some r => Finite r
  | None => Infinite (negb (Qle_bool 0 x))
  end.

(** [x + y] on float64 cells. *)
Definition add (x y : float64) : float64 :=
  match x, y with
  | NaN, _ | _, NaN => NaN
  | Infinite s, Infinite s' => if Bool.eqb s s' then Infinite s else NaN
  | Infinite s, Finite _ | Finite _, Infinite s => Infinite s
  | Finite a, Finite b => of_Q (a + b)
  end.

(** [np.zeros((n, 1))]: one column of [n] cells. *)
Definition zeros (n : nat) : list float64 := replicate n (Finite 0).

End np.

(** ** Capacity computation *)

(** [a / b] on integers: true division.  The result is the float nearest to
    the exact quotient; a zero divisor raises ZeroDivisionError and a
    quotient that rounds past the largest float raises OverflowError. *)
Definition py_truediv (a b : Z) : result Q :=
  if decide (b = 0) then Raise ZeroDivisionError
  else match binary64.of_Q (inject_Z a / inject_Z b) with
       | Some q => Ok q
       | None => Raise OverflowError
       end.

(** [max(a, b)]: the first argument unless the second is greater. *)
Definition py_max (a b : Q) : Q := if Qle_bool b a then a else b.

(** [math.ceil] of a finite float: an integer. *)
Definition math_ceil (x : Q) : Z := Qceiling x.

Definition minimum_number_of_trains (row : Row) (train_type : Z * Z) : result Z :=
  min_first_class ← py_truediv (first_class row) train_type.1;
  min_second_class ← py_truediv (second_class row) train_type.2;
  let min_trains := math_ceil (py_max min_first_class min_second_class) in
  Ok min_trains.

(** The formula of the specification, with the library's maximum. *)
Definition ceil_max_quotient (first second firstCap secondCap : Z) : Z :=
  Qceiling (Qmax (inject_Z first / inject_Z firstCap)
                 (inject_Z second / inject_Z secondCap)).

(** ** The per-minute occupancy table *)

(** [np.zeros((60*24+1, 1))]: the one-column float table, indexed 0..1440. *)
Definition zeros_table : list float64 := np.zeros (Z.to_nat (60 * 24 + 1)).

(** The float of an integer operand: OverflowError past the largest
    float. *)
Definition py_float (n : Z) : result float64 :=
  match binary64.of_Q (inject_Z n) with
  | Some q => Ok (Finite q)
  | None => Raise OverflowError
  end.

(** [df.loc[start:stop, col] += trains]: a label slice of the range index,
    both ends included; the integer is added as a float. *)
Definition loc_add (start stop trains : Z) (df : list float64)
    : result (list float64) :=
  addend ← py_float trains;
  Ok (imap (λ i x, if bool_decide (start ≤ Z.of_nat i ≤ stop)
                   then np.add x addend else x) df).

Fixpoint at_time_t_loop (rows : list Row) (train_type : Z * Z) (df : list float64)
    : result (list float64) :=
  match rows with
  | [] => Ok df
  | row :: rest =>
      let start := departure_time row in
      let stop := arrival_time row in
      trains ← minimum_number_of_trains row train_type;
      df ← loc_add start stop trains df;
      at_time_t_loop rest train_type df
  end.

Definition minimum_number_of_trains_at_time_t (schedule : list Row)
    (train_type : Z * Z) : result (list float64) :=
  at_time_t_loop schedule train_type zeros_table.

(** The unit count of a row, as a number. *)
Definition unit_count (train_type : Z * Z) (row : Row) : Z :=
  match minimum_number_of_trains row train_type with
  | Ok n => n
  | Raise _ => 0
  end.

Definition sumZ (l : list Z) : Z := foldr Z.add 0 l.

(** The rows whose inclusive range [departure_time, arrival_time] contains
    the minute [m]. *)
Definition rows_at (m : Z) (schedule : list Row) : list Row :=
  filter (λ row, departure_time row ≤ m ≤ arrival_time row) schedule.

(** The sum of the unit counts of the rows that cover the minute [m]. *)
Definition load (train_type : Z * Z) (schedule : list Row) (m : nat) : Z :=
  sumZ (unit_count train_type <$> rows_at (Z.of_nat m) schedule).

(** The cell that holds the integer [n]. *)
Definition cell (n : Z) : float64 := Finite (inject_Z n).

(** Demands that binary64 holds exactly. *)
Definition exact_demand (row : Row) : Prop :=
  0 ≤ first_class row < 2 ^ 53 ∧ 0 ≤ second_class row < 2 ^ 53.

(** ** Per-train schedules *)

Definition create_trains_dict (schedulce : list Row) : Dict.t Z (list Row) :=
  foldl (λ trains row,
           let '(sub, trains) := Dict.get_default [] (train_number row) trains in
           Dict.set_item (train_number row) (sub ++ [row]) trains)
        [] schedulce.

(** ** The timetable graph *)

(** A stop: (station, minute of the day). *)
Definition TrainStop : Type := Z * Z.

(** The attribute dictionary of an edge; both keys are always present. *)
Record EdgeAttr : Type := {
  attr_first_class : Z;
  attr_second_class : Z
}.

(** The part of [networkx] the module uses.  A [DiGraph] keeps its nodes in
    insertion order and at most one edge per ordered pair of nodes; the
    adjacency dictionaries are flattened into one dictionary keyed by the
    pair (source, target). *)
Module nx.
Record DiGraph : Type := {
  nodes : list TrainStop;
  edges : Dict.t (TrainStop * TrainStop) EdgeAttr
}.

Definition empty : DiGraph := {| nodes := []; edges := [] |}.

Definition add_node (n : TrainStop) (G : DiGraph) : DiGraph :=
  if decide (n ∈ nodes G) then G
  else {| nodes := nodes G ++ [n]; edges := edges G |}.

(** [G.add_edge(u, v, **attr)]: missing end points become nodes, and an
    edge that is already there has its attributes overwritten. *)
Definition add_edge (u v : TrainStop) (attr : EdgeAttr) (G : DiGraph) : DiGraph :=
  let G := add_node v (add_node u G) in
  {| nodes := nodes G; edges := Dict.set_item (u, v) attr (edges G) |}.
End nx.

(** A row of the table built by [create_network_schedule]. *)
Record NetworkRow : Type := {
  net_first_class : Z;
  net_second_class : Z;
  net_start : TrainStop;
  net_end : TrainStop
}.

Definition create_network_schedule (df : list Row) : list NetworkRow :=
  (λ row, {| net_first_class := first_class row;
             net_second_class := second_class row;
             net_start := (start row, departure_time row);
             net_end := (end_ row, arrival_time row) |}) <$> df.

(** [nx.from_pandas_edgelist(df, 'start', 'end', ['first_class',
    'second_class'], nx.DiGraph)]: one [add_edge] per row, in row order. *)
Definition from_pandas_edgelist (df : list NetworkRow) : nx.DiGraph :=
  foldl (λ G row,
           nx.add_edge (net_start row) (net_end row)
             {| attr_first_class := net_first_class row;
                attr_second_class := net_second_class row |} G)
        nx.empty df.

(** The order of tuples: by station, then by time. *)
Definition stop_le (a b : TrainStop) : Prop :=
  a.1 < b.1 ∨ (a.1 = b.1 ∧ a.2 ≤ b.2).

#[global] Instance stop_le_dec : RelDecision stop_le.
Proof. intros a b. unfold stop_le. apply _. Defined.

(** [list.sort()] on a list of stops. *)
Definition list_sort (l : list TrainStop) : list TrainStop :=
  merge_sort stop_le l.

Definition find_all_stops_per_station (G : nx.DiGraph) : Dict.t Z (list TrainStop) :=
  let nodes_per_station :=
    foldl (λ d node,
             let '(stops, d) := Dict.get_default [] node.1 d in
             Dict.set_item node.1 (stops ++ [node]) d)
          [] (nx.nodes G) in
  (* every list is sorted in place; keys and their order stay *)
  prod_map id list_sort <$> nodes_per_station.

(** [l[i]] for [i >= 0] and [l[-1]] *)
Definition getitem {A} (l : list A) (i : nat) : result A :=
  match l !! i with
  | Some x => Ok x
  | None => Raise IndexError
  end.

Definition getitem_last {A} (l : list A) : result A :=
  match last l with
  | Some x => Ok x
  | None => Raise IndexError
  end.

(** The values the generator yields when it is consumed. *)
Definition find_staring_trainstops (G : nx.DiGraph) : result (list TrainStop) :=
  mapM (λ stops, getitem stops 0) (Dict.values (find_all_stops_per_station G)).

Definition find_ending_trainstops (G : nx.DiGraph) : result (list TrainStop) :=
  mapM getitem_last (Dict.values (find_all_stops_per_station G)).

Definition enumerate {A} (l : list A) : list (nat * A) := imap pair l.

Definition zero_attr : EdgeAttr :=
  {| attr_first_class := 0; attr_second_class := 0 |}.

(** The inner loop of [connect_stationary_nodes] for one station. *)
Fixpoint connect_stops (stops : list TrainStop) (todo : list (nat * TrainStop))
    (G : nx.DiGraph) : result nx.DiGraph :=
  match todo with
  | [] => Ok G
  | (index, stop) :: todo =>
      next ← getitem stops (index + 1);
      connect_stops stops todo (nx.add_edge stop next zero_attr G)
  end.

Fixpoint connect_stations (nodes_per_station : Dict.t Z (list TrainStop))
    (stations : list Z) (G : nx.DiGraph) : result nx.DiGraph :=
  match stations with
  | [] => Ok G
  | station :: stations =>
      let stops := default [] (Dict.get station nodes_per_station) in
      G ← connect_stops stops (enumerate (take (length stops - 1) stops)) G;
      connect_stations nodes_per_station stations G
  end.

Definition connect_stationary_nodes (G : nx.DiGraph) : result nx.DiGraph :=
  let nodes_per_station := find_all_stops_per_station G in
  connect_stations nodes_per_station (Dict.keys nodes_per_station) G.

Definition graph_from_schedule (df : list Row) : result nx.DiGraph :=
  let schedule_network := create_network_schedule df in
  let G := from_pandas_edgelist schedule_network in
  connect_stationary_nodes G.

(** ** Notions used to state the properties *)

(** The loop body shared by [create_trains_dict] and
    [find_all_stops_per_station]: the element is appended to the list stored
    under its key. *)
Definition group_step {K A} `{EqDecision K} (key : A → K)
    (d : Dict.t K (list A)) (x : A) : Dict.t K (list A) :=
  let '(sub, d) := Dict.get_default [] (key x) d in
  Dict.set_item (key x) (sub ++ [x]) d.

Definition group {K A} `{EqDecision K} (key : A → K) (l : list A)
    : Dict.t K (list A) :=
  foldl (group_step key) [] l.

(** The number of elements stored in a dictionary of lists. *)
Definition total {K A} (d : Dict.t K (list A)) : nat :=
  sum_list (length <$> Dict.values d).

(** The two composite keys of a row and the edge the row stands for. *)
Definition start_key (row : Row) : TrainStop := (start row, departure_time row).
Definition end_key (row : Row) : TrainStop := (end_ row, arrival_time row).
Definition leg (row : Row) : TrainStop * TrainStop := (start_key row, end_key row).

Definition travel_edge (row : Row) : (TrainStop * TrainStop) * EdgeAttr :=
  (leg row, {| attr_first_class := first_class row;
               attr_second_class := second_class row |}).

(** The stops of a station, in node order. *)
Definition stops_at (station : Z) (G : nx.DiGraph) : list TrainStop :=
  filter (λ n, n.1 = station) (nx.nodes G).

(** An edge between two stations is a travel edge; an edge that stays at
    [station] is a stationary edge of that station. *)
Definition travels (p : TrainStop * TrainStop) : Prop := p.1.1 ≠ p.2.1.
Definition stays_at (station : Z) (p : TrainStop * TrainStop) : Prop :=
  p.1.1 = station ∧ p.2.1 = station.

#[global] Instance travels_dec p : Decision (travels p).
Proof. unfold travels. apply _. Defined.

#[global] Instance stays_at_dec station p : Decision (stays_at station p).
Proof. unfold stays_at. apply _. Defined.

Definition travel_edges (G : nx.DiGraph) : list ((TrainStop * TrainStop) * EdgeAttr) :=
  filter (λ e, travels e.1) (nx.edges G).

Definition stationary_edges (station : Z) (G : nx.DiGraph)
    : list ((TrainStop * TrainStop) * EdgeAttr) :=
  filter (λ e, stays_at station e.1) (nx.edges G).

Definition add_pair (G : nx.DiGraph) (p : TrainStop * TrainStop) : nx.DiGraph :=
  nx.add_edge p.1 p.2 zero_attr G.

(** Each stop with the next one of the list. *)
Definition stationary_pairs (stops : list TrainStop) : list (TrainStop * TrainStop) :=
  zip stops (tail stops).

(** All the pairs [connect_stationary_nodes] joins, in order. *)
Definition all_stationary_pairs (G : nx.DiGraph) : list (TrainStop * TrainStop) :=
  Dict.keys (find_all_stops_per_station G) ≫= λ station,
    stationary_pairs (list_sort (stops_at station G)).

(** The graph of the travel edges alone, before the stationary ones. *)
Definition row_graph (df : list Row) : nx.DiGraph :=
  from_pandas_edgelist (create_network_schedule df).

(** The pairs joined for one station. *)
Definition pairs_of (G : nx.DiGraph) (station : Z) : list (TrainStop * TrainStop) :=
  stationary_pairs (list_sort (stops_at station G)).

(** Sample data. *)
Definition demo_row : Row :=
  {| train_number := 7; first_class := 150; second_class := 40;
     start := 1; end_ := 2; departure_time := 540; arrival_time := 570 |}.

(** Two overlapping legs, one unit each under capacity (100, 50). *)
Definition overlap_schedule : list Row :=
  [ {| train_number := 1; first_class := 80; second_class := 30;
       start := 1; end_ := 2; departure_time := 100; arrival_time := 200 |};
    {| train_number := 2; first_class := 10; second_class := 50;
       start := 2; end_ := 3; departure_time := 150; arrival_time := 250 |} ].

(** Amsterdam to Rotterdam 9:00-9:30, Rotterdam to Roosendaal 9:45-10:15. *)
Definition two_leg_schedule : list Row :=
  [ {| train_number := 1; first_class := 120; second_class := 300;
       start := 1; end_ := 2; departure_time := 540; arrival_time := 570 |};
    {| train_number := 1; first_class := 90; second_class := 210;
       start := 2; end_ := 3; departure_time := 585; arrival_time := 615 |} ].

(** Two trains on the same leg at the same times. *)
Definition duplicate_leg_schedule : list Row :=
  [ {| train_number := 1; first_class := 120; second_class := 300;
       start := 1; end_ := 2; departure_time := 540; arrival_time := 570 |};
    {| train_number := 2; first_class := 90; second_class := 210;
       start := 1; end_ := 2; departure_time := 540; arrival_time := 570 |} ].

(** A row that starts and ends at the same station. *)
Definition same_station_schedule : list Row :=
  [ {| train_number := 1; first_class := 120; second_class := 300;
       start := 1; end_ := 1; departure_time := 540; arrival_time := 570 |} ].

(** A first-class demand one above 2^53, which no float holds. *)
Definition rounding_row : Row :=
  {| train_number := 1; first_class := 2 ^ 53 + 1; second_class := 0;
     start := 1; end_ := 2; departure_time := 100; arrival_time := 100 |}.

(** A demand of one seat. *)
Definition unit_row : Row :=
  {| train_number := 2; first_class := 1; second_class := 0;
     start := 1; end_ := 2; departure_time := 100; arrival_time := 100 |}.

(** A demand past the largest float. *)
Definition huge_row : Row :=
  {| train_number := 3; first_class := 10 ^ 400; second_class := 0;
     start := 1; end_ := 2; departure_time := 100; arrival_time := 100 |}.

(** Demands of 2^53 - 1 seats and of 2 seats, both at minute 100. *)
Definition rounding_schedule : list Row :=
  [ {| train_number := 1; first_class := 2 ^ 53 - 1; second_class := 0;
       start := 1; end_ := 2; departure_time := 100; arrival_time := 100 |};
    {| train_number := 2; first_class := 2; second_class := 0;
       start := 1; end_ := 2; departure_time := 100; arrival_time := 100 |} ].

(** ** Schedule ingestion *)

(** A row of the table [pd.read_csv] returns: the two time cells are the
    values [Series.map] hands to the conversion, the other columns are
    numbers. *)
Record ParsedRow : Type := {
  parsed_train_number : Z;
  parsed_first_class : Z;
  parsed_second_class : Z;
  parsed_start : Z;
  parsed_end : Z;
  parsed_departure_time : pyval;
  parsed_arrival_time : pyval
}.

(** [read_schedule] after the file is parsed: the conversion is mapped over
    the column [departure_time], then over the column [arrival_time]. *)
Definition read_schedule (parsed : list ParsedRow) : result (list Row) :=
  departure ← mapM to_minutes_past_midnight (parsed_departure_time <$> parsed);
  arrival ← mapM to_minutes_past_midnight (parsed_arrival_time <$> parsed);
  Ok (zip_with (λ row times,
                  {| train_number := parsed_train_number row;
                     first_class := parsed_first_class row;
                     second_class := parsed_second_class row;
                     start := parsed_start row;
                     end_ := parsed_end row;
                     departure_time := times.1;
                     arrival_time := times.2 |})
               parsed (zip departure arrival)).

(** A clock value [hours * 100 + minutes] of one day. *)
Definition clock_time (t : Z) : Prop := 0 ≤ t ≤ 2359 ∧ t mod 100 ≤ 59.

(** ** The colour rotation *)

Definition colors : list string := ["b"; "r"; "k"; "g"; "m"; "c"]%string.

(** [itertools.cycle]: the elements are yielded and saved on the first pass
    and replayed from the saved copy afterwards. *)
Inductive cycle_state : Type :=
  | FirstPass (pending saved : list string)
  | Replay (pending saved : list string).

Definition color_cycle : cycle_state := FirstPass colors [].

(** [next(it)]; [None] stands for [StopIteration]. *)
Definition cycle_next (st : cycle_state) : option (string * cycle_state) :=
  match st with
  | FirstPass (x :: pending) saved => Some (x, FirstPass pending (saved ++ [x]))
  | FirstPass [] saved | Replay [] saved =>
      match saved with
      | [] => None
      | x :: pending => Some (x, Replay pending saved)
      end
  | Replay (x :: pending) saved => Some (x, Replay pending saved)
  end.

(** The colours of [n] successive calls of [plot]. *)
Fixpoint next_colors (n : nat) (st : cycle_state) : option (list string * cycle_state) :=
  match n with
  | O => Some ([], st)
  | S n =>
      '(col, st) ← cycle_next st;
      '(cols, st) ← next_colors n st;
      Some (col :: cols, st)
  end.

(** The states the rotation goes through, and the index in [colors] of
    the colour that comes next. *)
Definition cycle_pending (st : cycle_state) : list string :=
  match st with
  | FirstPass pending _ | Replay pending _ => pending
  end.

Definition cycle_position (st : cycle_state) : nat :=
  ((6 - length (cycle_pending st)) mod 6)%nat.

Definition cycle_reachable (st : cycle_state) : Prop :=
  ∃ j : nat, (j ≤ 6)%nat
    ∧ (st = FirstPass (drop j colors) (take j colors)
       ∨ st = Replay (drop j colors) colors).

(** The time cells of a parsed row are integers. *)
Definition int_times (p : ParsedRow) : Prop :=
  is_int (parsed_departure_time p) ∧ is_int (parsed_arrival_time p).

(** A row carries the columns of a parsed row, its times converted. *)
Definition converted (p : ParsedRow) (row : Row) : Prop :=
  train_number row = parsed_train_number p
  ∧ first_class row = parsed_first_class p
  ∧ second_class row = parsed_second_class p
  ∧ start row = parsed_start p
  ∧ end_ row = parsed_end p
  ∧ to_minutes_past_midnight (parsed_departure_time p) = Ok (departure_time row)
  ∧ to_minutes_past_midnight (parsed_arrival_time p) = Ok (arrival_time row).

(** ** Further sample data *)

Definition demo_row_other : Row :=
  {| train_number := 8; first_class := 90; second_class := 70;
     start := 2; end_ := 3; departure_time := 585; arrival_time := 615 |}.

(** The demand of [demo_row] and [demo_row_other] together. *)
Definition demo_row_more : Row :=
  {| train_number := 9; first_class := 240; second_class := 110;
     start := 1; end_ := 3; departure_time := 540; arrival_time := 615 |}.

(** A row that arrives before it departs. *)
Definition backward_row : Row :=
  {| train_number := 3; first_class := 60; second_class := 20;
     start := 3; end_ := 1; departure_time := 300; arrival_time := 200 |}.

(** Three stops at station 1, one at station 2; the first two stops of
    station 1 are already joined by an edge with attributes. *)
Definition demo_graph : nx.DiGraph :=
  {| nx.nodes := [(1, 100); (1, 50); (2, 70); (1, 200)];
     nx.edges := [(((1, 50), (1, 100)),
                   {| attr_first_class := 5; attr_second_class := 7 |});
                  (((1, 50), (2, 70)),
                   {| attr_first_class := 3; attr_second_class := 4 |})] |}.

Definition demo_graph_connected : nx.DiGraph :=
  Eval vm_compute in
    match connect_stationary_nodes demo_graph with
    | Ok G => G
    | Raise _ => nx.empty
    end.

Definition two_leg_graph : nx.DiGraph :=
  Eval vm_compute in
    match graph_from_schedule two_leg_schedule with
    | Ok G => G
    | Raise _ => nx.empty
    end.

Definition parsed_two_legs : list ParsedRow :=
  [ {| parsed_train_number := 1; parsed_first_class := 120;
       parsed_second_class := 300; parsed_start := 1; parsed_end := 2;
       parsed_departure_time := PyInt 900; parsed_arrival_time := PyInt 930 |};
    {| parsed_train_number := 1; parsed_first_class := 90;
       parsed_second_class := 210; parsed_start := 2; parsed_end := 3;
       parsed_departure_time := PyInt 945; parsed_arrival_time := PyInt 1015 |} ].

(** The second arrival time is missing and was parsed as a float. *)
Definition parsed_missing_time : list ParsedRow :=
  [ {| parsed_train_number := 1; parsed_first_class := 120;
       parsed_second_class := 300; parsed_start := 1; parsed_end := 2;
       parsed_departure_time := PyInt 900; parsed_arrival_time := PyInt 930 |};
    {| parsed_train_number := 1; parsed_first_class := 90;
       parsed_second_class := 210; parsed_start := 2; parsed_end := 3;
       parsed_departure_time := PyInt 945;
       parsed_arrival_time := PyFloat 9221120237041090560 |} ].

Definition overlap_table : list float64 :=
  Eval vm_compute in
    match minimum_number_of_trains_at_time_t overlap_schedule (100, 50) with
    | Ok df => df
    | Raise _ => []
    end.

(** ** Further notions used to state the properties *)

(** The distinct elements of a list, in the order of their first
    occurrence. *)
Definition first_occurrences {A} `{EqDecision A} (l : list A) : list A :=
  foldl (λ seen x, if decide (x ∈ seen) then seen else seen ++ [x]) [] l.

(** [v] is the stop that follows [u] in time at the station of [u]: both are
    nodes of the station, [v] is later, and no node of the station lies
    strictly between them. *)
Definition next_stop (G : nx.DiGraph) (u v : TrainStop) : Prop :=
  u ∈ nx.nodes G ∧ v ∈ nx.nodes G ∧ u.1 = v.1 ∧ u.2 < v.2
  ∧ ∀ n, n ∈ nx.nodes G → n.1 = u.1 → ¬ (u.2 < n.2 < v.2).

(** * Properties *)

(** ** Time conversion *)

Section time_conversion.

Lemma to_minutes_past_midnight_int (t : Z) :
  to_minutes_past_midnight (PyInt t) = Ok (60 * (t / 100) + t mod 100).
Proof. reflexivity. Qed.

Lemma to_regular_time_int (m : Z) :
  to_regular_time (PyInt m) = Ok (m / 60 * 100 + m mod 60).
Proof. reflexivity. Qed.

Lemma not_is_int_type (v : pyval) :
  ¬ is_int v ↔ pytype_eqb (type_of v) TInt = false.
Proof.
  unfold is_int. destruct v; simpl; split; intros H; try done.
  - destruct H. by eexists.
  - by intros [? ?].
  - by intros [? ?].
  - by intros [? ?].
  - by intros [? ?].
Qed.

(** Hours and minutes are recovered from [60 * h + r] when [r] is a
    minute count, and from [100 * h + r] likewise. *)
Lemma split_hours (base h r : Z) :
  0 ≤ r < base → (base * h + r) / base = h ∧ (base * h + r) mod base = r.
Proof.
  intros Hr.
  assert (Hq : (base * h + r) / base = h).
  { symmetry. apply (Z.div_unique_pos _ _ h r); lia. }
  split; [done|].
  rewrite Z.mod_eq by lia. rewrite Hq. lia.
Qed.

(** C4: for a clock value [t] in [0, 2359] whose minute part is at most 59,
    converting to minutes past midnight and back gives [t] again; 930 is
    570 minutes past midnight and 570 minutes is 930. *)
Theorem regular_time_round_trip (t : Z) :
  0 ≤ t ≤ 2359 → t mod 100 ≤ 59 →
  (m ← to_minutes_past_midnight (PyInt t); to_regular_time (PyInt m)) = Ok t
  ∧ to_minutes_past_midnight (PyInt 930) = Ok 570
  ∧ to_regular_time (PyInt 570) = Ok 930.
Proof.
  intros Ht Hmin. split; [|done].
  rewrite to_minutes_past_midnight_int. cbn [mbind result_bind].
  rewrite to_regular_time_int.
  pose proof (Z.mod_pos_bound t 100 ltac:(lia)) as Hb.
  destruct (split_hours 60 (t / 100) (t mod 100) ltac:(lia)) as [-> ->].
  f_equal. pose proof (Z.div_mod t 100 ltac:(lia)). lia.
Qed.

Lemma regular_time_round_trip_witness :
  (0 ≤ 1745 ≤ 2359) ∧ 1745 mod 100 ≤ 59 ∧
  (m ← to_minutes_past_midnight (PyInt 1745); to_regular_time (PyInt m)) = Ok 1745.
Proof.
  split; [lia|]. split; [vm_compute; discriminate|].
  apply (regular_time_round_trip 1745); [lia | vm_compute; discriminate].
Defined.

(** C9: for every non-negative number of minutes [m], however large,
    converting to clock notation and back gives [m] again. *)
Theorem minutes_round_trip (m : Z) :
  0 ≤ m →
  (t ← to_regular_time (PyInt m); to_minutes_past_midnight (PyInt t)) = Ok m.
Proof.
  intros Hm.
  rewrite to_regular_time_int. cbn [mbind result_bind].
  rewrite to_minutes_past_midnight_int.
  pose proof (Z.mod_pos_bound m 60 ltac:(lia)) as Hb.
  replace (m / 60 * 100 + m mod 60) with (100 * (m / 60) + m mod 60) by lia.
  destruct (split_hours 100 (m / 60) (m mod 60) ltac:(lia)) as [-> ->].
  f_equal. pose proof (Z.div_mod m 60 ltac:(lia)). lia.
Qed.

Lemma minutes_round_trip_witness :
  0 ≤ 5000 ∧
  (t ← to_regular_time (PyInt 5000); to_minutes_past_midnight (PyInt t)) = Ok 5000.
Proof. split; [lia|]. apply (minutes_round_trip 5000). lia. Defined.

(** C6: both conversions fail with InvalidInput exactly on the values that
    are not integers, and return a number on every integer. *)
Theorem time_conversion_invalid_input (v : pyval) :
  (InvalidInput (to_minutes_past_midnight v) ↔ ¬ is_int v)
  ∧ (InvalidInput (to_regular_time v) ↔ ¬ is_int v)
  ∧ (∀ z, returns (to_minutes_past_midnight (PyInt z))
          ∧ returns (to_regular_time (PyInt z))).
Proof.
  split; [|split].
  - rewrite not_is_int_type. destruct v; simpl; unfold InvalidInput; simpl;
      split; (done || discriminate).
  - rewrite not_is_int_type. destruct v; simpl; unfold InvalidInput; simpl;
      split; (done || discriminate).
  - intros z. split; eexists; reflexivity.
Qed.

End time_conversion.

(** ** Binary64 rounding

    The facts about [binary64.round] that the later proofs use: it is
    monotone, it keeps every integer of magnitude at most [2^53], and the
    rounded quotient of two integers below [2^53] has the ceiling of the
    exact quotient. *)

Section integer_rounding.
Import binary64.
Local Open Scope Q_scope.

Lemma inject_Z_le (a b : Z) : (a <= b)%Z → inject_Z a <= inject_Z b.
Proof. by rewrite Zle_Qle. Qed.

Lemma inject_Z_lt (a b : Z) : (a < b)%Z → inject_Z a < inject_Z b.
Proof. by rewrite Zlt_Qlt. Qed.

Lemma inject_Z_le_inv (a b : Z) : inject_Z a <= inject_Z b → (a <= b)%Z.
Proof. by rewrite Zle_Qle. Qed.

Lemma inject_Z_lt_inv (a b : Z) : inject_Z a < inject_Z b → (a < b)%Z.
Proof. by rewrite Zlt_Qlt. Qed.

Lemma pow2_pos e : 0 < pow2 e.
Proof. apply Qpower_0_lt. reflexivity. Qed.

Lemma pow2_add a b : pow2 (a + b) == pow2 a * pow2 b.
Proof. apply Qpower_plus. discriminate. Qed.

Lemma pow2_succ a : pow2 (a + 1) == 2 * pow2 a.
Proof. rewrite pow2_add. unfold pow2 at 2. simpl. ring. Qed.

Lemma pow2_lt a b : (a < b)%Z → pow2 a < pow2 b.
Proof. intros H. apply Qpower_lt_compat_l; [done | reflexivity]. Qed.

Lemma pow2_le a b : (a <= b)%Z → pow2 a <= pow2 b.
Proof. intros H. apply Qpower_le_compat_l; [done | discriminate]. Qed.

Lemma pow2_lt_inv a b : pow2 a < pow2 b → (a < b)%Z.
Proof. intros H. apply (Qpower_lt_compat_l_inv 2); [done | reflexivity]. Qed.

Lemma pow2_Z (n : Z) : (0 <= n)%Z → pow2 n == inject_Z (2 ^ n).
Proof. intros Hn. unfold pow2. by rewrite Zpower_Qpower. Qed.

Lemma pow2_inv a : pow2 a * pow2 (- a) == 1.
Proof. rewrite <- pow2_add. by replace (a + - a)%Z with 0%Z by lia. Qed.

(** The integer bounds of [Z.log2], as rationals. *)
Lemma log2_bounds (n : Z) :
  (0 < n)%Z → pow2 (Z.log2 n) <= inject_Z n ∧ inject_Z n < pow2 (Z.log2 n + 1).
Proof.
  intros Hn. destruct (Z.log2_spec n Hn) as [Hlo Hhi].
  pose proof (Z.log2_nonneg n).
  rewrite !pow2_Z by lia. replace (Z.succ (Z.log2 n)) with (Z.log2 n + 1)%Z in Hhi by lia.
  split; [exact (inject_Z_le _ _ Hlo) | exact (inject_Z_lt _ _ Hhi)].
Qed.

Lemma ilog2_spec (x : Q) : 0 < x → pow2 (ilog2 x) <= x ∧ x < pow2 (ilog2 x + 1).
Proof.
  intros Hx. unfold ilog2.
  destruct x as [n d]. assert (Hn : (0 < n)%Z).
  { unfold Qlt in Hx. simpl in Hx. lia. }
  simpl Qnum. simpl Qden.
  destruct (log2_bounds n Hn) as [Hn1 Hn2].
  destruct (log2_bounds (Zpos d) ltac:(lia)) as [Hd1 Hd2].
  set (a := Z.log2 n) in *. set (b := Z.log2 (Z.pos d)) in *.
  assert (Hx' : (n # d) * inject_Z (Z.pos d) == inject_Z n).
  { unfold Qeq, Qmult, inject_Z. simpl. lia. }
  pose proof (pow2_pos b) as Hb. pose proof (pow2_pos (a - b)) as Hab.
  assert (Ha : pow2 a == pow2 (a - b) * pow2 b).
  { rewrite <- pow2_add. by replace (a - b + b)%Z with a by lia. }
  rewrite pow2_succ in Hn2, Hd2.
  destruct (Qle_bool (pow2 (a - b)) (n # d)) eqn:Hcmp.
  - apply Qle_bool_iff in Hcmp. split; [done|].
    rewrite pow2_succ. nra.
  - assert (Hlt : n # d < pow2 (a - b)).
    { apply Qnot_le_lt. intros Hle. apply Qle_bool_iff in Hle. congruence. }
    replace (a - b - 1 + 1)%Z with (a - b)%Z by lia. split; [|done].
    assert (Hs : pow2 (a - b) == 2 * pow2 (a - b - 1)).
    { rewrite <- pow2_succ. by replace (a - b - 1 + 1)%Z with (a - b)%Z by lia. }
    nra.
Qed.

Lemma ilog2_unique (x : Q) (l : Z) :
  pow2 l <= x → x < pow2 (l + 1) → ilog2 x = l.
Proof.
  intros Hlo Hhi.
  assert (Hx : 0 < x) by (pose proof (pow2_pos l); lra).
  destruct (ilog2_spec x Hx) as [Hlo' Hhi'].
  assert (ilog2 x < l + 1)%Z by (apply pow2_lt_inv; lra).
  assert (l < ilog2 x + 1)%Z by (apply pow2_lt_inv; lra).
  lia.
Qed.

Lemma ilog2_mono (x y : Q) : 0 < x → x <= y → (ilog2 x <= ilog2 y)%Z.
Proof.
  intros Hx Hxy.
  destruct (ilog2_spec x Hx) as [Hlo _].
  destruct (ilog2_spec y ltac:(lra)) as [_ Hhi].
  assert (ilog2 x < ilog2 y + 1)%Z by (apply pow2_lt_inv; lra). lia.
Qed.

(** *** Rounding to the nearest integer, ties to even *)

Lemma round_half_even_cases (q : Q) :
  inject_Z (Qfloor q) <= q ∧ q < inject_Z (Qfloor q) + 1
  ∧ ((round_half_even q = Qfloor q ∧ q - inject_Z (Qfloor q) <= 1 # 2)
     ∨ (round_half_even q = (Qfloor q + 1)%Z ∧ 1 # 2 <= q - inject_Z (Qfloor q))).
Proof.
  pose proof (Qfloor_le q) as Hlo. pose proof (Qlt_floor q) as Hhi.
  rewrite inject_Z_plus in Hhi. change (inject_Z 1) with 1 in Hhi.
  split; [done|]. split; [done|]. unfold round_half_even.
  destruct (Qcompare_spec (q - inject_Z (Qfloor q)) (1 # 2)) as [Heq|Hlt|Hgt].
  - destruct (Z.even (Qfloor q)); [left | right]; (split; [done | lra]).
  - left. split; [done | lra].
  - right. split; [done | lra].
Qed.

Lemma round_half_even_error (q : Q) :
  q - (1 # 2) <= inject_Z (round_half_even q) ∧ inject_Z (round_half_even q) <= q + (1 # 2).
Proof.
  destruct (round_half_even_cases q) as (Hlo & Hhi & [[-> H]|[-> H]]).
  - split; lra.
  - rewrite inject_Z_plus. change (inject_Z 1) with 1 in *. split; lra.
Qed.

Lemma round_half_even_Z (k : Z) : round_half_even (inject_Z k) = k.
Proof.
  unfold round_half_even. rewrite Qfloor_Z.
  destruct (Qcompare_spec (inject_Z k - inject_Z k) (1 # 2)) as [H|H|H]; lra || done.
Qed.

Lemma round_half_even_comp (q q' : Q) : q == q' → round_half_even q = round_half_even q'.
Proof.
  intros H. unfold round_half_even. rewrite (Qfloor_comp _ _ H).
  assert (Hc : (q - inject_Z (Qfloor q') ?= 1 # 2) = (q' - inject_Z (Qfloor q') ?= 1 # 2)).
  { apply Qcompare_comp; [by rewrite H | done]. }
  by rewrite Hc.
Qed.

Lemma round_half_even_mono (q q' : Q) :
  q <= q' → (round_half_even q <= round_half_even q')%Z.
Proof.
  intros Hq.
  pose proof (Qfloor_resp_le _ _ Hq) as Hf.
  destruct (round_half_even_cases q) as (Hlo & Hhi & Hc).
  destruct (round_half_even_cases q') as (Hlo' & Hhi' & Hc').
  destruct (decide (Qfloor q = Qfloor q')) as [Heq|Hne].
  - unfold round_half_even. rewrite <- Heq.
    destruct (Qcompare_spec (q - inject_Z (Qfloor q)) (1 # 2)) as [H|H|H];
      destruct (Qcompare_spec (q' - inject_Z (Qfloor q)) (1 # 2)) as [H'|H'|H'];
      try lia; try lra; destruct (Z.even (Qfloor q)); lia.
  - assert (Qfloor q + 1 <= Qfloor q')%Z by lia.
    destruct Hc as [[-> _]|[-> _]], Hc' as [[-> _]|[-> _]]; lia.
Qed.

Lemma round_half_even_ge (q : Q) (k : Z) : inject_Z k <= q → (k <= round_half_even q)%Z.
Proof. intros H. rewrite <- (round_half_even_Z k). by apply round_half_even_mono. Qed.

Lemma round_half_even_le (q : Q) (k : Z) : q <= inject_Z k → (round_half_even q <= k)%Z.
Proof. intros H. rewrite <- (round_half_even_Z k). by apply round_half_even_mono. Qed.

End integer_rounding.

Section positive_rounding.
Import binary64.
Local Open Scope Q_scope.

(** Arithmetic of a value [x], its scaling [s] and the unit [p]. *)
Lemma scale_pos (s p x : Q) : 0 < p → s * p == x → 0 < x → 0 < s.
Proof. intros Hp Hs Hx. apply Qnot_le_lt. intros Hle. nra. Qed.

Lemma scale_lt (s p x c : Q) : 0 < p → s * p == x → x < c * p → s < c.
Proof. intros Hp Hs Hx. apply Qnot_le_lt. intros Hle. nra. Qed.

Lemma scale_ge (s p x c : Q) : 0 < p → s * p == x → c * p <= x → c <= s.
Proof. intros Hp Hs Hx. apply Qnot_lt_le. intros Hlt. nra. Qed.

Lemma scale_le (s s' p x y : Q) :
  0 < p → s * p == x → s' * p == y → x <= y → s <= s'.
Proof. intros Hp Hs Hs' Hxy. apply Qnot_lt_le. intros Hlt. nra. Qed.

Lemma scale_error (s m p x : Q) :
  0 < p → s * p == x → s - (1 # 2) <= m → m <= s + (1 # 2) →
  x - p * (1 # 2) <= m * p ∧ m * p <= x + p * (1 # 2).
Proof. intros Hp Hs Hlo Hhi. split; nra. Qed.

Lemma mul_le_mono (m m' p : Q) : 0 < p → m <= m' → m * p <= m' * p.
Proof. intros Hp Hm. nra. Qed.

Lemma binade_le (m m' c p p' : Q) :
  0 < c → 0 < p → m <= 2 * c → c <= m' → 2 * p <= p' → m * p <= m' * p'.
Proof.
  intros Hc Hp Hm Hm' Hpp.
  apply Qle_trans with (2 * c * p); [nra|].
  apply Qle_trans with (c * p'); nra.
Qed.

Lemma exponent_bounds (x : Q) :
  (ilog2 x - 52 <= exponent x)%Z ∧ (-1074 <= exponent x)%Z
  ∧ (exponent x = ilog2 x - 52 ∨ exponent x = -1074)%Z.
Proof. unfold exponent. lia. Qed.

Lemma scaled_mul (x : Q) (e : Z) : x / pow2 e * pow2 e == x.
Proof. field. pose proof (pow2_pos e). lra. Qed.

Lemma scaled_pos (x : Q) (e : Z) : 0 < x → 0 < x / pow2 e.
Proof.
  intros Hx. apply (scale_pos _ (pow2 e) x); [apply pow2_pos | apply scaled_mul | done].
Qed.

(** The scaled value is below [2^53]; it is at least [2^52] for a normal
    number. *)
Lemma scaled_lt (x : Q) : 0 < x → x / pow2 (exponent x) < inject_Z (2 ^ 53).
Proof.
  intros Hx. destruct (ilog2_spec x Hx) as [_ Hhi].
  destruct (exponent_bounds x) as (He & _ & _).
  pose proof (pow2_le (ilog2 x + 1) (53 + exponent x) ltac:(lia)) as Hle.
  rewrite (pow2_add 53) in Hle. rewrite <- pow2_Z by lia.
  apply (scale_lt _ (pow2 (exponent x)) x); [apply pow2_pos | apply scaled_mul |].
  exact (Qlt_le_trans _ _ _ Hhi Hle).
Qed.

Lemma scaled_ge (x : Q) :
  0 < x → exponent x = (ilog2 x - 52)%Z → inject_Z (2 ^ 52) <= x / pow2 (exponent x).
Proof.
  intros Hx He. destruct (ilog2_spec x Hx) as [Hlo _].
  assert (Hp2 : pow2 (ilog2 x) == pow2 52 * pow2 (exponent x)).
  { rewrite <- pow2_add. by replace (52 + exponent x)%Z with (ilog2 x) by lia. }
  rewrite <- pow2_Z by lia.
  apply (scale_ge _ (pow2 (exponent x)) x); [apply pow2_pos | apply scaled_mul |].
  by rewrite <- Hp2.
Qed.

Lemma mantissa_le (x : Q) :
  0 < x → (0 <= round_half_even (x / pow2 (exponent x)) <= 2 ^ 53)%Z.
Proof.
  intros Hx. split.
  - apply round_half_even_ge. change (inject_Z 0) with 0.
    apply Qlt_le_weak. by apply scaled_pos.
  - apply round_half_even_le, Qlt_le_weak. by apply scaled_lt.
Qed.

Lemma mantissa_ge (x : Q) :
  0 < x → exponent x = (ilog2 x - 52)%Z →
  (2 ^ 52 <= round_half_even (x / pow2 (exponent x)))%Z.
Proof. intros Hx He. by apply round_half_even_ge, scaled_ge. Qed.

Lemma round_pos_nonneg (x : Q) : 0 < x → 0 <= round_pos x.
Proof.
  intros Hx. unfold round_pos.
  destruct (mantissa_le x Hx) as [Hm _]. rewrite Zle_Qle in Hm.
  change (inject_Z 0) with 0 in Hm.
  apply Qmult_le_0_compat; [done|]. apply Qlt_le_weak, pow2_pos.
Qed.

(** The rounded value is within half a unit in the last place. *)
Lemma round_pos_error (x : Q) :
  0 < x →
  x - pow2 (exponent x) * (1 # 2) <= round_pos x
  ∧ round_pos x <= x + pow2 (exponent x) * (1 # 2).
Proof.
  intros Hx. unfold round_pos.
  destruct (round_half_even_error (x / pow2 (exponent x))) as [Hlo Hhi].
  apply (scale_error (x / pow2 (exponent x))); [apply pow2_pos | apply scaled_mul | done..].
Qed.

Lemma ilog2_comp (x y : Q) : 0 < x → x == y → ilog2 x = ilog2 y.
Proof.
  intros Hx Hxy. destruct (ilog2_spec x Hx) as [Hlo Hhi].
  symmetry. apply ilog2_unique; lra.
Qed.

Lemma round_pos_comp (x y : Q) : 0 < x → x == y → round_pos x == round_pos y.
Proof.
  intros Hx Hxy. unfold round_pos, exponent.
  rewrite <- (ilog2_comp x y Hx Hxy).
  rewrite (round_half_even_comp (y / _) (x / pow2 (Z.max (ilog2 x - 52) (-1074)))).
  - reflexivity.
  - apply Qdiv_comp; [by symmetry | reflexivity].
Qed.

Lemma round_pos_mono (x y : Q) : 0 < x → x <= y → round_pos x <= round_pos y.
Proof.
  intros Hx Hxy. assert (Hy : 0 < y) by lra.
  pose proof (ilog2_mono x y Hx Hxy) as Hl.
  destruct (exponent_bounds x) as (Hex & Hex' & Hcx).
  destruct (exponent_bounds y) as (Hey & Hey' & Hcy).
  assert (Hee : (exponent x <= exponent y)%Z) by (unfold exponent; lia).
  unfold round_pos.
  destruct (decide (exponent x = exponent y)) as [Heq|Hne].
  - rewrite <- Heq. apply mul_le_mono; [apply pow2_pos|].
    apply (inject_Z_le _ _), round_half_even_mono.
    apply (scale_le _ _ (pow2 (exponent x)) x y);
      [apply pow2_pos | apply scaled_mul | apply scaled_mul | done].
  - assert (Hnormal : exponent y = (ilog2 y - 52)%Z) by lia.
    destruct (mantissa_le x Hx) as [_ Hmx].
    pose proof (mantissa_ge y Hy Hnormal) as Hmy.
    rewrite Zle_Qle in Hmx, Hmy.
    pose proof (pow2_le (exponent x + 1) (exponent y) ltac:(lia)) as Hp.
    rewrite pow2_succ in Hp.
    apply (binade_le _ _ (inject_Z (2 ^ 52)));
      [reflexivity | apply pow2_pos | exact Hmx | exact Hmy | exact Hp].
Qed.

End positive_rounding.

Section signed_rounding.
Import binary64.
Local Open Scope Q_scope.

Lemma Qred_inject_Z (k : Z) : Qred (inject_Z k) = inject_Z k.
Proof.
  unfold Qred, inject_Z.
  pose proof (Z.ggcd_gcd k 1) as Hg. pose proof (Z.ggcd_correct_divisors k 1) as Hd.
  destruct (Z.ggcd k 1) as [g [aa bb]]. simpl in *.
  rewrite Z.gcd_1_r in Hg. subst g. destruct Hd as [Ha Hb].
  rewrite Z.mul_1_l in Ha, Hb. subst. reflexivity.
Qed.

Lemma round_comp (x y : Q) : x == y → round x = round y.
Proof. intros H. unfold round. by rewrite (Qred_complete x y H). Qed.

Lemma round_canonical (x : Q) : Qred (round x) = round x.
Proof. unfold round. apply Qred_complete, Qred_correct. Qed.

Lemma round_zero (x : Q) : x == 0 → round x = 0.
Proof.
  intros Hx. unfold round. pose proof (Qred_correct x) as Hr.
  destruct (Qcompare_spec (Qred x) 0); [reflexivity | lra | lra].
Qed.

Lemma round_positive (x : Q) : 0 < x → round x == round_pos x.
Proof.
  intros Hx. unfold round. pose proof (Qred_correct x) as Hr.
  destruct (Qcompare_spec (Qred x) 0) as [H|H|H]; [lra | lra |].
  rewrite Qred_correct. apply round_pos_comp; [lra | done].
Qed.

Lemma round_negative (x : Q) : x < 0 → round x == - round_pos (- x).
Proof.
  intros Hx. unfold round. pose proof (Qred_correct x) as Hr.
  destruct (Qcompare_spec (Qred x) 0) as [H|H|H]; [lra | | lra].
  rewrite Qred_correct. apply Qopp_comp. apply round_pos_comp; [lra|].
  by apply Qopp_comp.
Qed.

Lemma round_mono (x y : Q) : x <= y → round x <= round y.
Proof.
  intros Hxy.
  destruct (Q_dec x 0) as [[Hx|Hx]|Hx], (Q_dec y 0) as [[Hy|Hy]|Hy];
    try (exfalso; lra).
  - rewrite (round_negative x Hx), (round_negative y Hy).
    pose proof (round_pos_mono (- y) (- x) ltac:(lra) ltac:(lra)). lra.
  - rewrite (round_negative x Hx), (round_positive y Hy).
    pose proof (round_pos_nonneg (- x) ltac:(lra)).
    pose proof (round_pos_nonneg y Hy). lra.
  - rewrite (round_negative x Hx), (round_zero y Hy).
    pose proof (round_pos_nonneg (- x) ltac:(lra)). lra.
  - rewrite (round_positive x Hx), (round_positive y Hy).
    by apply round_pos_mono.
  - rewrite (round_zero x Hx), (round_positive y Hy). by apply round_pos_nonneg.
  - rewrite (round_zero x Hx), (round_zero y Hy). lra.
Qed.

Lemma pow2_opp (e : Z) : pow2 (- e) == / pow2 e.
Proof. apply Qpower_opp. Qed.

Lemma round_pos_Z (k : Z) :
  (0 < k < 2 ^ 53)%Z → round_pos (inject_Z k) == inject_Z k.
Proof.
  intros [Hk0 Hk].
  assert (Hx : 0 < inject_Z k) by exact (inject_Z_lt 0 k Hk0).
  destruct (ilog2_spec _ Hx) as [Hlo _].
  assert (Hl : (ilog2 (inject_Z k) < 53)%Z).
  { apply pow2_lt_inv. apply Qle_lt_trans with (inject_Z k); [done|].
    rewrite pow2_Z by lia. exact (inject_Z_lt _ _ Hk). }
  destruct (exponent_bounds (inject_Z k)) as (_ & _ & He).
  assert (He0 : (exponent (inject_Z k) <= 0)%Z) by lia.
  assert (Hs : inject_Z k / pow2 (exponent (inject_Z k))
               == inject_Z (k * 2 ^ (- exponent (inject_Z k)))).
  { rewrite inject_Z_mult, <- pow2_Z by lia. rewrite pow2_opp. reflexivity. }
  unfold round_pos.
  rewrite (round_half_even_comp _ _ Hs), round_half_even_Z.
  rewrite <- Hs. apply scaled_mul.
Qed.

Lemma round_Z_pos (k : Z) :
  (0 < k < 2 ^ 53)%Z → round (inject_Z k) = inject_Z k.
Proof.
  intros Hk. rewrite <- round_canonical.
  transitivity (Qred (inject_Z k)); [|apply Qred_inject_Z].
  apply Qred_complete.
  apply Qeq_trans with (round_pos (inject_Z k)); [|by apply round_pos_Z].
  apply round_positive, (inject_Z_lt 0). lia.
Qed.

Lemma round_Z_neg (k : Z) :
  (0 < k < 2 ^ 53)%Z → round (inject_Z (- k)) = inject_Z (- k).
Proof.
  intros Hk. rewrite <- round_canonical.
  transitivity (Qred (inject_Z (- k))); [|apply Qred_inject_Z].
  apply Qred_complete.
  apply Qeq_trans with (- round_pos (- inject_Z (- k))).
  { apply round_negative, (inject_Z_lt _ 0). lia. }
  apply Qeq_trans with (- inject_Z k); [|by rewrite inject_Z_opp].
  apply Qopp_comp.
  apply Qeq_trans with (round_pos (inject_Z k)); [|by apply round_pos_Z].
  assert (Heq : - inject_Z (- k) == inject_Z k).
  { rewrite inject_Z_opp. apply Qopp_opp. }
  apply round_pos_comp; [|done].
  apply Qlt_le_trans with (inject_Z k); [apply (inject_Z_lt 0); lia|].
  apply Qle_lteq. right. by symmetry.
Qed.

(** Every integer of magnitude at most [2^53] is a binary64 value. *)
Lemma round_Z (k : Z) :
  (Z.abs k <= 2 ^ 53)%Z → round (inject_Z k) = inject_Z k.
Proof.
  intros Hk.
  destruct (decide (k = 0%Z)) as [->|]; [reflexivity|].
  destruct (decide (k = 2 ^ 53)%Z) as [->|]; [by vm_compute|].
  destruct (decide (k = - 2 ^ 53)%Z) as [->|]; [by vm_compute|].
  destruct (decide (0 < k)%Z).
  - apply round_Z_pos. lia.
  - replace k with (- - k)%Z by lia. apply round_Z_neg. lia.
Qed.

End signed_rounding.

Section quotient_rounding.
Import binary64.
Local Open Scope Q_scope.

Lemma unit_small (K P X B A : Q) :
  0 < K → 0 < P → 0 < B → K * P <= X → X * B == A → A < 2 * K → P * B < 2.
Proof.
  intros HK HP HB HX HA HAK. apply Qnot_le_lt. intros Hle.
  assert (H1 : K * P * B <= X * B) by (by apply mul_le_mono).
  assert (H2 : 2 * K <= K * (P * B)) by nra.
  nra.
Qed.

Lemma above_floor (C R X P B A : Q) :
  0 < B → X * B == A → C * B + 1 <= A → P * B < 2 → X - P * (1 # 2) <= R →
  C < R.
Proof.
  intros HB HA HC HP HR. apply Qnot_le_lt. intros Hle.
  assert (H1 : (X - P * (1 # 2)) * B <= C * B) by (apply mul_le_mono; [done | lra]).
  nra.
Qed.

Lemma quotient_le (X B A : Q) : 0 <= A → 1 <= B → X * B == A → 0 <= X ∧ X <= A.
Proof.
  intros HA HB HX. split.
  - apply Qnot_lt_le. intros Hlt. nra.
  - apply Qnot_lt_le. intros Hlt. nra.
Qed.

Lemma quotient_mul (a b : Z) :
  (b ≠ 0)%Z → inject_Z a / inject_Z b * inject_Z b == inject_Z a.
Proof.
  intros Hb. field. intros H. unfold Qeq in H. simpl in H. lia.
Qed.

(** The quotient of two integers below [2^53] rounds to a value with the
    same ceiling. *)
Lemma round_quotient (a b : Z) :
  (0 <= a < 2 ^ 53)%Z → (0 < b < 2 ^ 53)%Z →
  (0 <= round (inject_Z a / inject_Z b) ∧ round (inject_Z a / inject_Z b) <= inject_Z a)
  ∧ Qceiling (round (inject_Z a / inject_Z b)) = Qceiling (inject_Z a / inject_Z b).
Proof.
  intros [Ha0 Ha] [Hb0 Hb].
  pose proof (quotient_mul a b ltac:(lia)) as Hxb.
  set (x := inject_Z a / inject_Z b) in *.
  assert (HB : 1 <= inject_Z b) by (apply (inject_Z_le 1); lia).
  assert (HA : 0 <= inject_Z a) by (apply (inject_Z_le 0); lia).
  destruct (quotient_le x _ _ HA HB Hxb) as [Hx0 HxA].
  destruct (decide (a = 0%Z)) as [->|Hane].
  - assert (Hx : x == 0) by (change (inject_Z 0) with 0 in *; lra).
    rewrite (round_zero x Hx). split; [split; lra|].
    symmetry. by apply Qceiling_comp.
  - assert (Hx : 0 < x).
    { apply (scale_pos x (inject_Z b) (inject_Z a)); [lra | done |].
      apply (inject_Z_lt 0). lia. }
    pose proof (Qle_ceiling x) as Hc1. pose proof (Qceiling_lt x) as Hc2.
    pose proof (Qceiling_resp_le _ _ HxA) as Hca. rewrite Qceiling_Z in Hca.
    set (c := Qceiling x) in *.
    assert (Hc0 : (0 < c)%Z) by (apply inject_Z_lt_inv; change (inject_Z 0) with 0; lra).
    pose proof (round_positive x Hx) as Hr.
    pose proof (round_pos_Z c ltac:(lia)) as HrZ.
    pose proof (round_pos_mono x (inject_Z c) Hx Hc1) as Hup.
    destruct (round_pos_error x Hx) as [Herr _].
    assert (Hcb : inject_Z (c - 1) * inject_Z b + 1 <= inject_Z a).
    { assert (Hlt : inject_Z (c - 1) * inject_Z b < inject_Z a) by nra.
      rewrite <- inject_Z_mult in Hlt. apply inject_Z_lt_inv in Hlt.
      rewrite <- inject_Z_mult. change 1 with (inject_Z 1).
      rewrite <- inject_Z_plus. apply inject_Z_le. lia. }
    assert (Hunit : pow2 (exponent x) * inject_Z b < 2).
    { destruct (exponent_bounds x) as (_ & _ & [He|He]).
      - destruct (ilog2_spec x Hx) as [Hlo _].
        assert (Hp2 : pow2 (ilog2 x) == pow2 52 * pow2 (exponent x)).
        { rewrite <- pow2_add. by replace (52 + exponent x)%Z with (ilog2 x) by lia. }
        apply (unit_small (pow2 52) _ x _ (inject_Z a));
          [apply pow2_pos | apply pow2_pos | lra | by rewrite <- Hp2 | done |].
        rewrite <- pow2_succ. rewrite pow2_Z by lia. apply inject_Z_lt. exact Ha.
      - rewrite He.
        assert (Hb' : inject_Z b < pow2 53).
        { rewrite pow2_Z by lia. by apply inject_Z_lt. }
        assert (Hp : pow2 (-1074) * pow2 53 <= 2) by (by vm_compute).
        apply Qlt_le_trans with (pow2 (-1074) * pow2 53); [|done].
        apply Qmult_lt_l; [apply pow2_pos | done]. }
    assert (HB0 : 0 < inject_Z b) by lra.
    pose proof (above_floor _ _ _ _ _ _ HB0 Hxb Hcb Hunit Herr) as Hlow.
    split; [split|].
    + rewrite Hr. by apply round_pos_nonneg.
    + rewrite Hr. apply Qle_trans with (inject_Z c); [lra|]. by apply inject_Z_le.
    + assert (Hle : (Qceiling (round x) <= c)%Z).
      { rewrite <- (Qceiling_Z c). apply Qceiling_resp_le. lra. }
      assert (Hge : (c - 1 < Qceiling (round x))%Z).
      { apply inject_Z_lt_inv. pose proof (Qle_ceiling (round x)). lra. }
      lia.
Qed.

(** A quotient is no larger in magnitude than its numerator. *)
Lemma Qabs_inject_Z (k : Z) : Qabs (inject_Z k) = inject_Z (Z.abs k).
Proof. reflexivity. Qed.

Lemma Qabs_quotient (a b : Z) :
  (b ≠ 0)%Z → Qabs (inject_Z a / inject_Z b) <= inject_Z (Z.abs a).
Proof.
  intros Hb. unfold Qdiv. rewrite Qabs_Qmult, Qabs_Qinv, !Qabs_inject_Z.
  assert (HB : 1 <= inject_Z (Z.abs b)) by (apply (inject_Z_le 1); lia).
  assert (HA : 0 <= inject_Z (Z.abs a)) by (apply (inject_Z_le 0); lia).
  assert (Hq : inject_Z (Z.abs a) * / inject_Z (Z.abs b) * inject_Z (Z.abs b)
               == inject_Z (Z.abs a)).
  { apply (quotient_mul (Z.abs a) (Z.abs b)). lia. }
  by destruct (quotient_le _ _ _ HA HB Hq).
Qed.

(** Rounding keeps a value between two binary64 values between them. *)
Lemma round_Qabs_le (x m : Q) :
  round m = m → round (- m) = - m → Qabs x <= m → Qabs (round x) <= m.
Proof.
  intros Hm Hm' Hx. apply Qabs_Qle_condition in Hx as [Hlo Hhi].
  apply Qabs_Qle_condition. split.
  - rewrite <- Hm'. by apply round_mono.
  - rewrite <- Hm. by apply round_mono.
Qed.

Lemma of_Q_Some (x m : Q) :
  round m = m → round (- m) = - m → m < pow2 1024 → Qabs x <= m →
  of_Q x = Some (round x).
Proof.
  intros Hm Hm' Hlt Hx. unfold of_Q.
  pose proof (round_Qabs_le x m Hm Hm' Hx) as Hr.
  destruct (Qle_bool (pow2 1024) (Qabs (round x))) eqn:Hcmp; [|done].
  apply Qle_bool_iff in Hcmp. lra.
Qed.

Lemma of_Q_quotient (a b : Z) :
  (Z.abs a <= 2 ^ 1023)%Z → (b ≠ 0)%Z →
  of_Q (inject_Z a / inject_Z b) = Some (round (inject_Z a / inject_Z b)).
Proof.
  intros Ha Hb.
  apply (of_Q_Some _ (inject_Z (2 ^ 1023))); [by vm_compute.. |].
  apply Qle_trans with (inject_Z (Z.abs a)); [by apply Qabs_quotient|].
  by apply inject_Z_le.
Qed.

End quotient_rounding.

(** ** Capacity computation *)

Section capacity.

(** The ceiling of a quotient of integers, in integer arithmetic. *)
Lemma Qceiling_quotient (a d : Z) :
  Qceiling (inject_Z a / inject_Z d) = - (- a / d).
Proof.
  unfold Qceiling. f_equal. rewrite Zdiv_Qdiv.
  apply Qfloor_comp. rewrite inject_Z_opp.
  unfold Qdiv. ring.
Qed.

Lemma ceil_div_spec (a d : Z) :
  0 < d →
  a ≤ - (- a / d) * d ∧ ∀ m, a ≤ m * d → - (- a / d) ≤ m.
Proof.
  intros Hd.
  pose proof (Z.div_mod (- a) d ltac:(lia)) as Hdm.
  pose proof (Z.mod_pos_bound (- a) d Hd) as Hb.
  split; [nia|]. intros m Hm. nia.
Qed.

Lemma py_max_Qmax (a b : Q) : (py_max a b == Qmax a b)%Q.
Proof.
  unfold py_max. destruct (Qle_bool b a) eqn:Hba.
  - apply Qle_bool_iff in Hba. symmetry. by apply Q.max_l.
  - symmetry. apply Q.max_r. apply Qlt_le_weak, Qnot_le_lt.
    intros Hle. apply Qle_bool_iff in Hle. congruence.
Qed.

Lemma Qceiling_py_max (a b : Q) :
  Qceiling (py_max a b) = Z.max (Qceiling a) (Qceiling b).
Proof.
  unfold py_max. destruct (Qle_bool b a) eqn:Hba.
  - apply Qle_bool_iff in Hba. apply Qceiling_resp_le in Hba. lia.
  - assert (Hab : (a <= b)%Q).
    { apply Qlt_le_weak, Qnot_le_lt. intros Hle.
      apply Qle_bool_iff in Hle. congruence. }
    apply Qceiling_resp_le in Hab. lia.
Qed.

Lemma of_Q_round (x q : Q) : binary64.of_Q x = Some q → q = binary64.round x.
Proof.
  unfold binary64.of_Q.
  destruct (Qle_bool _ _); [discriminate|]. by intros [= <-].
Qed.

(** A division that returns has a non-zero divisor and returns the rounded
    quotient. *)
Lemma py_truediv_Ok (a b : Z) (q : Q) :
  py_truediv a b = Ok q →
  b ≠ 0 ∧ q = binary64.round (inject_Z a / inject_Z b).
Proof.
  unfold py_truediv. case_decide; [discriminate|].
  destruct (binary64.of_Q _) as [r|] eqn:Hr; [|discriminate].
  intros [= <-]. split; [done|]. by apply of_Q_round.
Qed.

(** With a non-zero divisor the only failure is a quotient too large for a
    float. *)
Lemma py_truediv_nonzero (a b : Z) :
  b ≠ 0 →
  py_truediv a b = Ok (binary64.round (inject_Z a / inject_Z b))
  ∨ py_truediv a b = Raise OverflowError.
Proof.
  intros Hb. unfold py_truediv. rewrite decide_False by done.
  destruct (binary64.of_Q _) as [r|] eqn:Hr; [left | by right].
  by rewrite (of_Q_round _ _ Hr).
Qed.

Lemma py_truediv_bounded (a b : Z) :
  Z.abs a ≤ 2 ^ 1023 → b ≠ 0 →
  py_truediv a b = Ok (binary64.round (inject_Z a / inject_Z b)).
Proof.
  intros Ha Hb. unfold py_truediv. rewrite decide_False by done.
  by rewrite of_Q_quotient.
Qed.

Lemma pow_53_1023 : 2 ^ 53 ≤ 2 ^ 1023.
Proof. apply Z.pow_le_mono_r; lia. Qed.

(** Below [2^53] the division keeps the ceiling of the exact quotient. *)
Lemma py_truediv_exact (a b : Z) :
  0 ≤ a < 2 ^ 53 → 0 < b < 2 ^ 53 →
  ∃ q, py_truediv a b = Ok q ∧ Qceiling q = - (- a / b).
Proof.
  intros Ha Hb. pose proof pow_53_1023.
  exists (binary64.round (inject_Z a / inject_Z b)). split.
  - apply py_truediv_bounded; lia.
  - destruct (round_quotient a b Ha Hb) as [_ ->]. apply Qceiling_quotient.
Qed.

Lemma minimum_number_of_trains_exact (row : Row) (firstCap secondCap : Z) :
  0 ≤ first_class row < 2 ^ 53 → 0 ≤ second_class row < 2 ^ 53 →
  0 < firstCap < 2 ^ 53 → 0 < secondCap < 2 ^ 53 →
  minimum_number_of_trains row (firstCap, secondCap) =
    Ok (Z.max (- (- first_class row / firstCap))
              (- (- second_class row / secondCap))).
Proof.
  intros Hf Hs H1 H2. unfold minimum_number_of_trains; simpl.
  destruct (py_truediv_exact (first_class row) firstCap Hf H1) as (q1 & -> & Hq1).
  destruct (py_truediv_exact (second_class row) secondCap Hs H2) as (q2 & -> & Hq2).
  cbn [mbind result_bind]. unfold math_ceil.
  by rewrite Qceiling_py_max, Hq1, Hq2.
Qed.

(** A call that returns took the ceiling of the larger rounded quotient. *)
Lemma minimum_number_of_trains_Ok (row : Row) (firstCap secondCap n : Z) :
  minimum_number_of_trains row (firstCap, secondCap) = Ok n →
  n = Z.max
        (Qceiling (binary64.round (inject_Z (first_class row) / inject_Z firstCap)))
        (Qceiling (binary64.round (inject_Z (second_class row) / inject_Z secondCap))).
Proof.
  unfold minimum_number_of_trains; simpl.
  destruct (py_truediv (first_class row) firstCap) as [q1|] eqn:H1; [|discriminate].
  destruct (py_truediv (second_class row) secondCap) as [q2|] eqn:H2; [|discriminate].
  cbn [mbind result_bind]. intros [= <-].
  apply py_truediv_Ok in H1 as [_ ->]. apply py_truediv_Ok in H2 as [_ ->].
  unfold math_ceil. apply Qceiling_py_max.
Qed.

(** C1, amended: with non-negative demands and positive capacities, all
    below 2^53, the function returns the ceiling of the larger exact
    quotient, which is the least number of units covering both demands, and
    0 when both demands are 0. *)
Theorem minimum_number_of_trains_least (row : Row) (firstCap secondCap : Z) :
  0 ≤ first_class row < 2 ^ 53 → 0 ≤ second_class row < 2 ^ 53 →
  0 < firstCap < 2 ^ 53 → 0 < secondCap < 2 ^ 53 →
  ∃ n, minimum_number_of_trains row (firstCap, secondCap) = Ok n
    ∧ n = ceil_max_quotient (first_class row) (second_class row) firstCap secondCap
    ∧ first_class row ≤ n * firstCap
    ∧ second_class row ≤ n * secondCap
    ∧ (∀ m, first_class row ≤ m * firstCap ∧ second_class row ≤ m * secondCap
            → n ≤ m)
    ∧ (first_class row = 0 ∧ second_class row = 0 → n = 0).
Proof.
  intros Hf Hs H1 H2. eexists. split.
  { by apply minimum_number_of_trains_exact. }
  destruct (ceil_div_spec (first_class row) firstCap ltac:(lia)) as [Hup1 Hlow1].
  destruct (ceil_div_spec (second_class row) secondCap ltac:(lia)) as [Hup2 Hlow2].
  split; [|split; [|split; [|split]]].
  - unfold ceil_max_quotient.
    rewrite <- (Qceiling_comp _ _ (py_max_Qmax _ _)).
    by rewrite Qceiling_py_max, !Qceiling_quotient.
  - nia.
  - nia.
  - intros m [Hm1 Hm2]. specialize (Hlow1 m Hm1). specialize (Hlow2 m Hm2). lia.
  - intros [-> ->]. simpl. rewrite !Z.div_0_l by lia. lia.
Qed.

Lemma minimum_number_of_trains_least_witness :
  0 ≤ first_class demo_row < 2 ^ 53 ∧ 0 ≤ second_class demo_row < 2 ^ 53
  ∧ 0 < 100 < 2 ^ 53 ∧ 0 < 50 < 2 ^ 53 ∧
  ∃ n, minimum_number_of_trains demo_row (100, 50) = Ok n
    ∧ n = ceil_max_quotient (first_class demo_row) (second_class demo_row) 100 50
    ∧ first_class demo_row ≤ n * 100
    ∧ second_class demo_row ≤ n * 50
    ∧ (∀ m, first_class demo_row ≤ m * 100 ∧ second_class demo_row ≤ m * 50
            → n ≤ m)
    ∧ (first_class demo_row = 0 ∧ second_class demo_row = 0 → n = 0).
Proof.
  split; [simpl; lia|]. split; [simpl; lia|]. split; [lia|]. split; [lia|].
  apply (minimum_number_of_trains_least demo_row 100 50); simpl; lia.
Defined.

(** C1 as stated fails once a quotient is not a float.  A first-class
    demand of 2^53 + 1 with one seat per unit gives 2^53 units, one seat
    short and not the ceiling of the quotient; a demand of 1 against a
    capacity of 10^400 gives 0 units. *)
Lemma minimum_number_of_trains_counterexample :
  (0 ≤ first_class rounding_row ∧ 0 ≤ second_class rounding_row ∧ 0 < 1)
  ∧ (0 ≤ first_class unit_row ∧ 0 ≤ second_class unit_row ∧ 0 < 10 ^ 400)
  ∧ minimum_number_of_trains rounding_row (1, 1) = Ok (2 ^ 53)
  ∧ minimum_number_of_trains unit_row (10 ^ 400, 1) = Ok 0
  ∧ (¬ ∃ n, minimum_number_of_trains rounding_row (1, 1) = Ok n
          ∧ first_class rounding_row ≤ n * 1)
  ∧ (¬ ∃ n, minimum_number_of_trains rounding_row (1, 1) = Ok n
          ∧ n = ceil_max_quotient (first_class rounding_row)
                  (second_class rounding_row) 1 1)
  ∧ (¬ ∃ n, minimum_number_of_trains unit_row (10 ^ 400, 1) = Ok n
          ∧ first_class unit_row ≤ n * 10 ^ 400).
Proof.
  split; [simpl; lia|]. split; [simpl; lia|].
  split; [by vm_compute|]. split; [by vm_compute|].
  split; [|split].
  - intros (n & Hrun & Hcover). vm_compute in Hrun. injection Hrun as <-.
    vm_compute in Hcover. by apply Hcover.
  - intros (n & Hrun & Hceil). vm_compute in Hrun. injection Hrun as <-.
    vm_compute in Hceil. discriminate.
  - intros (n & Hrun & Hcover). vm_compute in Hrun. injection Hrun as <-.
    vm_compute in Hcover. by apply Hcover.
Qed.

(** C8, amended: when both capacities are non-zero no division raises
    ZeroDivisionError; the function returns an integer or raises
    OverflowError, and it returns an integer whenever both demands are at
    most 2^1023 in magnitude. *)
Theorem minimum_number_of_trains_total (row : Row) (firstCap secondCap : Z) :
  firstCap ≠ 0 → secondCap ≠ 0 →
  minimum_number_of_trains row (firstCap, secondCap) ≠ Raise ZeroDivisionError
  ∧ ((∃ n, minimum_number_of_trains row (firstCap, secondCap) = Ok n)
     ∨ minimum_number_of_trains row (firstCap, secondCap) = Raise OverflowError)
  ∧ (Z.abs (first_class row) ≤ 2 ^ 1023 → Z.abs (second_class row) ≤ 2 ^ 1023 →
     ∃ n, minimum_number_of_trains row (firstCap, secondCap) = Ok n).
Proof.
  intros H1 H2. unfold minimum_number_of_trains; simpl.
  split; [|split].
  - destruct (py_truediv_nonzero (first_class row) firstCap H1) as [-> | ->];
      [|discriminate].
    destruct (py_truediv_nonzero (second_class row) secondCap H2) as [-> | ->];
      discriminate.
  - destruct (py_truediv_nonzero (first_class row) firstCap H1) as [-> | ->];
      [|by right].
    destruct (py_truediv_nonzero (second_class row) secondCap H2) as [-> | ->];
      [left | by right].
    by eexists.
  - intros Hf Hs. rewrite !py_truediv_bounded by done. by eexists.
Qed.

Lemma minimum_number_of_trains_total_witness :
  (100 ≠ 0 ∧ -3 ≠ 0)
  ∧ minimum_number_of_trains demo_row (100, -3) ≠ Raise ZeroDivisionError
  ∧ ((∃ n, minimum_number_of_trains demo_row (100, -3) = Ok n)
     ∨ minimum_number_of_trains demo_row (100, -3) = Raise OverflowError)
  ∧ (Z.abs (first_class demo_row) ≤ 2 ^ 1023 →
     Z.abs (second_class demo_row) ≤ 2 ^ 1023 →
     ∃ n, minimum_number_of_trains demo_row (100, -3) = Ok n).
Proof.
  split; [split; lia|].
  apply (minimum_number_of_trains_total demo_row 100 (-3)); lia.
Defined.

(** C8 as stated fails for a demand whose quotient is too large for a
    float: with capacities (1, 1) a first-class demand of 10^400 raises
    OverflowError, so no integer is returned. *)
Lemma minimum_number_of_trains_total_counterexample :
  (1 ≠ 0 ∧ 1 ≠ 0)
  ∧ minimum_number_of_trains huge_row (1, 1) = Raise OverflowError
  ∧ ¬ ∃ n, minimum_number_of_trains huge_row (1, 1) = Ok n.
Proof.
  split; [split; lia|].
  assert (Hrun : minimum_number_of_trains huge_row (1, 1) = Raise OverflowError)
    by (by vm_compute).
  split; [exact Hrun|]. intros [n Hn]. rewrite Hrun in Hn. discriminate.
Qed.

End capacity.

(** ** The per-minute occupancy table *)

Section occupancy.
Implicit Types (df : list float64) (rows schedule : list Row) (row : Row).

(** An integer of magnitude at most [2^53] converts to its own cell. *)
Lemma py_float_exact (n : Z) : Z.abs n ≤ 2 ^ 53 → py_float n = Ok (cell n).
Proof.
  intros Hn. unfold py_float.
  rewrite (of_Q_Some _ (inject_Z (2 ^ 53))); [|by vm_compute..|].
  - by rewrite round_Z.
  - rewrite Qabs_inject_Z. by apply inject_Z_le.
Qed.

(** Cells that hold integers add exactly while the sum stays within
    [2^53]. *)
Lemma np_add_exact (a b : Z) :
  Z.abs (a + b) ≤ 2 ^ 53 → np.add (cell a) (cell b) = cell (a + b).
Proof.
  intros Hab. unfold cell, np.add, np.of_Q. rewrite <- inject_Z_plus.
  rewrite (of_Q_Some _ (inject_Z (2 ^ 53))); [|by vm_compute..|].
  - by rewrite round_Z.
  - rewrite Qabs_inject_Z. by apply inject_Z_le.
Qed.

Lemma ceil_div_le (a d : Z) : 0 ≤ a → 0 < d → 0 ≤ - (- a / d) ≤ a.
Proof.
  intros Ha Hd. destruct (ceil_div_spec a d Hd) as [Hup Hlow]. split.
  - assert (- a / d ≤ 0) by (apply Z.div_le_upper_bound; lia). lia.
  - apply Hlow. nia.
Qed.

(** With demands and capacities below [2^53] the unit count is computed,
    and it lies within the larger demand. *)
Lemma unit_count_exact (firstCap secondCap : Z) row :
  0 < firstCap < 2 ^ 53 → 0 < secondCap < 2 ^ 53 →
  exact_demand row →
  minimum_number_of_trains row (firstCap, secondCap)
    = Ok (unit_count (firstCap, secondCap) row)
  ∧ 0 ≤ unit_count (firstCap, secondCap) row < 2 ^ 53.
Proof.
  intros H1 H2 [Hf Hs]. unfold unit_count.
  rewrite minimum_number_of_trains_exact by done. split; [done|].
  pose proof (ceil_div_le (first_class row) firstCap ltac:(lia) ltac:(lia)).
  pose proof (ceil_div_le (second_class row) secondCap ltac:(lia) ltac:(lia)).
  lia.
Qed.

Lemma length_loc_add (start stop trains : Z) df df' :
  loc_add start stop trains df = Ok df' → length df' = length df.
Proof.
  unfold loc_add. destruct (py_float trains); [|discriminate].
  cbn [mbind result_bind]. intros [= <-]. apply length_imap.
Qed.

Lemma loc_add_exact (start stop trains : Z) df :
  Z.abs trains ≤ 2 ^ 53 →
  loc_add start stop trains df =
    Ok (imap (λ i x, if bool_decide (start ≤ Z.of_nat i ≤ stop)
                     then np.add x (cell trains) else x) df).
Proof. intros Ht. unfold loc_add. by rewrite py_float_exact. Qed.

Lemma rows_at_cons (m : Z) row rows :
  rows_at m (row :: rows) =
    if bool_decide (departure_time row ≤ m ≤ arrival_time row)
    then row :: rows_at m rows else rows_at m rows.
Proof.
  unfold rows_at. rewrite filter_cons.
  case_bool_decide; [by rewrite decide_True | by rewrite decide_False].
Qed.

Lemma load_cons train_type row rows (m : nat) :
  load train_type (row :: rows) m =
    (if bool_decide (departure_time row ≤ Z.of_nat m ≤ arrival_time row)
     then unit_count train_type row else 0) + load train_type rows m.
Proof.
  unfold load. rewrite rows_at_cons. case_bool_decide; [|done].
  rewrite fmap_cons. reflexivity.
Qed.

Lemma load_nonneg (firstCap secondCap : Z) rows (m : nat) :
  0 < firstCap < 2 ^ 53 → 0 < secondCap < 2 ^ 53 →
  Forall exact_demand rows →
  0 ≤ load (firstCap, secondCap) rows m.
Proof.
  intros H1 H2. induction 1 as [|row rows Hrow _ IH].
  - unfold load, sumZ. simpl. lia.
  - rewrite load_cons.
    destruct (unit_count_exact firstCap secondCap row H1 H2 Hrow) as [_ Hc].
    case_bool_decide; lia.
Qed.

(** The loop returns, and it keeps the length of the table. *)
Lemma at_time_t_loop_returns (firstCap secondCap : Z) rows df :
  0 < firstCap < 2 ^ 53 → 0 < secondCap < 2 ^ 53 →
  Forall exact_demand rows →
  ∃ df', at_time_t_loop rows (firstCap, secondCap) df = Ok df'
    ∧ length df' = length df.
Proof.
  intros H1 H2 Hrows. revert df.
  induction Hrows as [|row rows Hrow _ IH]; intros df.
  - by exists df.
  - cbn [at_time_t_loop].
    destruct (unit_count_exact firstCap secondCap row H1 H2 Hrow) as [-> Hc].
    cbn [mbind result_bind]. rewrite loc_add_exact by lia.
    cbn [mbind result_bind].
    destruct (IH (imap (λ i x,
                    if bool_decide (departure_time row ≤ Z.of_nat i ≤ arrival_time row)
                    then np.add x (cell (unit_count (firstCap, secondCap) row))
                    else x) df))
      as (df' & Hrun & Hlen).
    exists df'. split; [done|]. by rewrite Hlen, length_imap.
Qed.

(** A cell that holds an integer ends up holding that integer plus the
    unit counts of the rows that cover its minute, as long as this sum is
    at most [2^53]. *)
Lemma at_time_t_loop_lookup (firstCap secondCap : Z) rows df df' (i : nat) (z : Z) :
  0 < firstCap < 2 ^ 53 → 0 < secondCap < 2 ^ 53 →
  Forall exact_demand rows →
  at_time_t_loop rows (firstCap, secondCap) df = Ok df' →
  df !! i = Some (cell z) → 0 ≤ z →
  z + load (firstCap, secondCap) rows i ≤ 2 ^ 53 →
  df' !! i = Some (cell (z + load (firstCap, secondCap) rows i)).
Proof.
  intros H1 H2 Hrows. revert df z.
  induction Hrows as [|row rows Hrow Hrows IH]; intros df z.
  - intros [= <-] Hz _ _. unfold load, sumZ. simpl. by rewrite Z.add_0_r.
  - cbn [at_time_t_loop].
    destruct (unit_count_exact firstCap secondCap row H1 H2 Hrow) as [-> Hc].
    cbn [mbind result_bind]. rewrite loc_add_exact by lia.
    cbn [mbind result_bind]. rewrite load_cons. intros Hrun Hz Hz0 Hsum.
    pose proof (load_nonneg firstCap secondCap rows i H1 H2 Hrows) as Hrest.
    case_bool_decide as Hcover.
    + rewrite Z.add_assoc. apply (IH _ _ Hrun); [|lia|lia].
      rewrite list_lookup_imap, Hz. simpl.
      rewrite bool_decide_eq_true_2 by done. f_equal. apply np_add_exact. lia.
    + rewrite Z.add_0_l. apply (IH _ _ Hrun); [|lia|lia].
      rewrite list_lookup_imap, Hz. simpl.
      by rewrite bool_decide_eq_false_2.
Qed.

Lemma lookup_zeros_table (m : nat) :
  (m ≤ 1440)%nat → zeros_table !! m = Some (cell 0).
Proof.
  intros Hm. unfold zeros_table, np.zeros. apply lookup_replicate_2. simpl. lia.
Qed.

(** Every entry of the table whose sum of unit counts is at most [2^53],
    whatever the times of the rows are. *)
Lemma occupancy_lookup (firstCap secondCap : Z) schedule :
  0 < firstCap < 2 ^ 53 → 0 < secondCap < 2 ^ 53 →
  Forall exact_demand schedule →
  ∃ df, minimum_number_of_trains_at_time_t schedule (firstCap, secondCap) = Ok df
    ∧ length df = 1441%nat
    ∧ ∀ m : nat, (m ≤ 1440)%nat →
        load (firstCap, secondCap) schedule m ≤ 2 ^ 53 →
        df !! m = Some (cell (load (firstCap, secondCap) schedule m)).
Proof.
  intros H1 H2 Hrows.
  destruct (at_time_t_loop_returns firstCap secondCap schedule zeros_table H1 H2 Hrows)
    as (df & Hrun & Hlen).
  exists df. split; [done|]. split; [by rewrite Hlen|].
  intros m Hm Hload.
  rewrite <- (Z.add_0_l (load (firstCap, secondCap) schedule m)).
  apply (at_time_t_loop_lookup firstCap secondCap schedule zeros_table);
    [done | done | done | done | by apply lookup_zeros_table | lia | lia].
Qed.

(** C2, amended: for same-day rows with non-negative demands and positive
    capacities, all below 2^53, the function returns a table of 1441
    entries; the entry of a minute [m] is the sum of the unit counts of the
    rows with [departure_time <= m <= arrival_time] whenever that sum is at
    most 2^53, and an entry that no row covers is 0. *)
Theorem occupancy_table (schedule : list Row) (firstCap secondCap : Z) :
  0 < firstCap < 2 ^ 53 → 0 < secondCap < 2 ^ 53 →
  Forall (λ row, 0 ≤ first_class row < 2 ^ 53
                 ∧ 0 ≤ second_class row < 2 ^ 53) schedule →
  Forall (λ row, 0 ≤ departure_time row ≤ 1440
                 ∧ 0 ≤ arrival_time row ≤ 1440
                 ∧ departure_time row ≤ arrival_time row) schedule →
  ∃ df, minimum_number_of_trains_at_time_t schedule (firstCap, secondCap) = Ok df
    ∧ length df = 1441%nat
    ∧ (∀ m : nat, (m ≤ 1440)%nat →
         sumZ (unit_count (firstCap, secondCap)
                 <$> rows_at (Z.of_nat m) schedule) ≤ 2 ^ 53 →
         df !! m = Some (Finite (inject_Z
                      (sumZ (unit_count (firstCap, secondCap)
                               <$> rows_at (Z.of_nat m) schedule)))))
    ∧ (∀ m : nat, (m ≤ 1440)%nat ∧ rows_at (Z.of_nat m) schedule = [] →
         df !! m = Some (Finite 0)).
Proof.
  intros H1 H2 Hdemand _.
  destruct (occupancy_lookup firstCap secondCap schedule H1 H2 Hdemand)
    as (df & Hrun & Hlen & Hget).
  exists df. split; [done|]. split; [done|]. split; [exact Hget|].
  intros m [Hm Hnone].
  specialize (Hget m Hm). unfold load in Hget. rewrite Hnone in Hget.
  apply Hget. by vm_compute.
Qed.

Lemma occupancy_table_witness :
  0 < 100 < 2 ^ 53 ∧ 0 < 50 < 2 ^ 53
  ∧ Forall (λ row, 0 ≤ first_class row < 2 ^ 53
                   ∧ 0 ≤ second_class row < 2 ^ 53) overlap_schedule
  ∧ Forall (λ row, 0 ≤ departure_time row ≤ 1440
                   ∧ 0 ≤ arrival_time row ≤ 1440
                   ∧ departure_time row ≤ arrival_time row) overlap_schedule
  ∧ ∃ df, minimum_number_of_trains_at_time_t overlap_schedule (100, 50) = Ok df
      ∧ length df = 1441%nat
      ∧ df !! 99%nat = Some (Finite 0) ∧ df !! 100%nat = Some (Finite 1)
      ∧ df !! 149%nat = Some (Finite 1) ∧ df !! 150%nat = Some (Finite 2)
      ∧ df !! 200%nat = Some (Finite 2) ∧ df !! 201%nat = Some (Finite 1)
      ∧ df !! 250%nat = Some (Finite 1) ∧ df !! 251%nat = Some (Finite 0).
Proof.
  assert (Hdemand : Forall (λ row, 0 ≤ first_class row < 2 ^ 53
                                   ∧ 0 ≤ second_class row < 2 ^ 53)
                      overlap_schedule).
  { repeat constructor; simpl; lia. }
  assert (Hrows : Forall (λ row, 0 ≤ departure_time row ≤ 1440
                                 ∧ 0 ≤ arrival_time row ≤ 1440
                                 ∧ departure_time row ≤ arrival_time row)
                    overlap_schedule).
  { repeat constructor; simpl; lia. }
  split; [lia|]. split; [lia|]. split; [exact Hdemand|]. split; [exact Hrows|].
  destruct (occupancy_table overlap_schedule 100 50 ltac:(lia) ltac:(lia)
              Hdemand Hrows)
    as (df & Hrun & Hlen & Hsum & _).
  exists df. split; [exact Hrun|]. split; [exact Hlen|].
  rewrite !Hsum by (vm_compute; (lia || discriminate)). vm_compute. repeat split.
Defined.

(** C2 as stated fails once a sum is not a float.  Two rows cover minute
    100 with unit counts 2^53 - 1 and 2, under capacities (1, 1): demands
    and capacities are below 2^53, and the entry is 2^53, one less than the
    sum of the two counts. *)
Lemma occupancy_table_counterexample :
  (0 < 1 ∧ 0 < 1)
  ∧ Forall (λ row, 0 ≤ departure_time row ≤ 1440
                   ∧ 0 ≤ arrival_time row ≤ 1440
                   ∧ departure_time row ≤ arrival_time row) rounding_schedule
  ∧ sumZ (unit_count (1, 1) <$> rows_at 100 rounding_schedule) = 2 ^ 53 + 1
  ∧ (∃ df, minimum_number_of_trains_at_time_t rounding_schedule (1, 1) = Ok df
         ∧ df !! 100%nat = Some (Finite (inject_Z (2 ^ 53))))
  ∧ ¬ ∃ df, minimum_number_of_trains_at_time_t rounding_schedule (1, 1) = Ok df
        ∧ df !! 100%nat =
            Some (Finite (inject_Z
                    (sumZ (unit_count (1, 1) <$> rows_at 100 rounding_schedule)))).
Proof.
  split; [lia|].
  split; [repeat constructor; simpl; lia|].
  split; [by vm_compute|].
  split.
  { eexists. split; [vm_compute; reflexivity | by vm_compute]. }
  intros (df & Hrun & Hget). vm_compute in Hrun. injection Hrun as <-.
  vm_compute in Hget. discriminate.
Qed.

End occupancy.

(** ** Dictionaries *)

Section dict_facts.
Context {K V : Type} `{EqDecision K}.
Implicit Types (d : Dict.t K V) (k : K) (v : V).

Lemma get_None d k : Dict.get k d = None ↔ k ∉ Dict.keys d.
Proof.
  unfold Dict.keys. induction d as [|[k' v'] d IH]; csimpl.
  - split; [intros _; apply not_elem_of_nil | done].
  - rewrite not_elem_of_cons. case_decide as Hk.
    + split; [done|]. by intros [? _].
    + rewrite IH. split; [done|]. by intros [_ ?].
Qed.

Lemma get_Some_elem_of d k v : Dict.get k d = Some v → (k, v) ∈ d.
Proof.
  induction d as [|[k' v'] d IH]; simpl; [done|].
  case_decide; intros Hget.
  - simplify_eq. left.
  - right. auto.
Qed.

Lemma elem_of_get_Some d k v :
  NoDup (Dict.keys d) → (k, v) ∈ d → Dict.get k d = Some v.
Proof.
  unfold Dict.keys. induction d as [|[k' v'] d IH]; csimpl.
  - intros _ Hin. by apply elem_of_nil in Hin.
  - intros Hnd Hin. apply NoDup_cons in Hnd as [Hfresh Hnd].
    apply elem_of_cons in Hin as [Heq|Hin].
    + simplify_eq. by rewrite decide_True.
    + rewrite decide_False; [auto|]. intros ->. apply Hfresh.
      apply list_elem_of_fmap. by exists (k', v).
Qed.

Lemma get_set_item d k k' v :
  Dict.get k (Dict.set_item k' v d) =
    if decide (k = k') then Some v else Dict.get k d.
Proof.
  induction d as [|[k'' v''] d IH]; simpl.
  - by repeat case_decide.
  - destruct (decide (k' = k'')) as [->|Hne]; simpl.
    + by repeat case_decide.
    + rewrite IH. repeat case_decide; by simplify_eq.
Qed.

(** Assigning to a key that is present keeps the keys; a new key goes to
    the end. *)
Lemma keys_set_item d k v :
  Dict.keys (Dict.set_item k v d) =
    match Dict.get k d with
    | Some _ => Dict.keys d
    | None => Dict.keys d ++ [k]
    end.
Proof.
  unfold Dict.keys. induction d as [|[k' v'] d IH]; csimpl; [done|].
  case_decide; csimpl; [done|]. rewrite IH. by destruct (Dict.get k d).
Qed.

Lemma set_item_fresh d k v :
  Dict.get k d = None → Dict.set_item k v d = d ++ [(k, v)].
Proof.
  induction d as [|[k' v'] d IH]; simpl; [done|].
  case_decide; [done|]. intros Hget. by rewrite IH.
Qed.

Lemma NoDup_keys_set_item d k v :
  NoDup (Dict.keys d) → NoDup (Dict.keys (Dict.set_item k v d)).
Proof.
  intros Hnd. rewrite keys_set_item.
  destruct (Dict.get k d) eqn:Hget; [done|].
  apply NoDup_app. split; [done|]. split; [|apply NoDup_singleton].
  intros k' Hin ->%list_elem_of_singleton. by apply get_None in Hget.
Qed.

Lemma elem_of_keys d k : k ∈ Dict.keys d ↔ is_Some (Dict.get k d).
Proof.
  rewrite <- not_eq_None_Some, get_None.
  destruct (decide (k ∈ Dict.keys d)); naive_solver.
Qed.
End dict_facts.

(** Grouping: the loop shared by [create_trains_dict] and
    [find_all_stops_per_station], which appends every element to the list
    stored under its key. *)
Section grouping.
Context {K A : Type} `{EqDecision K} (key : A → K).
Implicit Types (d : Dict.t K (list A)) (k : K) (x : A).

Lemma get_group_step d x k :
  Dict.get k (group_step key d x) =
    if decide (k = key x) then Some (default [] (Dict.get k d) ++ [x])
    else Dict.get k d.
Proof.
  unfold group_step, Dict.get_default.
  destruct (Dict.get (key x) d) as [sub|] eqn:Hget.
  - rewrite get_set_item. case_decide; [|done]. subst. by rewrite Hget.
  - rewrite !get_set_item. case_decide; [|done]. subst. by rewrite Hget.
Qed.

Lemma NoDup_keys_group_step d x :
  NoDup (Dict.keys d) → NoDup (Dict.keys (group_step key d x)).
Proof.
  intros Hnd. unfold group_step, Dict.get_default.
  destruct (Dict.get (key x) d); auto using NoDup_keys_set_item.
Qed.

Lemma total_set_item_Some d k sub sub' :
  Dict.get k d = Some sub →
  (total (Dict.set_item k sub' d) + length sub = total d + length sub')%nat.
Proof.
  unfold total, Dict.values. induction d as [|[k' v'] d IH]; csimpl; [done|].
  case_decide; csimpl; intros Hget.
  - simplify_eq. lia.
  - specialize (IH Hget). lia.
Qed.

Lemma total_set_item_None d k sub' :
  Dict.get k d = None →
  (total (Dict.set_item k sub' d) = total d + length sub')%nat.
Proof.
  intros Hget. rewrite set_item_fresh by done.
  unfold total, Dict.values. rewrite !fmap_app, sum_list_with_app. simpl. lia.
Qed.

Lemma total_group_step d x : total (group_step key d x) = S (total d).
Proof.
  unfold group_step, Dict.get_default.
  destruct (Dict.get (key x) d) as [sub|] eqn:Hget.
  - pose proof (total_set_item_Some d (key x) sub (sub ++ [x]) Hget) as Htot.
    rewrite length_app in Htot. simpl in Htot. lia.
  - pose proof (total_set_item_None d (key x) [] Hget) as Hnew.
    assert (Hget' : Dict.get (key x) (Dict.set_item (key x) [] d) = Some []).
    { by rewrite get_set_item, decide_True. }
    pose proof (total_set_item_Some _ (key x) [] ([] ++ [x]) Hget') as Htot.
    simpl in *. lia.
Qed.

Lemma group_snoc l x : group key (l ++ [x]) = group_step key (group key l) x.
Proof. unfold group. by rewrite foldl_app. Qed.

Lemma NoDup_keys_group l : NoDup (Dict.keys (group key l)).
Proof.
  induction l as [|x l IH] using rev_ind; [constructor|].
  rewrite group_snoc. by apply NoDup_keys_group_step.
Qed.

Lemma total_group l : total (group key l) = length l.
Proof.
  induction l as [|x l IH] using rev_ind; [done|].
  rewrite group_snoc, total_group_step, length_app, IH. simpl. lia.
Qed.

(** What is stored under a key: the elements with that key, in order. *)
Lemma get_group l k :
  Dict.get k (group key l) =
    match filter (λ x, key x = k) l with
    | [] => None
    | sub => Some sub
    end.
Proof.
  induction l as [|x l IH] using rev_ind; [done|].
  rewrite group_snoc, get_group_step, filter_app, IH.
  rewrite filter_cons, filter_nil.
  destruct (decide (k = key x)) as [->|Hne].
  - rewrite decide_True by done.
    by destruct (filter (λ x0, key x0 = key x) l).
  - rewrite decide_False by done. by rewrite app_nil_r.
Qed.

Lemma elem_of_group l k sub :
  (k, sub) ∈ group key l ↔ sub ≠ [] ∧ sub = filter (λ x, key x = k) l.
Proof.
  split.
  - intros Hin. apply elem_of_get_Some in Hin; [|apply NoDup_keys_group].
    rewrite get_group in Hin.
    destruct (filter (λ x, key x = k) l); by simplify_eq.
  - intros [Hne ->]. apply get_Some_elem_of. rewrite get_group.
    by destruct (filter (λ x, key x = k) l).
Qed.

Lemma elem_of_keys_group l k : k ∈ Dict.keys (group key l) ↔ k ∈ key <$> l.
Proof.
  rewrite elem_of_keys, get_group, list_elem_of_fmap. split.
  - intros Hsome. destruct (filter (λ x, key x = k) l) as [|x sub] eqn:Hf.
    + by destruct Hsome.
    + assert (Hx : x ∈ filter (λ x, key x = k) l) by (rewrite Hf; left).
      apply list_elem_of_filter in Hx as [Hk Hx]. by exists x.
  - intros (x & -> & Hx).
    assert (Hin : x ∈ filter (λ y, key y = key x) l).
    { by apply list_elem_of_filter. }
    destruct (filter (λ y, key y = key x) l); [|done].
    by apply elem_of_nil in Hin.
Qed.
End grouping.

(** ** Per-train schedules *)

Section trains_dict.

Lemma create_trains_dict_group (schedule : list Row) :
  create_trains_dict schedule = group train_number schedule.
Proof. reflexivity. Qed.

Lemma length_distinct `{EqDecision B} (l k : list B) :
  NoDup l → (∀ x, x ∈ l ↔ x ∈ k) → length l = length (remove_dups k).
Proof.
  intros Hnd Hiff. apply Permutation_length, NoDup_Permutation.
  - done.
  - apply NoDup_remove_dups.
  - intros x. by rewrite elem_of_remove_dups.
Qed.

(** C5: the dictionary has one entry per distinct train identifier, the
    sub-tables together hold as many rows as the schedule, every row is in
    the sub-table of its train, and a sub-table lists the rows of its train
    in schedule order. *)
Theorem create_trains_dict_partition (schedule : list Row) :
  NoDup (Dict.keys (create_trains_dict schedule))
  ∧ length (create_trains_dict schedule) =
      length (remove_dups (train_number <$> schedule))
  ∧ sum_list (length <$> Dict.values (create_trains_dict schedule)) =
      length schedule
  ∧ (∀ row, row ∈ schedule →
       ∃ sub, (train_number row, sub) ∈ create_trains_dict schedule ∧ row ∈ sub)
  ∧ (∀ k sub, (k, sub) ∈ create_trains_dict schedule →
       sub = filter (λ row, train_number row = k) schedule).
Proof.
  rewrite create_trains_dict_group. split; [|split; [|split; [|split]]].
  - apply NoDup_keys_group.
  - rewrite <- (length_fmap fst (group train_number schedule)).
    apply length_distinct; [apply NoDup_keys_group|].
    intros k. apply elem_of_keys_group.
  - apply total_group.
  - intros row Hrow.
    assert (Hin : row ∈ filter (λ r, train_number r = train_number row) schedule).
    { by apply list_elem_of_filter. }
    eexists. split; [|exact Hin]. apply elem_of_group. split; [|done].
    intros Hnil. rewrite Hnil in Hin. by apply elem_of_nil in Hin.
  - intros k sub Hin. by apply elem_of_group in Hin as [_ ->].
Qed.

End trains_dict.

(** ** Stops per station *)

Section stops.
Implicit Types (G : nx.DiGraph) (station : Z) (stops : list TrainStop).

#[local] Instance stop_le_total : Total stop_le.
Proof. intros [s1 t1] [s2 t2]. unfold stop_le. simpl. lia. Qed.

#[local] Instance stop_le_trans : Transitive stop_le.
Proof. intros [s1 t1] [s2 t2] [s3 t3]. unfold stop_le. simpl. lia. Qed.

Lemma list_sort_perm stops : list_sort stops ≡ₚ stops.
Proof. apply merge_sort_Permutation. Qed.

Lemma list_sort_sorted stops : StronglySorted stop_le (list_sort stops).
Proof. apply (StronglySorted_merge_sort stop_le). Qed.

(** The first element of a sorted list is below, the last one above,
    every element. *)
Lemma sorted_head_le stops first n :
  StronglySorted stop_le stops → head stops = Some first → n ∈ stops →
  stop_le first n.
Proof.
  intros Hs Hhd Hn. destruct stops as [|x l]; simplify_eq/=.
  apply StronglySorted_inv in Hs as [_ Hall].
  apply elem_of_cons in Hn as [->|Hn].
  - destruct first as [s t]. unfold stop_le. simpl. lia.
  - by eapply Forall_forall in Hall.
Qed.

Lemma sorted_le_last stops final n :
  StronglySorted stop_le stops → last stops = Some final → n ∈ stops →
  stop_le n final.
Proof.
  intros Hs Hlast Hn. apply last_Some in Hlast as [l ->].
  apply elem_of_app in Hn as [Hn|Hn].
  - eapply (StronglySorted_app_1_elem_of _ l [final]); [done..|left].
  - apply list_elem_of_singleton in Hn as ->.
    destruct final as [s t]. unfold stop_le. simpl. lia.
Qed.

Lemma find_all_stops_per_station_group G :
  find_all_stops_per_station G =
    prod_map id list_sort <$> group fst (nx.nodes G).
Proof. reflexivity. Qed.

Lemma keys_find_all_stops_per_station G :
  Dict.keys (find_all_stops_per_station G) = Dict.keys (group fst (nx.nodes G)).
Proof.
  rewrite find_all_stops_per_station_group. unfold Dict.keys.
  rewrite <- list_fmap_compose. apply list_fmap_ext. by intros ? [??].
Qed.

(** An entry of the grouping: the stops of one station, sorted. *)
Lemma elem_of_find_all_stops_per_station G station stops :
  (station, stops) ∈ find_all_stops_per_station G ↔
    stops ≠ [] ∧ stops = list_sort (filter (λ n, n.1 = station) (nx.nodes G)).
Proof.
  rewrite find_all_stops_per_station_group, list_elem_of_fmap. split.
  - intros ([s raw] & Heq & Hin). simpl in Heq. simplify_eq.
    apply elem_of_group in Hin as [Hne ->]. split; [|done].
    intros Hnil. apply Hne. symmetry. apply Permutation_nil_l.
    rewrite <- Hnil. apply list_sort_perm.
  - intros [Hne ->]. eexists (station, _). split; [done|].
    apply elem_of_group. split; [|done].
    intros Hnil. apply Hne. exact (f_equal list_sort Hnil).
Qed.

Lemma get_find_all_stops_per_station G station :
  default [] (Dict.get station (find_all_stops_per_station G)) =
    list_sort (filter (λ n, n.1 = station) (nx.nodes G)).
Proof.
  destruct (Dict.get station (find_all_stops_per_station G)) as [stops|] eqn:Hget.
  - apply get_Some_elem_of, elem_of_find_all_stops_per_station in Hget.
    by destruct Hget.
  - simpl. apply get_None in Hget.
    rewrite keys_find_all_stops_per_station, elem_of_keys_group in Hget.
    destruct (filter (λ n, n.1 = station) (nx.nodes G)) as [|n l] eqn:Hf; [done|].
    exfalso. apply Hget.
    assert (Hn : n ∈ filter (λ n, n.1 = station) (nx.nodes G)) by (rewrite Hf; left).
    apply list_elem_of_filter in Hn as [<- Hn]. by apply list_elem_of_fmap_2.
Qed.

Lemma elem_of_stops G station stops n :
  (station, stops) ∈ find_all_stops_per_station G →
  n ∈ stops ↔ n ∈ nx.nodes G ∧ n.1 = station.
Proof.
  intros [_ ->]%elem_of_find_all_stops_per_station.
  rewrite list_sort_perm, list_elem_of_filter. tauto.
Qed.
End stops.

Section first_last.
Implicit Types (G : nx.DiGraph) (station : Z) (stops : list TrainStop).

Lemma mapM_Ok {A B} (f : A → result B) (l : list A) (k : list B) :
  Forall2 (λ x y, f x = Ok y) l k → mapM f l = Ok k.
Proof.
  induction 1 as [|x y l k Hx _ IH]; [done|].
  simpl. rewrite Hx. cbn [mbind result_bind].
  simpl in IH. by rewrite IH.
Qed.

Lemma mapM_total {A B} (f : A → result B) (l : list A) :
  Forall (λ x, ∃ y, f x = Ok y) l →
  ∃ k, mapM f l = Ok k ∧ Forall2 (λ x y, f x = Ok y) l k.
Proof.
  intros Hall. apply Forall_exists_Forall2_l in Hall as [k Hk].
  exists k. split; [by apply mapM_Ok | done].
Qed.

Lemma getitem_0_Ok {A} (l : list A) (x : A) :
  getitem l 0 = Ok x ↔ head l = Some x.
Proof.
  unfold getitem. rewrite head_lookup.
  destruct (l !! 0%nat); split; intros ?; by simplify_eq.
Qed.

Lemma getitem_last_Ok {A} (l : list A) (x : A) :
  getitem_last l = Ok x ↔ last l = Some x.
Proof.
  unfold getitem_last. destruct (last l); split; intros ?; by simplify_eq.
Qed.

Lemma values_nonempty G :
  Forall (λ stops, stops ≠ []) (Dict.values (find_all_stops_per_station G)).
Proof.
  apply Forall_forall. intros stops Hin.
  apply list_elem_of_fmap in Hin as ([station stops'] & -> & Hin).
  by apply elem_of_find_all_stops_per_station in Hin as [? _].
Qed.

Lemma lookup_keys_values {K V} (d : list (K * V)) (i : nat) (k : K) :
  Dict.keys d !! i = Some k →
  ∃ v, d !! i = Some (k, v) ∧ Dict.values d !! i = Some v.
Proof.
  unfold Dict.keys, Dict.values. rewrite !list_lookup_fmap.
  destruct (d !! i) as [[k' v]|]; intros ?; simplify_eq/=. by exists v.
Qed.

(** C7: each function returns one stop per station of the grouping, in the
    order of the grouping: the stop of that station with the least,
    respectively the greatest, time.  Every station with a stop has one
    entry; with stops at 50, 100 and 200 the results are the stops at 50
    and at 200. *)
Theorem first_and_last_trainstops (G : nx.DiGraph) :
  ∃ firsts lasts,
    find_staring_trainstops G = Ok firsts
    ∧ find_ending_trainstops G = Ok lasts
    ∧ length firsts = length (find_all_stops_per_station G)
    ∧ length lasts = length (find_all_stops_per_station G)
    ∧ NoDup (Dict.keys (find_all_stops_per_station G))
    ∧ (∀ n, n ∈ nx.nodes G → n.1 ∈ Dict.keys (find_all_stops_per_station G))
    ∧ (∀ i station,
         Dict.keys (find_all_stops_per_station G) !! i = Some station →
         ∃ tmin tmax,
           firsts !! i = Some (station, tmin)
           ∧ lasts !! i = Some (station, tmax)
           ∧ (station, tmin) ∈ nx.nodes G
           ∧ (station, tmax) ∈ nx.nodes G
           ∧ ∀ t, (station, t) ∈ nx.nodes G → tmin ≤ t ≤ tmax)
    ∧ find_staring_trainstops
        {| nx.nodes := [(1, 100); (1, 50); (1, 200)]; nx.edges := [] |}
      = Ok [(1, 50)]
    ∧ find_ending_trainstops
        {| nx.nodes := [(1, 100); (1, 50); (1, 200)]; nx.edges := [] |}
      = Ok [(1, 200)].
Proof.
  destruct (mapM_total (λ stops, getitem stops 0)
              (Dict.values (find_all_stops_per_station G)))
    as (firsts & Hfirsts & Hf2).
  { eapply Forall_impl; [apply values_nonempty|]. intros [|x l] Hne; [done|].
    by exists x. }
  destruct (mapM_total getitem_last
              (Dict.values (find_all_stops_per_station G)))
    as (lasts & Hlasts & Hl2).
  { eapply Forall_impl; [apply values_nonempty|]. intros stops Hne.
    apply last_is_Some in Hne as [x Hx]. exists x. by apply getitem_last_Ok. }
  exists firsts, lasts.
  split; [done|]. split; [done|].
  split. { apply Forall2_length in Hf2. rewrite <- Hf2. apply length_fmap. }
  split. { apply Forall2_length in Hl2. rewrite <- Hl2. apply length_fmap. }
  split. { rewrite keys_find_all_stops_per_station. apply NoDup_keys_group. }
  split.
  { intros n Hn. rewrite keys_find_all_stops_per_station, elem_of_keys_group.
    by apply list_elem_of_fmap_2. }
  split; [|by vm_compute].
  intros i station Hkey.
  apply lookup_keys_values in Hkey as (stops & Hentry & Hval).
  apply list_elem_of_lookup_2 in Hentry.
  destruct (Forall2_lookup_l _ _ _ _ _ Hf2 Hval) as (first & Hfirst & Hhd).
  destruct (Forall2_lookup_l _ _ _ _ _ Hl2 Hval) as (final & Hfinal & Hla).
  apply getitem_0_Ok in Hhd. apply getitem_last_Ok in Hla.
  pose proof (head_Some_elem_of _ _ Hhd) as Hfin.
  pose proof (last_Some_elem_of _ _ Hla) as Hlin.
  apply (elem_of_stops G station) in Hfin as [Hfn Hfs]; [|done].
  apply (elem_of_stops G station) in Hlin as [Hln Hls]; [|done].
  destruct first as [s1 tmin], final as [s2 tmax]. simpl in *. subst s1 s2.
  exists tmin, tmax. repeat (split; [done|]).
  intros t Ht.
  assert (Hin : (station, t) ∈ stops) by by apply (elem_of_stops G station).
  assert (Hsorted : StronglySorted stop_le stops).
  { apply elem_of_find_all_stops_per_station in Hentry as [_ ->].
    apply list_sort_sorted. }
  pose proof (sorted_head_le _ _ _ Hsorted Hhd Hin) as Hlo.
  pose proof (sorted_le_last _ _ _ Hsorted Hla Hin) as Hhi.
  unfold stop_le in *. simpl in *. lia.
Qed.

End first_last.

(** ** The graph *)

Section graph.
Implicit Types (G : nx.DiGraph) (u v n : TrainStop) (attr : EdgeAttr)
  (stops : list TrainStop).

Lemma elem_of_nodes_add_node G n n' :
  n' ∈ nx.nodes (nx.add_node n G) ↔ n' ∈ nx.nodes G ∨ n' = n.
Proof.
  unfold nx.add_node. case_decide; simpl.
  - split; [by left|]. by intros [?| ->].
  - by rewrite elem_of_app, list_elem_of_singleton.
Qed.

Lemma NoDup_nodes_add_node G n :
  NoDup (nx.nodes G) → NoDup (nx.nodes (nx.add_node n G)).
Proof.
  intros Hnd. unfold nx.add_node. case_decide; simpl; [done|].
  apply NoDup_app. split; [done|]. split; [|apply NoDup_singleton].
  by intros n' Hin ->%list_elem_of_singleton.
Qed.

Lemma add_node_present G n : n ∈ nx.nodes G → nx.add_node n G = G.
Proof. intros Hn. unfold nx.add_node. by rewrite decide_True. Qed.

Lemma edges_add_node G n : nx.edges (nx.add_node n G) = nx.edges G.
Proof. unfold nx.add_node. by case_decide. Qed.

Lemma edges_add_edge G u v attr :
  nx.edges (nx.add_edge u v attr G) = Dict.set_item (u, v) attr (nx.edges G).
Proof. unfold nx.add_edge. simpl. by rewrite !edges_add_node. Qed.

Lemma nodes_add_edge G u v attr :
  nx.nodes (nx.add_edge u v attr G) = nx.nodes (nx.add_node v (nx.add_node u G)).
Proof. reflexivity. Qed.

Lemma nodes_add_edge_present G u v attr :
  u ∈ nx.nodes G → v ∈ nx.nodes G → nx.nodes (nx.add_edge u v attr G) = nx.nodes G.
Proof.
  intros Hu Hv. rewrite nodes_add_edge.
  rewrite (add_node_present G u) by done. by rewrite add_node_present.
Qed.

Lemma nodes_foldl_add_pair G (ps : list (TrainStop * TrainStop)) :
  (∀ p, p ∈ ps → p.1 ∈ nx.nodes G ∧ p.2 ∈ nx.nodes G) →
  nx.nodes (foldl add_pair G ps) = nx.nodes G.
Proof.
  revert G. induction ps as [|p ps IH]; intros G Hps; [done|].
  destruct (Hps p ltac:(left)) as [H1 H2].
  assert (Hstep : nx.nodes (add_pair G p) = nx.nodes G).
  { by apply nodes_add_edge_present. }
  simpl. rewrite IH; [done|].
  intros q Hq. rewrite Hstep. apply Hps. by right.
Qed.

Lemma edges_foldl_add_pair G (ps : list (TrainStop * TrainStop)) :
  nx.edges (foldl add_pair G ps) =
    foldl (λ E p, Dict.set_item p zero_attr E) (nx.edges G) ps.
Proof.
  revert G. induction ps as [|[u v] ps IH]; intros G; [done|].
  simpl. rewrite IH. unfold add_pair. by rewrite edges_add_edge.
Qed.

(** *** The loops of [connect_stationary_nodes] never fail *)

Lemma connect_stops_from (pre l : list TrainStop) G :
  connect_stops (pre ++ l)
    (imap (λ i x, ((length pre + i)%nat, x)) (take (length l - 1) l)) G
  = Ok (foldl add_pair G (stationary_pairs l)).
Proof.
  revert pre G. induction l as [|x l IH]; intros pre G; [done|].
  destruct l as [|y l]; [done|].
  replace (length (x :: y :: l) - 1)%nat with (S (length (y :: l) - 1))
    by (simpl; lia).
  rewrite firstn_cons, imap_cons. cbn [connect_stops].
  assert (Hnext : getitem (pre ++ x :: y :: l) (length pre + 0 + 1) = Ok y).
  { unfold getitem. rewrite lookup_app_r by lia.
    by replace (length pre + 0 + 1 - length pre)%nat with 1%nat by lia. }
  rewrite Hnext. cbn [mbind result_bind].
  specialize (IH (pre ++ [x]) (nx.add_edge x y zero_attr G)).
  rewrite <- app_assoc in IH. simpl in IH.
  etrans; [|exact IH]. f_equal. apply imap_ext. intros i z _. simpl.
  rewrite length_app. simpl. f_equal. lia.
Qed.

Lemma connect_stops_enumerate stops G :
  connect_stops stops (enumerate (take (length stops - 1) stops)) G
  = Ok (foldl add_pair G (stationary_pairs stops)).
Proof. apply (connect_stops_from [] stops G). Qed.

Lemma connect_stations_spec (d : Dict.t Z (list TrainStop)) (stations : list Z) G :
  connect_stations d stations G =
    Ok (foldl add_pair G
          (stations ≫= λ station,
             stationary_pairs (default [] (Dict.get station d)))).
Proof.
  revert G. induction stations as [|station stations IH]; intros G; [done|].
  cbn [connect_stations]. rewrite connect_stops_enumerate.
  cbn [mbind result_bind]. rewrite IH. by rewrite bind_cons, foldl_app.
Qed.

Lemma connect_stationary_nodes_spec G :
  connect_stationary_nodes G = Ok (foldl add_pair G (all_stationary_pairs G)).
Proof.
  unfold connect_stationary_nodes. rewrite connect_stations_spec.
  do 2 f_equal. unfold all_stationary_pairs.
  apply list_bind_ext; [|done]. intros station.
  by rewrite get_find_all_stops_per_station.
Qed.

Lemma elem_of_stationary_pairs stops u v :
  (u, v) ∈ stationary_pairs stops → u ∈ stops ∧ v ∈ stops.
Proof.
  unfold stationary_pairs. intros Hin. split.
  - by eapply elem_of_zip_l.
  - apply elem_of_zip_r in Hin. destruct stops; [done|]. by right.
Qed.

Lemma elem_of_all_stationary_pairs G u v :
  (u, v) ∈ all_stationary_pairs G →
  u ∈ nx.nodes G ∧ v ∈ nx.nodes G ∧ u.1 = v.1.
Proof.
  unfold all_stationary_pairs. rewrite list_elem_of_bind.
  intros (station & Hin & _).
  apply elem_of_stationary_pairs in Hin as [Hu Hv].
  unfold stops_at in Hu, Hv.
  rewrite list_sort_perm, list_elem_of_filter in Hu, Hv.
  destruct Hu as [Hus Hu], Hv as [Hvs Hv]. repeat split; [done..|congruence].
Qed.

Lemma elem_of_set_item {K V} `{EqDecision K} (d : Dict.t K V) k k' a a' :
  (k, a) ∈ Dict.set_item k' a' d → (k, a) ∈ d ∨ (k = k' ∧ a = a').
Proof.
  induction d as [|[k'' a''] d IH]; simpl.
  - intros ?%list_elem_of_singleton. simplify_eq. by right.
  - case_decide; rewrite !elem_of_cons.
    + intros [?|?]; simplify_eq; [by right | by left; right].
    + intros [?|Hin]; [by left; left|].
      destruct (IH Hin) as [?|?]; [by left; right | by right].
Qed.

Lemma elem_of_foldl_set_item {K V} `{EqDecision K} (d : Dict.t K V)
    (ks : list K) k a a' :
  (k, a) ∈ foldl (λ E p, Dict.set_item p a' E) d ks →
  (k, a) ∈ d ∨ (k ∈ ks ∧ a = a').
Proof.
  revert d. induction ks as [|k' ks IH]; intros d; simpl; [by left|].
  intros Hin. destruct (IH _ Hin) as [Hd|[Hk ->]].
  - apply elem_of_set_item in Hd as [?|[-> ->]]; [by left|].
    right. split; [left | done].
  - right. split; [by right | done].
Qed.

(** C10: [connect_stationary_nodes] returns a graph with the same nodes,
    and the two ends of every edge it adds were nodes before the call. *)
Theorem connect_stationary_nodes_nodes (G : nx.DiGraph) :
  ∃ G', connect_stationary_nodes G = Ok G'
    ∧ nx.nodes G' = nx.nodes G
    ∧ ∀ u v attr, ((u, v), attr) ∈ nx.edges G' →
        ((u, v), attr) ∈ nx.edges G ∨ (u ∈ nx.nodes G ∧ v ∈ nx.nodes G).
Proof.
  eexists. split; [apply connect_stationary_nodes_spec|]. split.
  - apply nodes_foldl_add_pair. intros [u v] Hp. simpl.
    apply elem_of_all_stationary_pairs in Hp. tauto.
  - intros u v attr. rewrite edges_foldl_add_pair.
    intros [Hold|[Hnew _]]%elem_of_foldl_set_item; [by left|]. right.
    apply elem_of_all_stationary_pairs in Hnew. tauto.
Qed.
End graph.

(** ** Filtering a dictionary after assignments *)

Section filter_set_item.
Context {K V : Type} `{EqDecision K} (P : K → Prop) `{∀ k, Decision (P k)}.
Implicit Types (d : Dict.t K V) (k : K) (a : V).

Lemma filter_set_item_other d k a :
  ¬ P k →
  filter (λ e, P e.1) (Dict.set_item k a d) = filter (λ e, P e.1) d.
Proof.
  intros Hk. induction d as [|[k' a'] d IH]; cbn [Dict.set_item].
  - by rewrite filter_cons_False, filter_nil.
  - case_decide.
    + subst k'. by rewrite !filter_cons_False.
    + rewrite !filter_cons. simpl. by rewrite IH.
Qed.

Lemma elem_of_keys_set_item d k k' a :
  k' ∈ Dict.keys (Dict.set_item k a d) ↔ k' ∈ Dict.keys d ∨ k' = k.
Proof.
  rewrite keys_set_item. destruct (Dict.get k d) eqn:Hget.
  - split; [by left|]. intros [?| ->]; [done|].
    apply elem_of_keys. by rewrite Hget.
  - by rewrite elem_of_app, list_elem_of_singleton.
Qed.

(** Assignments under keys that satisfy [P], are pairwise distinct and new
    to the dictionary append to the part of the dictionary that satisfies
    [P]; the other assignments leave that part alone. *)
Lemma filter_foldl_set_item d (ks : list K) a :
  NoDup (filter P ks) →
  (∀ k, k ∈ ks → P k → k ∉ Dict.keys d) →
  filter (λ e, P e.1) (foldl (λ E k, Dict.set_item k a E) d ks) =
    filter (λ e, P e.1) d ++ ((λ k, (k, a)) <$> filter P ks).
Proof.
  revert d. induction ks as [|k ks IH]; intros d Hnd Hfresh.
  - simpl. by rewrite app_nil_r.
  - simpl. destruct (decide (P k)) as [Hk|Hk].
    + rewrite filter_cons_True in Hnd |- * by done.
      apply NoDup_cons in Hnd as [Hnew Hnd].
      assert (Hget : Dict.get k d = None).
      { apply get_None, Hfresh; [left | done]. }
      rewrite IH; [|done|].
      * rewrite (set_item_fresh d) by done.
        rewrite filter_app, filter_cons_True, filter_nil by done.
        by rewrite <- app_assoc.
      * intros k' Hin Hk'. rewrite elem_of_keys_set_item.
        intros [Hold| ->].
        -- by apply (Hfresh k'); [right|..].
        -- apply Hnew. by apply list_elem_of_filter.
    + rewrite filter_cons_False in Hnd |- * by done.
      rewrite IH; [|done|].
      * by rewrite filter_set_item_other.
      * intros k' Hin Hk'. rewrite elem_of_keys_set_item.
        intros [Hold| ->]; [|done].
        by apply (Hfresh k'); [right|..].
Qed.
End filter_set_item.

Section filter_misc.
Context {A : Type} (P : A → Prop) `{∀ x, Decision (P x)}.

Lemma filter_all (l : list A) : Forall P l → filter P l = l.
Proof.
  induction 1 as [|x l Hx _ IH]; [done|].
  by rewrite filter_cons_True, IH.
Qed.

Lemma filter_none (l : list A) : Forall (λ x, ¬ P x) l → filter P l = [].
Proof.
  induction 1 as [|x l Hx _ IH]; [done|].
  by rewrite filter_cons_False.
Qed.
End filter_misc.

(** ** The graph of a schedule *)

Section timetable_graph.
Implicit Types (G : nx.DiGraph) (df : list Row) (row : Row) (station : Z)
  (stops : list TrainStop).

Lemma row_graph_snoc df row :
  row_graph (df ++ [row]) =
    nx.add_edge (start_key row) (end_key row) (travel_edge row).2 (row_graph df).
Proof.
  unfold row_graph, create_network_schedule, from_pandas_edgelist.
  by rewrite fmap_app, foldl_app.
Qed.

Lemma NoDup_nodes_row_graph df : NoDup (nx.nodes (row_graph df)).
Proof.
  induction df as [|row df IH] using rev_ind; [constructor|].
  rewrite row_graph_snoc, nodes_add_edge.
  by do 2 apply NoDup_nodes_add_node.
Qed.

Lemma elem_of_nodes_row_graph df n :
  n ∈ nx.nodes (row_graph df) ↔ n ∈ (start_key <$> df) ++ (end_key <$> df).
Proof.
  induction df as [|row df IH] using rev_ind.
  - simpl. rewrite !elem_of_nil. tauto.
  - rewrite row_graph_snoc, nodes_add_edge, !elem_of_nodes_add_node, IH.
    rewrite !fmap_app, !elem_of_app. simpl. rewrite !list_elem_of_singleton.
    tauto.
Qed.

Lemma keys_travel_edges df : Dict.keys (travel_edge <$> df) = leg <$> df.
Proof. unfold Dict.keys. by rewrite <- list_fmap_compose. Qed.

(** Rows with pairwise distinct legs give one edge each, in row order. *)
Lemma edges_row_graph df :
  NoDup (leg <$> df) → nx.edges (row_graph df) = travel_edge <$> df.
Proof.
  induction df as [|row df IH] using rev_ind; intros Hnd; [done|].
  rewrite fmap_app in Hnd. apply NoDup_app in Hnd as (Hdf & Hnew & _).
  rewrite row_graph_snoc, edges_add_edge, IH, fmap_app by done.
  apply set_item_fresh, get_None. rewrite keys_travel_edges.
  intros Hin. apply (Hnew _ Hin). simpl. left.
Qed.

Lemma length_stationary_pairs stops :
  length (stationary_pairs stops) = (length stops - 1)%nat.
Proof.
  unfold stationary_pairs. rewrite length_zip.
  destruct stops; cbn [length tail]; lia.
Qed.

Lemma NoDup_stationary_pairs stops :
  NoDup stops → NoDup (stationary_pairs stops).
Proof. apply NoDup_zip_l. Qed.

Lemma stop_in_list_sort G station n :
  n ∈ list_sort (stops_at station G) ↔ n ∈ nx.nodes G ∧ n.1 = station.
Proof.
  unfold stops_at. rewrite list_sort_perm, list_elem_of_filter. tauto.
Qed.

Lemma pairs_of_stay G station p : p ∈ pairs_of G station → stays_at station p.
Proof.
  destruct p as [u v]. intros [Hu Hv]%elem_of_stationary_pairs.
  apply stop_in_list_sort in Hu as [_ Hu], Hv as [_ Hv]. by split.
Qed.

Lemma pairs_of_no_stop G station :
  station ∉ Dict.keys (find_all_stops_per_station G) → pairs_of G station = [].
Proof.
  rewrite keys_find_all_stops_per_station, elem_of_keys_group.
  intros Hnone. unfold pairs_of, stops_at.
  destruct (filter (λ n, n.1 = station) (nx.nodes G)) as [|n l] eqn:Hf; [done|].
  exfalso. apply Hnone.
  assert (Hn : n ∈ filter (λ n, n.1 = station) (nx.nodes G)) by (rewrite Hf; left).
  apply list_elem_of_filter in Hn as [<- Hn]. by apply list_elem_of_fmap_2.
Qed.

(** Among the pairs of several stations, those of one station. *)
Lemma filter_stays_bind G (stations : list Z) station :
  NoDup stations →
  filter (stays_at station) (stations ≫= pairs_of G) =
    if decide (station ∈ stations) then pairs_of G station else [].
Proof.
  induction stations as [|s stations IH]; intros Hnd; [done|].
  apply NoDup_cons in Hnd as [Hs Hnd].
  rewrite bind_cons, filter_app, IH by done.
  destruct (decide (s = station)) as [->|Hne].
  - rewrite filter_all.
    + rewrite (decide_False (P := station ∈ stations)) by done.
      rewrite (decide_True (P := station ∈ station :: stations)) by left.
      apply app_nil_r.
    + apply Forall_forall. intros p. apply pairs_of_stay.
  - rewrite filter_none.
    + simpl. destruct (decide (station ∈ stations)) as [Hin|Hout].
      * rewrite decide_True; [done | by right].
      * rewrite decide_False; [done|]. rewrite elem_of_cons. intros [?|?]; by simplify_eq.
    + apply Forall_forall. intros p Hp%pairs_of_stay [Hq _].
      destruct Hp as [Hp _]. congruence.
Qed.

Lemma filter_stays_all_pairs G station :
  filter (stays_at station) (all_stationary_pairs G) = pairs_of G station.
Proof.
  unfold all_stationary_pairs.
  change (λ station0, stationary_pairs (list_sort (stops_at station0 G)))
    with (pairs_of G).
  rewrite filter_stays_bind.
  - case_decide; [done|]. symmetry. by apply pairs_of_no_stop.
  - rewrite keys_find_all_stops_per_station. apply NoDup_keys_group.
Qed.

(** Stops of one station, sorted and pairwise distinct, are strictly
    increasing in time. *)
Lemma sorted_by_time stops station :
  StronglySorted stop_le stops → NoDup stops →
  Forall (λ n, n.1 = station) stops →
  StronglySorted (λ a b, a.2 < b.2) stops.
Proof.
  induction 1 as [|x l Hsorted IH Hall]; intros Hnd Hst; constructor.
  - apply IH; [by apply NoDup_cons in Hnd as [_ ?] | by apply Forall_cons in Hst as [_ ?]].
  - apply NoDup_cons in Hnd as [Hx _]. apply Forall_cons in Hst as [Hxs Hls].
    apply Forall_forall. intros y Hy.
    pose proof (proj1 (Forall_forall _ _) Hall y Hy) as Hle.
    pose proof (proj1 (Forall_forall _ _) Hls y Hy) as Hys.
    assert (x ≠ y) by (by intros ->).
    destruct x as [s1 t1], y as [s2 t2]. unfold stop_le in Hle. simpl in *.
    assert (t1 ≠ t2) by congruence. lia.
Qed.
End timetable_graph.

Section schedule_graph.
Implicit Types (G : nx.DiGraph) (df : list Row) (row : Row) (station : Z).

Lemma travel_edge_travels df :
  Forall (λ row, start row ≠ end_ row) df →
  Forall (λ e, travels e.1) (travel_edge <$> df).
Proof.
  intros Hmove. apply Forall_fmap. eapply Forall_impl; [exact Hmove|].
  intros row Hrow. exact Hrow.
Qed.

Lemma travel_edge_not_stay df station :
  Forall (λ row, start row ≠ end_ row) df →
  Forall (λ e, ¬ stays_at station e.1) (travel_edge <$> df).
Proof.
  intros Hmove. apply Forall_fmap. eapply Forall_impl; [exact Hmove|].
  intros row Hrow [Hs He]. simpl in *. congruence.
Qed.

Lemma stationary_pair_not_travel G :
  Forall (λ p, ¬ travels p) (all_stationary_pairs G).
Proof.
  apply Forall_forall. intros [u v] Hp Htr.
  apply elem_of_all_stationary_pairs in Hp as (_ & _ & Heq). by apply Htr.
Qed.

(** C3, amended: when no two rows share both keys and every row joins two
    different stations, the graph has one node per distinct key, one travel
    edge per row with the row's attributes, and for every station the
    zero-capacity edges between consecutive stops in time, one fewer than
    the station has stops. *)
Theorem graph_from_schedule_shape (df : list Row) :
  NoDup (leg <$> df) →
  Forall (λ row, start row ≠ end_ row) df →
  ∃ G, graph_from_schedule df = Ok G
    ∧ NoDup (nx.nodes G)
    ∧ (∀ n, n ∈ nx.nodes G ↔ n ∈ (start_key <$> df) ++ (end_key <$> df))
    ∧ length (nx.nodes G) =
        length (remove_dups ((start_key <$> df) ++ (end_key <$> df)))
    ∧ travel_edges G = travel_edge <$> df
    ∧ length (travel_edges G) = length df
    ∧ ∀ station, ∃ stops,
        stops ≡ₚ stops_at station G
        ∧ StronglySorted (λ a b, a.2 < b.2) stops
        ∧ stationary_edges station G =
            (λ p, (p, zero_attr)) <$> stationary_pairs stops
        ∧ length (stationary_edges station G) =
            (length (stops_at station G) - 1)%nat.
Proof.
  intros Hlegs Hmove.
  exists (foldl add_pair (row_graph df) (all_stationary_pairs (row_graph df))).
  assert (Hnodes : nx.nodes (foldl add_pair (row_graph df)
                               (all_stationary_pairs (row_graph df)))
                   = nx.nodes (row_graph df)).
  { apply nodes_foldl_add_pair. intros [u v] Hp. simpl.
    apply elem_of_all_stationary_pairs in Hp. tauto. }
  pose proof (edges_foldl_add_pair (row_graph df)
                (all_stationary_pairs (row_graph df))) as Hedges.
  rewrite (edges_row_graph df Hlegs) in Hedges.
  assert (Htravel : travel_edges (foldl add_pair (row_graph df)
                                    (all_stationary_pairs (row_graph df)))
                    = travel_edge <$> df).
  { unfold travel_edges. rewrite Hedges.
    pose proof (filter_none travels _ (stationary_pair_not_travel (row_graph df)))
      as Hnone.
    rewrite (filter_foldl_set_item travels).
    - rewrite Hnone. simpl. rewrite app_nil_r.
      apply filter_all, travel_edge_travels, Hmove.
    - rewrite Hnone. constructor.
    - intros k Hk Htr. exfalso.
      by apply (proj1 (Forall_forall _ _) (stationary_pair_not_travel _) k Hk). }
  split. { apply connect_stationary_nodes_spec. }
  split. { rewrite Hnodes. apply NoDup_nodes_row_graph. }
  split. { intros n. rewrite Hnodes. apply elem_of_nodes_row_graph. }
  split.
  { rewrite Hnodes. apply length_distinct; [apply NoDup_nodes_row_graph|].
    apply elem_of_nodes_row_graph. }
  split; [exact Htravel|].
  split. { by rewrite Htravel, length_fmap. }
  intros station.
  assert (Hstops : stops_at station (foldl add_pair (row_graph df)
                                       (all_stationary_pairs (row_graph df)))
                   = stops_at station (row_graph df)).
  { unfold stops_at. by rewrite Hnodes. }
  assert (Hdistinct : NoDup (list_sort (stops_at station (row_graph df)))).
  { rewrite list_sort_perm. apply NoDup_filter, NoDup_nodes_row_graph. }
  exists (list_sort (stops_at station (row_graph df))).
  split. { rewrite Hstops. apply list_sort_perm. }
  split.
  { apply (sorted_by_time _ station); [apply list_sort_sorted | done |].
    apply Forall_forall. intros n Hn. by apply stop_in_list_sort in Hn as [_ ?]. }
  assert (Hstat : stationary_edges station
                    (foldl add_pair (row_graph df)
                       (all_stationary_pairs (row_graph df)))
                  = (λ p, (p, zero_attr))
                      <$> stationary_pairs (list_sort (stops_at station (row_graph df)))).
  { unfold stationary_edges. rewrite Hedges.
    rewrite (filter_foldl_set_item (stays_at station)).
    - rewrite filter_stays_all_pairs.
      rewrite filter_none by (by apply travel_edge_not_stay). done.
    - rewrite filter_stays_all_pairs. by apply NoDup_stationary_pairs.
    - intros k Hk [Hs He]. rewrite keys_travel_edges.
      intros (row & -> & Hrow)%list_elem_of_fmap.
      apply (proj1 (Forall_forall _ _) Hmove row Hrow). simpl in *. congruence. }
  split; [exact Hstat|].
  rewrite Hstat, length_fmap, length_stationary_pairs, Hstops.
  by rewrite list_sort_perm.
Qed.

Lemma graph_from_schedule_shape_witness :
  NoDup (leg <$> two_leg_schedule)
  ∧ Forall (λ row, start row ≠ end_ row) two_leg_schedule
  ∧ ∃ G, graph_from_schedule two_leg_schedule = Ok G
      ∧ NoDup (nx.nodes G)
      ∧ (∀ n, n ∈ nx.nodes G ↔
              n ∈ (start_key <$> two_leg_schedule) ++ (end_key <$> two_leg_schedule))
      ∧ length (nx.nodes G) =
          length (remove_dups ((start_key <$> two_leg_schedule)
                               ++ (end_key <$> two_leg_schedule)))
      ∧ travel_edges G = travel_edge <$> two_leg_schedule
      ∧ length (travel_edges G) = length two_leg_schedule
      ∧ ∀ station, ∃ stops,
          stops ≡ₚ stops_at station G
          ∧ StronglySorted (λ a b, a.2 < b.2) stops
          ∧ stationary_edges station G =
              (λ p, (p, zero_attr)) <$> stationary_pairs stops
          ∧ length (stationary_edges station G) =
              (length (stops_at station G) - 1)%nat.
Proof.
  assert (Hlegs : NoDup (leg <$> two_leg_schedule)).
  { apply (bool_decide_unpack _). vm_compute. exact I. }
  assert (Hmove : Forall (λ row, start row ≠ end_ row) two_leg_schedule).
  { repeat constructor; simpl; lia. }
  split; [exact Hlegs|]. split; [exact Hmove|].
  exact (graph_from_schedule_shape two_leg_schedule Hlegs Hmove).
Defined.

(** The two-leg schedule gives 4 nodes, 2 travel edges and the stationary
    edge from (2, 570) to (2, 585). *)
Example graph_from_schedule_two_legs :
  ∃ G, graph_from_schedule two_leg_schedule = Ok G
    ∧ nx.nodes G = [(1, 540); (2, 570); (2, 585); (3, 615)]
    ∧ length (travel_edges G) = 2%nat
    ∧ stationary_edges 2 G = [(((2, 570), (2, 585)), zero_attr)]
    ∧ stationary_edges 1 G = [] ∧ stationary_edges 3 G = [].
Proof. eexists. split; [by vm_compute|]. by vm_compute. Qed.

(** C3 as stated fails on two inputs.  Two rows with the same start and end
    key share one edge, so there are fewer travel edges than rows; and the
    edge of a row that stays at one station is overwritten by the stationary
    edge between its two stops, so it does not carry the row's attributes. *)
Lemma graph_from_schedule_counterexample :
  (¬ ∃ G, graph_from_schedule duplicate_leg_schedule = Ok G
        ∧ length (travel_edges G) = length duplicate_leg_schedule)
  ∧ (¬ ∃ G, graph_from_schedule same_station_schedule = Ok G
          ∧ Forall (λ row, travel_edge row ∈ nx.edges G) same_station_schedule).
Proof.
  split.
  - intros (G & Hrun & Hlen). vm_compute in Hrun.
    injection Hrun as <-. vm_compute in Hlen. discriminate.
  - intros (G & Hrun & Hall). vm_compute in Hrun. injection Hrun as <-.
    apply Forall_cons in Hall as [Hin _].
    apply list_elem_of_singleton in Hin. discriminate.
Qed.

End schedule_graph.

(** * Further properties *)

(** ** Time conversion: range, order and the values outside the domain *)

Section clock_values.

(** X1: a clock value of one day becomes a minute of the day, between 0
    and 1439. *)
Theorem to_minutes_past_midnight_range (t : Z) :
  clock_time t →
  ∃ m, to_minutes_past_midnight (PyInt t) = Ok m ∧ 0 ≤ m ≤ 1439.
Proof.
  intros [Ht Hmin]. eexists. split; [apply to_minutes_past_midnight_int|].
  pose proof (Z.mod_pos_bound t 100 ltac:(lia)) as Hb.
  pose proof (Z.div_mod t 100 ltac:(lia)) as Hdm.
  assert (0 ≤ t / 100 ≤ 23) by nia. lia.
Qed.

Lemma to_minutes_past_midnight_range_witness :
  clock_time 2359 ∧
  ∃ m, to_minutes_past_midnight (PyInt 2359) = Ok m ∧ 0 ≤ m ≤ 1439.
Proof.
  assert (Hc : clock_time 2359).
  { split; [lia | vm_compute; discriminate]. }
  split; [exact Hc|]. exact (to_minutes_past_midnight_range 2359 Hc).
Defined.

(** X2: the conversion to minutes keeps the order of two values when the
    minute part of the smaller one is at most 59. *)
Theorem to_minutes_past_midnight_increasing (t1 t2 m1 m2 : Z) :
  t1 mod 100 ≤ 59 → t1 < t2 →
  to_minutes_past_midnight (PyInt t1) = Ok m1 →
  to_minutes_past_midnight (PyInt t2) = Ok m2 →
  m1 < m2.
Proof.
  intros Hmin Hlt. rewrite !to_minutes_past_midnight_int.
  intros [= <-] [= <-].
  pose proof (Z.mod_pos_bound t1 100 ltac:(lia)).
  pose proof (Z.mod_pos_bound t2 100 ltac:(lia)).
  pose proof (Z.div_mod t1 100 ltac:(lia)).
  pose proof (Z.div_mod t2 100 ltac:(lia)).
  assert (t1 / 100 ≤ t2 / 100) by (apply Z.div_le_mono; lia).
  destruct (decide (t1 / 100 = t2 / 100)); nia.
Qed.

Lemma to_minutes_past_midnight_increasing_witness :
  959 mod 100 ≤ 59 ∧ 959 < 1000
  ∧ to_minutes_past_midnight (PyInt 959) = Ok 599
  ∧ to_minutes_past_midnight (PyInt 1000) = Ok 600
  ∧ 599 < 600.
Proof.
  split; [vm_compute; discriminate|]. split; [lia|].
  split; [reflexivity|]. split; [reflexivity|].
  apply (to_minutes_past_midnight_increasing 959 1000 599 600);
    [vm_compute; discriminate | lia | reflexivity | reflexivity].
Defined.

(** X3: the conversion back to clock notation is strictly increasing on all
    integers, and the minute part of its result is below 60. *)
Theorem to_regular_time_increasing (m1 m2 t1 t2 : Z) :
  m1 < m2 →
  to_regular_time (PyInt m1) = Ok t1 →
  to_regular_time (PyInt m2) = Ok t2 →
  t1 < t2 ∧ 0 ≤ t1 mod 100 ≤ 59 ∧ 0 ≤ t2 mod 100 ≤ 59.
Proof.
  intros Hlt. rewrite !to_regular_time_int. intros [= <-] [= <-].
  pose proof (Z.mod_pos_bound m1 60 ltac:(lia)).
  pose proof (Z.mod_pos_bound m2 60 ltac:(lia)).
  pose proof (Z.div_mod m1 60 ltac:(lia)).
  pose proof (Z.div_mod m2 60 ltac:(lia)).
  replace (m1 / 60 * 100 + m1 mod 60) with (100 * (m1 / 60) + m1 mod 60) by lia.
  replace (m2 / 60 * 100 + m2 mod 60) with (100 * (m2 / 60) + m2 mod 60) by lia.
  destruct (split_hours 100 (m1 / 60) (m1 mod 60) ltac:(lia)) as [_ ->].
  destruct (split_hours 100 (m2 / 60) (m2 mod 60) ltac:(lia)) as [_ ->].
  split; [|lia].
  assert (m1 / 60 ≤ m2 / 60) by (apply Z.div_le_mono; lia).
  destruct (decide (m1 / 60 = m2 / 60)); nia.
Qed.

Lemma to_regular_time_increasing_witness :
  -1 < 60 ∧ to_regular_time (PyInt (-1)) = Ok (-41)
  ∧ to_regular_time (PyInt 60) = Ok 100
  ∧ -41 < 100 ∧ 0 ≤ -41 mod 100 ≤ 59 ∧ 0 ≤ 100 mod 100 ≤ 59.
Proof.
  split; [lia|]. split; [reflexivity|]. split; [reflexivity|].
  apply (to_regular_time_increasing (-1) 60 (-41) 100); [lia | reflexivity | reflexivity].
Defined.

(** X4: a value whose minute part is 60 or more does not survive the round
    trip: it comes back 40 larger (10:75 comes back as 11:15). *)
Theorem regular_time_round_trip_carry (t : Z) :
  60 ≤ t mod 100 →
  (m ← to_minutes_past_midnight (PyInt t); to_regular_time (PyInt m)) = Ok (t + 40).
Proof.
  intros Hmin.
  rewrite to_minutes_past_midnight_int. cbn [mbind result_bind].
  rewrite to_regular_time_int. f_equal.
  pose proof (Z.mod_pos_bound t 100 ltac:(lia)) as Hb.
  pose proof (Z.div_mod t 100 ltac:(lia)) as Hdm.
  replace (60 * (t / 100) + t mod 100)
    with (60 * (t / 100 + 1) + (t mod 100 - 60)) by lia.
  destruct (split_hours 60 (t / 100 + 1) (t mod 100 - 60) ltac:(lia)) as [-> ->].
  lia.
Qed.

Lemma regular_time_round_trip_carry_witness :
  60 ≤ 1075 mod 100 ∧
  (m ← to_minutes_past_midnight (PyInt 1075); to_regular_time (PyInt m)) = Ok 1115.
Proof.
  split; [vm_compute; discriminate|].
  apply (regular_time_round_trip_carry 1075). vm_compute. discriminate.
Defined.

End clock_values.

(** ** Capacity: how the unit count moves with demand and capacity *)

Section capacity_order.
Implicit Types (row : Row).

Lemma ceil_div_mono (a b d : Z) : 0 < d → a ≤ b → - (- a / d) ≤ - (- b / d).
Proof.
  intros Hd Hab. assert (- b / d ≤ - a / d) by (apply Z.div_le_mono; lia). lia.
Qed.

Lemma ceil_div_nonneg (a d : Z) : 0 < d → 0 ≤ a → 0 ≤ - (- a / d).
Proof.
  intros Hd Ha. assert (- a / d ≤ 0) by (apply Z.div_le_upper_bound; lia). lia.
Qed.

Lemma ceil_div_add (a b d : Z) :
  0 < d → - (- (a + b) / d) ≤ - (- a / d) + - (- b / d).
Proof.
  intros Hd.
  destruct (ceil_div_spec a d Hd) as [Ha _].
  destruct (ceil_div_spec b d Hd) as [Hb _].
  destruct (ceil_div_spec (a + b) d Hd) as [_ Hlow].
  apply Hlow. lia.
Qed.

(** The exact quotient grows with the numerator, and for a non-negative
    numerator it shrinks as the denominator grows. *)
Lemma quotient_mono (a a' d : Z) :
  0 < d → a ≤ a' → (inject_Z a / inject_Z d <= inject_Z a' / inject_Z d)%Q.
Proof.
  intros Hd Ha. apply Qmult_le_compat_r; [by apply inject_Z_le|].
  apply Qinv_le_0_compat. apply (inject_Z_le 0). lia.
Qed.

Lemma quotient_anti_arith (X Y D D' A : Q) :
  (0 <= A → 0 < D → D <= D' → X * D == A → Y * D' == A → Y <= X)%Q.
Proof.
  intros HA HD HDD HX HY. apply Qnot_lt_le. intros Hlt.
  assert (H0 : (0 <= X)%Q) by (apply Qnot_lt_le; intros H; nra).
  nra.
Qed.

Lemma quotient_anti (a d d' : Z) :
  0 ≤ a → 0 < d ≤ d' →
  (inject_Z a / inject_Z d' <= inject_Z a / inject_Z d)%Q.
Proof.
  intros Ha Hd.
  apply (quotient_anti_arith _ _ (inject_Z d) (inject_Z d') (inject_Z a)).
  - apply (inject_Z_le 0). lia.
  - apply (inject_Z_lt 0). lia.
  - apply inject_Z_le. lia.
  - apply quotient_mul. lia.
  - apply quotient_mul. lia.
Qed.

(** The ceiling of the rounded value is monotone in the exact value. *)
Lemma ceiling_round_mono (x y : Q) :
  (x <= y)%Q → Qceiling (binary64.round x) ≤ Qceiling (binary64.round y).
Proof. intros Hxy. by apply Qceiling_resp_le, round_mono. Qed.

(** X5: with positive capacities, a row that asks for no fewer seats in
    either class needs no fewer units. *)
Theorem minimum_number_of_trains_mono_demand row row' (firstCap secondCap n n' : Z) :
  0 < firstCap → 0 < secondCap →
  first_class row ≤ first_class row' →
  second_class row ≤ second_class row' →
  minimum_number_of_trains row (firstCap, secondCap) = Ok n →
  minimum_number_of_trains row' (firstCap, secondCap) = Ok n' →
  n ≤ n'.
Proof.
  intros H1 H2 Hf Hs.
  intros ->%minimum_number_of_trains_Ok ->%minimum_number_of_trains_Ok.
  pose proof (ceiling_round_mono _ _ (quotient_mono _ _ firstCap H1 Hf)).
  pose proof (ceiling_round_mono _ _ (quotient_mono _ _ secondCap H2 Hs)).
  lia.
Qed.

(** X6: with non-negative demand, a unit design with no fewer seats in
    either class needs no more units. *)
Theorem minimum_number_of_trains_anti_capacity row
    (firstCap secondCap firstCap' secondCap' n n' : Z) :
  0 ≤ first_class row → 0 ≤ second_class row →
  0 < firstCap ≤ firstCap' → 0 < secondCap ≤ secondCap' →
  minimum_number_of_trains row (firstCap, secondCap) = Ok n →
  minimum_number_of_trains row (firstCap', secondCap') = Ok n' →
  n' ≤ n.
Proof.
  intros Hf Hs H1 H2.
  intros ->%minimum_number_of_trains_Ok ->%minimum_number_of_trains_Ok.
  pose proof (ceiling_round_mono _ _ (quotient_anti _ firstCap firstCap' Hf H1)).
  pose proof (ceiling_round_mono _ _ (quotient_anti _ secondCap secondCap' Hs H2)).
  lia.
Qed.

(** X7: with non-negative demands and positive capacities, all below 2^53,
    the unit count is never negative, and it is 0 only when both demands
    are 0. *)
Theorem minimum_number_of_trains_zero_iff row (firstCap secondCap n : Z) :
  0 ≤ first_class row < 2 ^ 53 → 0 ≤ second_class row < 2 ^ 53 →
  0 < firstCap < 2 ^ 53 → 0 < secondCap < 2 ^ 53 →
  minimum_number_of_trains row (firstCap, secondCap) = Ok n →
  0 ≤ n ∧ (n = 0 ↔ first_class row = 0 ∧ second_class row = 0).
Proof.
  intros Hf Hs H1 H2.
  rewrite minimum_number_of_trains_exact by done. intros [= <-].
  destruct (ceil_div_spec (first_class row) firstCap ltac:(lia)) as [Hup1 Hlow1].
  destruct (ceil_div_spec (second_class row) secondCap ltac:(lia)) as [Hup2 Hlow2].
  pose proof (ceil_div_nonneg (first_class row) firstCap ltac:(lia) ltac:(lia)).
  pose proof (ceil_div_nonneg (second_class row) secondCap ltac:(lia) ltac:(lia)).
  split; [lia|]. split.
  - intros Hzero. split; nia.
  - intros [-> ->]. rewrite !Z.div_0_l by lia. lia.
Qed.

(** X8: with non-negative demands and positive capacities, all below 2^53,
    carrying the demand of two rows together never takes more units than
    carrying them apart. *)
Theorem minimum_number_of_trains_subadditive row1 row2 row
    (firstCap secondCap n1 n2 n : Z) :
  0 < firstCap < 2 ^ 53 → 0 < secondCap < 2 ^ 53 →
  0 ≤ first_class row1 → 0 ≤ second_class row1 →
  0 ≤ first_class row2 → 0 ≤ second_class row2 →
  first_class row = first_class row1 + first_class row2 →
  second_class row = second_class row1 + second_class row2 →
  first_class row < 2 ^ 53 → second_class row < 2 ^ 53 →
  minimum_number_of_trains row1 (firstCap, secondCap) = Ok n1 →
  minimum_number_of_trains row2 (firstCap, secondCap) = Ok n2 →
  minimum_number_of_trains row (firstCap, secondCap) = Ok n →
  n ≤ n1 + n2.
Proof.
  intros H1 H2 Hf1 Hs1 Hf2 Hs2 Hf Hs Hfb Hsb.
  rewrite !minimum_number_of_trains_exact by lia.
  intros [= <-] [= <-] [= <-]. rewrite Hf, Hs.
  pose proof (ceil_div_add (first_class row1) (first_class row2) firstCap ltac:(lia)).
  pose proof (ceil_div_add (second_class row1) (second_class row2) secondCap
                ltac:(lia)).
  lia.
Qed.

End capacity_order.

(** ** The occupancy table: order, concatenation, rows that cover nothing *)

Section occupancy_algebra.
Implicit Types (schedule : list Row) (row : Row) (df : list float64).

Lemma Ok_inj {A} (a b : A) : Ok a = Ok b → a = b.
Proof. by intros [= ->]. Qed.

Lemma sumZ_app (l k : list Z) : sumZ (l ++ k) = sumZ l + sumZ k.
Proof. induction l as [|x l IH]; simpl; [done|]. rewrite IH. lia. Qed.

Lemma sumZ_Permutation (l k : list Z) : l ≡ₚ k → sumZ l = sumZ k.
Proof. induction 1; simpl; lia. Qed.

Lemma rows_at_app (m : Z) schedule schedule' :
  rows_at m (schedule ++ schedule') = rows_at m schedule ++ rows_at m schedule'.
Proof. apply filter_app. Qed.

Lemma load_app train_type schedule schedule' (m : nat) :
  load train_type (schedule ++ schedule') m =
    load train_type schedule m + load train_type schedule' m.
Proof. unfold load. by rewrite rows_at_app, fmap_app, sumZ_app. Qed.

Lemma load_Permutation train_type schedule schedule' (m : nat) :
  schedule ≡ₚ schedule' → load train_type schedule m = load train_type schedule' m.
Proof.
  intros Hperm. unfold load. apply sumZ_Permutation.
  unfold rows_at. by rewrite Hperm.
Qed.

Lemma sumZ_filter_bounds (P : Row → Prop) `{∀ r, Decision (P r)}
    (f : Row → Z) schedule :
  Forall (λ row, 0 ≤ f row) schedule →
  0 ≤ sumZ (f <$> filter P schedule) ≤ sumZ (f <$> schedule).
Proof.
  induction 1 as [|row schedule Hrow _ IH]; [simpl; lia|].
  rewrite filter_cons. case_decide; csimpl; lia.
Qed.

Lemma sumZ_nonneg (f : Row → Z) schedule :
  Forall (λ row, 0 ≤ f row) schedule → 0 ≤ sumZ (f <$> schedule).
Proof. induction 1; csimpl; lia. Qed.

Lemma unit_count_nonneg (firstCap secondCap : Z) schedule :
  0 < firstCap < 2 ^ 53 → 0 < secondCap < 2 ^ 53 →
  Forall exact_demand schedule →
  Forall (λ row, 0 ≤ unit_count (firstCap, secondCap) row) schedule.
Proof.
  intros H1 H2 Hdemand. eapply Forall_impl; [exact Hdemand|].
  intros row Hrow.
  by destruct (unit_count_exact firstCap secondCap row H1 H2 Hrow) as [_ [? _]].
Qed.

(** No minute carries more than all rows together. *)
Lemma load_bounds (firstCap secondCap : Z) schedule (m : nat) :
  0 < firstCap < 2 ^ 53 → 0 < secondCap < 2 ^ 53 →
  Forall exact_demand schedule →
  0 ≤ load (firstCap, secondCap) schedule m
    ≤ sumZ (unit_count (firstCap, secondCap) <$> schedule).
Proof.
  intros H1 H2 Hdemand. unfold load, rows_at.
  apply sumZ_filter_bounds. by apply unit_count_nonneg.
Qed.

(** The whole table, when all rows together need at most [2^53] units. *)
Lemma occupancy_cells (firstCap secondCap : Z) schedule :
  0 < firstCap < 2 ^ 53 → 0 < secondCap < 2 ^ 53 →
  Forall exact_demand schedule →
  sumZ (unit_count (firstCap, secondCap) <$> schedule) ≤ 2 ^ 53 →
  minimum_number_of_trains_at_time_t schedule (firstCap, secondCap) =
    Ok (cell ∘ load (firstCap, secondCap) schedule <$> seq 0 1441).
Proof.
  intros H1 H2 Hdemand Htotal.
  destruct (occupancy_lookup firstCap secondCap schedule H1 H2 Hdemand)
    as (df & -> & Hlen & Hget).
  f_equal. apply list_eq. intros i. rewrite list_lookup_fmap.
  destruct (decide (i < 1441)%nat) as [Hi|Hi].
  - rewrite lookup_seq_lt by done. simpl. apply Hget; [lia|].
    pose proof (load_bounds firstCap secondCap schedule i H1 H2 Hdemand). lia.
  - rewrite lookup_seq_ge by lia. simpl. apply lookup_ge_None_2. lia.
Qed.

(** X9: for non-negative demands and positive capacities, all below 2^53,
    and rows that together need at most 2^53 units, the table does not
    depend on the order of the rows. *)
Theorem occupancy_table_permutation schedule schedule' (firstCap secondCap : Z) :
  0 < firstCap < 2 ^ 53 → 0 < secondCap < 2 ^ 53 →
  Forall (λ row, 0 ≤ first_class row < 2 ^ 53
                 ∧ 0 ≤ second_class row < 2 ^ 53) schedule →
  sumZ (unit_count (firstCap, secondCap) <$> schedule) ≤ 2 ^ 53 →
  schedule ≡ₚ schedule' →
  minimum_number_of_trains_at_time_t schedule (firstCap, secondCap) =
    minimum_number_of_trains_at_time_t schedule' (firstCap, secondCap).
Proof.
  intros H1 H2 Hdemand Htotal Hperm.
  assert (Hdemand' : Forall exact_demand schedule').
  { apply Forall_forall. intros row Hrow. rewrite <- Hperm in Hrow.
    by apply (proj1 (Forall_forall _ _) Hdemand). }
  assert (Htotal' : sumZ (unit_count (firstCap, secondCap) <$> schedule') ≤ 2 ^ 53).
  { rewrite <- (sumZ_Permutation (unit_count (firstCap, secondCap) <$> schedule));
      [done | by apply fmap_Permutation]. }
  rewrite !occupancy_cells by done. f_equal.
  apply list_fmap_ext. intros i m _. simpl. f_equal. by apply load_Permutation.
Qed.

(** X10: under the same bounds on the two schedules together, the table of
    two schedules put together is the entry-wise float sum of their
    tables. *)
Theorem occupancy_table_app schedule schedule' (firstCap secondCap : Z) :
  0 < firstCap < 2 ^ 53 → 0 < secondCap < 2 ^ 53 →
  Forall (λ row, 0 ≤ first_class row < 2 ^ 53
                 ∧ 0 ≤ second_class row < 2 ^ 53) (schedule ++ schedule') →
  sumZ (unit_count (firstCap, secondCap) <$> schedule ++ schedule') ≤ 2 ^ 53 →
  ∃ df df',
    minimum_number_of_trains_at_time_t schedule (firstCap, secondCap) = Ok df
    ∧ minimum_number_of_trains_at_time_t schedule' (firstCap, secondCap) = Ok df'
    ∧ minimum_number_of_trains_at_time_t (schedule ++ schedule')
        (firstCap, secondCap) = Ok (zip_with np.add df df').
Proof.
  intros H1 H2 Hdemand Htotal.
  pose proof Hdemand as [Hd Hd']%Forall_app.
  rewrite fmap_app, sumZ_app in Htotal.
  pose proof (unit_count_nonneg firstCap secondCap schedule H1 H2 Hd) as Hc.
  pose proof (unit_count_nonneg firstCap secondCap schedule' H1 H2 Hd') as Hc'.
  pose proof (sumZ_nonneg _ _ Hc) as Hs. pose proof (sumZ_nonneg _ _ Hc') as Hs'.
  eexists _, _. split; [apply occupancy_cells; [done..|lia]|].
  split; [apply occupancy_cells; [done..|lia]|].
  rewrite occupancy_cells; [|done|done|done|by rewrite fmap_app, sumZ_app].
  f_equal. apply list_eq. intros i.
  rewrite lookup_zip_with, !list_lookup_fmap.
  destruct (seq 0 1441 !! i) as [m|]; [|done]. simpl. f_equal.
  rewrite load_app. symmetry. apply np_add_exact.
  pose proof (load_bounds firstCap secondCap schedule m H1 H2 Hd).
  pose proof (load_bounds firstCap secondCap schedule' m H1 H2 Hd'). lia.
Qed.

Lemma length_at_time_t_loop train_type schedule df df' :
  at_time_t_loop schedule train_type df = Ok df' → length df' = length df.
Proof.
  revert df. induction schedule as [|row schedule IH]; intros df.
  - by intros [= <-].
  - cbn [at_time_t_loop].
    destruct (minimum_number_of_trains row train_type) as [n|]; [|discriminate].
    cbn [mbind result_bind].
    destruct (loc_add _ _ n df) as [df1|] eqn:Hadd; [|discriminate].
    cbn [mbind result_bind]. intros Hrun%IH.
    by rewrite Hrun, (length_loc_add _ _ _ _ _ Hadd).
Qed.

Lemma at_time_t_loop_app train_type schedule schedule' df :
  at_time_t_loop (schedule ++ schedule') train_type df =
    at_time_t_loop schedule train_type df ≫= at_time_t_loop schedule' train_type.
Proof.
  revert df. induction schedule as [|row schedule IH]; intros df; [done|].
  cbn [app at_time_t_loop].
  destruct (minimum_number_of_trains row train_type) as [n|]; [|done].
  cbn [mbind result_bind].
  destruct (loc_add _ _ n df) as [df1|]; [|done].
  cbn [mbind result_bind]. apply IH.
Qed.

(** X11: a row with demands below 2^53 that arrives before it departs, or
    whose range misses the minutes 0 to 1440, leaves the table as it is,
    whatever the other rows are. *)
Theorem occupancy_table_skips_row schedule schedule' row (firstCap secondCap : Z) :
  0 < firstCap < 2 ^ 53 → 0 < secondCap < 2 ^ 53 →
  0 ≤ first_class row < 2 ^ 53 → 0 ≤ second_class row < 2 ^ 53 →
  arrival_time row < departure_time row
    ∨ arrival_time row < 0 ∨ 1440 < departure_time row →
  minimum_number_of_trains_at_time_t (schedule ++ row :: schedule')
      (firstCap, secondCap) =
    minimum_number_of_trains_at_time_t (schedule ++ schedule') (firstCap, secondCap).
Proof.
  intros H1 H2 Hf Hs Hmiss. unfold minimum_number_of_trains_at_time_t.
  rewrite !at_time_t_loop_app.
  destruct (at_time_t_loop schedule (firstCap, secondCap) zeros_table)
    as [df|] eqn:Hrun; [|done].
  apply length_at_time_t_loop in Hrun. change (length zeros_table) with 1441%nat in Hrun.
  cbn [mbind result_bind at_time_t_loop].
  destruct (unit_count_exact firstCap secondCap row H1 H2 (conj Hf Hs)) as [-> Hc].
  cbn [mbind result_bind]. rewrite loc_add_exact by lia.
  cbn [mbind result_bind]. f_equal.
  apply list_eq. intros i. rewrite list_lookup_imap.
  destruct (df !! i) as [x|] eqn:Hx; [|done]. simpl.
  apply lookup_lt_Some in Hx. rewrite bool_decide_eq_false_2; [done|]. lia.
Qed.

(** X12: under the bounds of X9 every entry of the table holds an integer
    that is not negative and does not exceed the sum of the unit counts of
    all rows. *)
Theorem occupancy_table_bounds schedule (firstCap secondCap : Z) df
    (m : nat) (entry : float64) :
  0 < firstCap < 2 ^ 53 → 0 < secondCap < 2 ^ 53 →
  Forall (λ row, 0 ≤ first_class row < 2 ^ 53
                 ∧ 0 ≤ second_class row < 2 ^ 53) schedule →
  sumZ (unit_count (firstCap, secondCap) <$> schedule) ≤ 2 ^ 53 →
  minimum_number_of_trains_at_time_t schedule (firstCap, secondCap) = Ok df →
  df !! m = Some entry →
  ∃ z, entry = Finite (inject_Z z)
    ∧ 0 ≤ z ≤ sumZ (unit_count (firstCap, secondCap) <$> schedule).
Proof.
  intros H1 H2 Hdemand Htotal Hrun Hentry.
  rewrite occupancy_cells in Hrun by done. apply Ok_inj in Hrun as <-.
  rewrite list_lookup_fmap in Hentry.
  destruct (seq 0 1441 !! m) as [k|]; [|done]. injection Hentry as <-.
  exists (load (firstCap, secondCap) schedule k). split; [done|].
  by apply load_bounds.
Qed.

End occupancy_algebra.

(** ** Grouping: key order, partition, lookup *)

Section grouping_more.
Context {K A : Type} `{EqDecision K} (key : A → K).
Implicit Types (d : Dict.t K (list A)) (k : K) (x : A) (l : list A).

Lemma first_occurrences_snoc (ks : list K) k :
  first_occurrences (ks ++ [k]) =
    if decide (k ∈ first_occurrences ks) then first_occurrences ks
    else first_occurrences ks ++ [k].
Proof. unfold first_occurrences. by rewrite foldl_app. Qed.

Lemma keys_group_step d x :
  Dict.keys (group_step key d x) =
    if decide (key x ∈ Dict.keys d) then Dict.keys d else Dict.keys d ++ [key x].
Proof.
  unfold group_step, Dict.get_default.
  destruct (Dict.get (key x) d) as [sub|] eqn:Hget.
  - rewrite keys_set_item, Hget. rewrite decide_True; [done|].
    apply elem_of_keys. by rewrite Hget.
  - rewrite keys_set_item, get_set_item, decide_True by done.
    rewrite keys_set_item, Hget. rewrite decide_False; [done|].
    by apply get_None.
Qed.

Lemma keys_group l : Dict.keys (group key l) = first_occurrences (key <$> l).
Proof.
  induction l as [|x l IH] using rev_ind; [done|].
  rewrite group_snoc, keys_group_step, fmap_app.
  change (key <$> [x]) with [key x].
  by rewrite first_occurrences_snoc, IH.
Qed.

Lemma concat_values_set_item d k sub x :
  Dict.get k d = Some sub →
  concat (Dict.values (Dict.set_item k (sub ++ [x]) d)) ≡ₚ x :: concat (Dict.values d).
Proof.
  unfold Dict.values. induction d as [|[k' sub'] d IH]; csimpl; [done|].
  case_decide; csimpl; intros Hget.
  - simplify_eq. rewrite <- app_assoc. simpl.
    by rewrite <- Permutation_middle.
  - rewrite IH by done. by rewrite <- Permutation_middle.
Qed.

Lemma concat_values_group_step d x :
  concat (Dict.values (group_step key d x)) ≡ₚ x :: concat (Dict.values d).
Proof.
  unfold group_step, Dict.get_default.
  destruct (Dict.get (key x) d) as [sub|] eqn:Hget.
  - by apply concat_values_set_item.
  - rewrite (concat_values_set_item _ (key x) []).
    + rewrite set_item_fresh by done. unfold Dict.values.
      rewrite fmap_app, concat_app. simpl. by rewrite !app_nil_r.
    + by rewrite get_set_item, decide_True.
Qed.

Lemma concat_values_group l : concat (Dict.values (group key l)) ≡ₚ l.
Proof.
  induction l as [|x l IH] using rev_ind; [done|].
  rewrite group_snoc, concat_values_group_step, IH.
  apply Permutation_cons_append.
Qed.

Lemma values_group_nonempty l :
  Forall (λ sub, sub ≠ []) (Dict.values (group key l)).
Proof.
  apply Forall_forall. intros sub Hin.
  apply list_elem_of_fmap in Hin as ([k sub'] & -> & Hin).
  by apply elem_of_group in Hin as [? _].
Qed.

Lemma get_group_decide l k :
  Dict.get k (group key l) =
    if decide (k ∈ key <$> l) then Some (filter (λ x, key x = k) l) else None.
Proof.
  case_decide as Hk.
  - apply elem_of_keys_group, elem_of_keys in Hk as [sub Hsub].
    rewrite Hsub. f_equal.
    by apply get_Some_elem_of, elem_of_group in Hsub as [_ ->].
  - apply get_None. by rewrite elem_of_keys_group.
Qed.
End grouping_more.

Section trains_dict_more.
Implicit Types (schedule : list Row).

(** X13: the train numbers come in the order in which the trains first
    appear in the schedule. *)
Theorem create_trains_dict_key_order schedule :
  Dict.keys (create_trains_dict schedule) =
    first_occurrences (train_number <$> schedule).
Proof. rewrite create_trains_dict_group. apply keys_group. Qed.

(** X14: the sub-tables together hold exactly the rows of the schedule,
    each row as often as the schedule has it. *)
Theorem create_trains_dict_rows schedule :
  concat (Dict.values (create_trains_dict schedule)) ≡ₚ schedule.
Proof. rewrite create_trains_dict_group. apply concat_values_group. Qed.

(** X15: looking a train up gives its rows when the schedule has some and
    nothing otherwise; no sub-table is empty. *)
Theorem create_trains_dict_lookup schedule (k : Z) :
  Dict.get k (create_trains_dict schedule) =
    (if decide (k ∈ train_number <$> schedule)
     then Some (filter (λ row, train_number row = k) schedule) else None)
  ∧ Forall (λ sub, sub ≠ []) (Dict.values (create_trains_dict schedule)).
Proof.
  rewrite create_trains_dict_group.
  split; [apply get_group_decide | apply values_group_nonempty].
Qed.

End trains_dict_more.

(** ** The grouping of stops, and the stop that follows *)

Section stops_more.
Implicit Types (G : nx.DiGraph) (station : Z) (stops : list TrainStop)
  (u v n : TrainStop).

Lemma find_all_stops_per_station_nodes G G' :
  nx.nodes G = nx.nodes G' →
  find_all_stops_per_station G = find_all_stops_per_station G'.
Proof. intros Hn. unfold find_all_stops_per_station. by rewrite Hn. Qed.

Lemma concat_Permutation {A} (ls ks : list (list A)) :
  Forall2 (≡ₚ) ls ks → concat ls ≡ₚ concat ks.
Proof. induction 1 as [|l k ls ks Hlk _ IH]; simpl; [done|]. by rewrite Hlk, IH. Qed.

Lemma sorted_le_time stops station :
  StronglySorted stop_le stops →
  Forall (λ n, n.1 = station) stops →
  StronglySorted (λ a b, a.2 ≤ b.2) stops.
Proof.
  induction 1 as [|x l Hsorted IH Hall]; intros Hst; constructor.
  - apply IH. by apply Forall_cons in Hst as [_ ?].
  - apply Forall_cons in Hst as [Hxs Hls].
    apply Forall_forall. intros y Hy.
    pose proof (proj1 (Forall_forall _ _) Hall y Hy) as Hle.
    pose proof (proj1 (Forall_forall _ _) Hls y Hy) as Hys.
    destruct x as [s1 t1], y as [s2 t2]. unfold stop_le in Hle. simpl in *. lia.
Qed.

Lemma concat_values_stops G :
  concat (Dict.values (find_all_stops_per_station G)) ≡ₚ nx.nodes G.
Proof.
  etrans; [|apply (concat_values_group fst (nx.nodes G))].
  apply concat_Permutation.
  rewrite find_all_stops_per_station_group. unfold Dict.values.
  rewrite <- list_fmap_compose. apply Forall2_fmap, Forall_Forall2_diag.
  apply Forall_forall. intros [station raw] _. simpl. apply list_sort_perm.
Qed.

(** X16: the grouping splits the nodes by station: the stations come in the
    order in which they first appear among the nodes, every stop is listed
    under its own station, and the lists together hold exactly the nodes. *)
Theorem find_all_stops_per_station_partition (G : nx.DiGraph) :
  Dict.keys (find_all_stops_per_station G) = first_occurrences (fst <$> nx.nodes G)
  ∧ concat (Dict.values (find_all_stops_per_station G)) ≡ₚ nx.nodes G
  ∧ Forall (λ entry, Forall (λ n, n.1 = entry.1) entry.2)
           (find_all_stops_per_station G).
Proof.
  split; [|split].
  - rewrite keys_find_all_stops_per_station. apply keys_group.
  - apply concat_values_stops.
  - apply Forall_forall. intros [station stops] Hin. simpl.
    apply Forall_forall. intros n Hn.
    by apply (elem_of_stops G station stops n Hin) in Hn as [_ ?].
Qed.

(** X17: every list of the grouping is in chronological order. *)
Theorem find_all_stops_per_station_chronological (G : nx.DiGraph) :
  Forall (λ entry, StronglySorted (λ a b, a.2 ≤ b.2) entry.2)
         (find_all_stops_per_station G).
Proof.
  apply Forall_forall. intros [station stops] Hin. simpl.
  apply (sorted_le_time stops station).
  - apply elem_of_find_all_stops_per_station in Hin as [_ ->].
    apply list_sort_sorted.
  - apply Forall_forall. intros n Hn.
    by apply (elem_of_stops G station stops n Hin) in Hn as [_ ?].
Qed.

End stops_more.

Section next_stops.
Implicit Types (G : nx.DiGraph) (station : Z) (stops : list TrainStop)
  (u v n : TrainStop).

Lemma sorted_lookup {A} (R : relation A) (l : list A) (i j : nat) (x y : A) :
  StronglySorted R l → (i < j)%nat → l !! i = Some x → l !! j = Some y → R x y.
Proof.
  intros Hs. revert i j. induction Hs as [|z l Hs IH Hall]; intros i j Hij Hi Hj.
  - done.
  - destruct j as [|j]; [lia|]. destruct i as [|i]; simpl in *.
    + simplify_eq. apply (proj1 (Forall_forall _ _) Hall).
      by eapply list_elem_of_lookup_2.
    + apply (IH i j); [lia | done | done].
Qed.

Lemma elem_of_stationary_pairs_lookup stops u v :
  (u, v) ∈ stationary_pairs stops ↔
    ∃ i, stops !! i = Some u ∧ stops !! S i = Some v.
Proof.
  unfold stationary_pairs. rewrite list_elem_of_lookup. split.
  - intros [i Hi]. apply lookup_zip_Some in Hi as [Hu Hv].
    rewrite lookup_tail in Hv. by exists i.
  - intros (i & Hu & Hv). exists i. apply lookup_zip_Some.
    by rewrite lookup_tail.
Qed.

Lemma elem_of_all_stationary_pairs_iff G u v :
  (u, v) ∈ all_stationary_pairs G ↔ (u, v) ∈ pairs_of G u.1.
Proof.
  unfold all_stationary_pairs. rewrite list_elem_of_bind. split.
  - intros (station & Hin & _).
    change ((u, v) ∈ pairs_of G station) in Hin.
    pose proof (pairs_of_stay _ _ _ Hin) as [Hu _]. simpl in Hu. by subst.
  - intros Hin. exists u.1. split; [done|].
    destruct (decide (u.1 ∈ Dict.keys (find_all_stops_per_station G)))
      as [|Hout]; [done|].
    rewrite (pairs_of_no_stop _ _ Hout) in Hin. by apply elem_of_nil in Hin.
Qed.

Lemma stops_strictly_sorted G station :
  NoDup (nx.nodes G) →
  StronglySorted (λ a b, a.2 < b.2) (list_sort (stops_at station G)).
Proof.
  intros Hnd. apply (sorted_by_time _ station).
  - apply list_sort_sorted.
  - rewrite list_sort_perm. by apply NoDup_filter.
  - apply Forall_forall. intros n Hn. by apply stop_in_list_sort in Hn as [_ ?].
Qed.

(** The pairs [connect_stationary_nodes] joins are the pairs of a stop and
    the stop that follows it. *)
Lemma all_stationary_pairs_next_stop G u v :
  NoDup (nx.nodes G) →
  (u, v) ∈ all_stationary_pairs G ↔ next_stop G u v.
Proof.
  intros Hnd. rewrite elem_of_all_stationary_pairs_iff.
  unfold pairs_of. rewrite elem_of_stationary_pairs_lookup.
  pose proof (stops_strictly_sorted G u.1 Hnd) as Hsorted.
  set (stops := list_sort (stops_at u.1 G)) in *.
  assert (Hmem : ∀ n, n ∈ stops ↔ n ∈ nx.nodes G ∧ n.1 = u.1).
  { intros n. apply stop_in_list_sort. }
  split.
  - intros (i & Hu & Hv).
    pose proof (proj1 (Hmem u) (list_elem_of_lookup_2 _ _ _ Hu)) as [Hun _].
    pose proof (proj1 (Hmem v) (list_elem_of_lookup_2 _ _ _ Hv)) as [Hvn Hvs].
    pose proof (sorted_lookup _ _ i (S i) _ _ Hsorted ltac:(lia) Hu Hv) as Huv.
    repeat split; [done | done | done | done |].
    intros n Hn Hns [Hlo Hhi].
    assert (Hin : n ∈ stops) by by apply Hmem.
    apply list_elem_of_lookup in Hin as [j Hj].
    destruct (decide (j ≤ i)%nat) as [Hji|Hji].
    + destruct (decide (j = i)) as [->|Hne].
      { pose proof (eq_trans (eq_sym Hu) Hj) as [= <-]. lia. }
      pose proof (sorted_lookup _ _ j i _ _ Hsorted ltac:(lia) Hj Hu). simpl in *. lia.
    + destruct (decide (j = S i)) as [->|Hne].
      { pose proof (eq_trans (eq_sym Hv) Hj) as [= <-]. lia. }
      pose proof (sorted_lookup _ _ (S i) j _ _ Hsorted ltac:(lia) Hv Hj). simpl in *. lia.
  - intros (Hun & Hvn & Hst & Hlt & Hgap).
    assert (Hu : u ∈ stops) by by apply Hmem.
    assert (Hv : v ∈ stops) by by apply Hmem.
    apply list_elem_of_lookup in Hu as [i Hi].
    apply list_elem_of_lookup in Hv as [j Hj].
    exists i. split; [done|].
    assert (i < j)%nat as Hij.
    { destruct (decide (i < j)%nat) as [|Hge]; [done|]. exfalso.
      destruct (decide (j = i)) as [->|Hne].
      { pose proof (eq_trans (eq_sym Hi) Hj) as [= <-]. lia. }
      pose proof (sorted_lookup _ _ j i _ _ Hsorted ltac:(lia) Hj Hi). simpl in *. lia. }
    destruct (decide (j = S i)) as [->|Hne]; [done|]. exfalso.
    destruct (lookup_lt_is_Some_2 stops (S i)) as [n Hn].
    { apply lookup_lt_Some in Hj. lia. }
    pose proof (proj1 (Hmem n) (list_elem_of_lookup_2 _ _ _ Hn)) as [Hnn Hns].
    pose proof (sorted_lookup _ _ i (S i) _ _ Hsorted ltac:(lia) Hi Hn).
    pose proof (sorted_lookup _ _ (S i) j _ _ Hsorted ltac:(lia) Hn Hj).
    apply (Hgap n Hnn Hns). simpl in *. lia.
Qed.

Lemma get_foldl_set_item {K V} `{EqDecision K} (d : Dict.t K V) (ks : list K)
    (k : K) (a : V) :
  Dict.get k (foldl (λ E p, Dict.set_item p a E) d ks) =
    if decide (k ∈ ks) then Some a else Dict.get k d.
Proof.
  revert d. induction ks as [|k' ks IH]; intros d; cbn [foldl].
  - rewrite decide_False; [done|]. apply not_elem_of_nil.
  - rewrite IH, get_set_item.
    destruct (decide (k ∈ ks)) as [Hin|Hout].
    + rewrite decide_True; [done | by right].
    + destruct (decide (k = k')) as [->|Hne].
      * rewrite decide_True; [done | left].
      * rewrite decide_False; [done|]. rewrite elem_of_cons. tauto.
Qed.

Lemma connect_stationary_nodes_Ok G G' :
  connect_stationary_nodes G = Ok G' →
  G' = foldl add_pair G (all_stationary_pairs G).
Proof. rewrite connect_stationary_nodes_spec. by intros [= <-]. Qed.

Lemma get_edges_connect G G' u v :
  connect_stationary_nodes G = Ok G' →
  Dict.get (u, v) (nx.edges G') =
    if decide ((u, v) ∈ all_stationary_pairs G) then Some zero_attr
    else Dict.get (u, v) (nx.edges G).
Proof.
  intros ->%connect_stationary_nodes_Ok.
  rewrite edges_foldl_add_pair. apply get_foldl_set_item.
Qed.

(** X18: in a graph with distinct nodes, [connect_stationary_nodes] puts a
    zero-capacity edge from every stop to the stop that follows it in time
    at its station, replacing the attributes of an edge that was there. *)
Theorem connect_stationary_nodes_next_stop (G G' : nx.DiGraph) (u v : TrainStop) :
  NoDup (nx.nodes G) →
  connect_stationary_nodes G = Ok G' →
  next_stop G u v →
  Dict.get (u, v) (nx.edges G') = Some zero_attr.
Proof.
  intros Hnd Hrun Hnext. rewrite (get_edges_connect G G' u v Hrun).
  rewrite decide_True; [done|]. by apply all_stationary_pairs_next_stop.
Qed.

(** X19: every other pair of stops keeps what it had: the same edge with
    the same attributes, or no edge. *)
Theorem connect_stationary_nodes_other_edges (G G' : nx.DiGraph) (u v : TrainStop) :
  NoDup (nx.nodes G) →
  connect_stationary_nodes G = Ok G' →
  ¬ next_stop G u v →
  Dict.get (u, v) (nx.edges G') = Dict.get (u, v) (nx.edges G).
Proof.
  intros Hnd Hrun Hnext. rewrite (get_edges_connect G G' u v Hrun).
  rewrite decide_False; [done|]. by rewrite all_stationary_pairs_next_stop.
Qed.

End next_stops.

(** ** Calling [connect_stationary_nodes] again, and the helpers after it *)

Section connect_again.
Implicit Types (G : nx.DiGraph) (station : Z) (u v n : TrainStop).

Lemma all_stationary_pairs_nodes G G' :
  nx.nodes G = nx.nodes G' → all_stationary_pairs G = all_stationary_pairs G'.
Proof.
  intros Hn. unfold all_stationary_pairs, stops_at.
  by rewrite (find_all_stops_per_station_nodes G G' Hn), Hn.
Qed.

Lemma nodes_connect G G' :
  connect_stationary_nodes G = Ok G' → nx.nodes G' = nx.nodes G.
Proof.
  intros ->%connect_stationary_nodes_Ok.
  apply nodes_foldl_add_pair. intros [u v] Hp. simpl.
  apply elem_of_all_stationary_pairs in Hp. tauto.
Qed.

Lemma set_item_same {K V} `{EqDecision K} (d : Dict.t K V) (k : K) (a : V) :
  Dict.get k d = Some a → Dict.set_item k a d = d.
Proof.
  induction d as [|[k' a'] d IH]; simpl; [done|].
  case_decide; intros Hget; [by simplify_eq|]. by rewrite IH.
Qed.

Lemma add_pair_present G (p : TrainStop * TrainStop) :
  p.1 ∈ nx.nodes G → p.2 ∈ nx.nodes G →
  Dict.get p (nx.edges G) = Some zero_attr →
  add_pair G p = G.
Proof.
  destruct p as [u v]. simpl. intros Hu Hv Hget.
  unfold add_pair, nx.add_edge. simpl.
  rewrite (add_node_present G u Hu), (add_node_present G v Hv).
  rewrite set_item_same by done. by destruct G.
Qed.

Lemma foldl_add_pair_present G (ps : list (TrainStop * TrainStop)) :
  (∀ p, p ∈ ps → add_pair G p = G) → foldl add_pair G ps = G.
Proof.
  induction ps as [|p ps IH]; intros Hps; [done|].
  simpl. rewrite (Hps p) by left. apply IH. intros q Hq. apply Hps. by right.
Qed.

(** X20: a second call of [connect_stationary_nodes] changes nothing. *)
Theorem connect_stationary_nodes_idempotent (G G' : nx.DiGraph) :
  connect_stationary_nodes G = Ok G' →
  connect_stationary_nodes G' = Ok G'.
Proof.
  intros Hrun. pose proof (nodes_connect G G' Hrun) as Hnodes.
  rewrite connect_stationary_nodes_spec. f_equal.
  rewrite (all_stationary_pairs_nodes G' G Hnodes).
  apply foldl_add_pair_present. intros [u v] Hp.
  pose proof (elem_of_all_stationary_pairs G u v Hp) as (Hu & Hv & _).
  apply add_pair_present; simpl.
  - by rewrite Hnodes.
  - by rewrite Hnodes.
  - rewrite (get_edges_connect G G' u v Hrun). by rewrite decide_True.
Qed.

(** X21: the grouping of the stops and the first and last stop of every
    station are the same before and after [connect_stationary_nodes]. *)
Theorem connect_stationary_nodes_keeps_stops (G G' : nx.DiGraph) :
  connect_stationary_nodes G = Ok G' →
  find_all_stops_per_station G' = find_all_stops_per_station G
  ∧ find_staring_trainstops G' = find_staring_trainstops G
  ∧ find_ending_trainstops G' = find_ending_trainstops G.
Proof.
  intros Hrun. pose proof (nodes_connect G G' Hrun) as Hnodes.
  pose proof (find_all_stops_per_station_nodes G' G Hnodes) as Hgroups.
  unfold find_staring_trainstops, find_ending_trainstops.
  by rewrite Hgroups.
Qed.

End connect_again.

(** ** The graph of any schedule *)

Section any_schedule.
Implicit Types (G : nx.DiGraph) (df : list Row) (row : Row) (u v n : TrainStop).

Lemma keys_edges_row_graph df (k : TrainStop * TrainStop) :
  k ∈ Dict.keys (nx.edges (row_graph df)) ↔ k ∈ leg <$> df.
Proof.
  induction df as [|row df IH] using rev_ind.
  - simpl. by rewrite !elem_of_nil.
  - rewrite row_graph_snoc, edges_add_edge, elem_of_keys_set_item, IH.
    rewrite fmap_app, elem_of_app. simpl. by rewrite list_elem_of_singleton.
Qed.

Lemma next_stop_nodes G G' u v :
  nx.nodes G = nx.nodes G' → next_stop G u v ↔ next_stop G' u v.
Proof. intros Hn. unfold next_stop. by rewrite Hn. Qed.

Lemma graph_from_schedule_Ok df :
  graph_from_schedule df =
    Ok (foldl add_pair (row_graph df) (all_stationary_pairs (row_graph df))).
Proof. apply connect_stationary_nodes_spec. Qed.

(** X22: for every schedule, with repeated legs or not, the call returns a
    graph whose nodes are the distinct start and end keys; every row's leg
    is an edge; every stop has a zero-capacity edge to the stop that follows
    it at its station; and there is no other edge. *)
Theorem graph_from_schedule_edges (df : list Row) :
  ∃ G, graph_from_schedule df = Ok G
    ∧ NoDup (nx.nodes G)
    ∧ (∀ n, n ∈ nx.nodes G ↔ n ∈ (start_key <$> df) ++ (end_key <$> df))
    ∧ Forall (λ row, is_Some (Dict.get (leg row) (nx.edges G))) df
    ∧ (∀ u v, next_stop G u v → Dict.get (u, v) (nx.edges G) = Some zero_attr)
    ∧ (∀ u v, is_Some (Dict.get (u, v) (nx.edges G)) →
         (u, v) ∈ leg <$> df ∨ next_stop G u v).
Proof.
  eexists. split; [apply graph_from_schedule_Ok|].
  pose proof (graph_from_schedule_Ok df) as Hrun.
  unfold graph_from_schedule in Hrun.
  set (G' := foldl add_pair (row_graph df) (all_stationary_pairs (row_graph df))) in *.
  pose proof (nodes_connect _ _ Hrun) as Hnodes.
  pose proof (NoDup_nodes_row_graph df) as Hnd.
  split. { by rewrite Hnodes. }
  split. { intros n. rewrite Hnodes. apply elem_of_nodes_row_graph. }
  split.
  { apply Forall_forall. intros row Hrow.
    change (leg row) with (start_key row, end_key row).
    rewrite (get_edges_connect _ _ _ _ Hrun). case_decide; [done|].
    apply elem_of_keys, keys_edges_row_graph.
    by apply (list_elem_of_fmap_2 leg). }
  split.
  { intros u v Hnext. apply (next_stop_nodes _ _ u v Hnodes) in Hnext.
    rewrite (get_edges_connect _ _ _ _ Hrun), decide_True; [done|].
    by apply all_stationary_pairs_next_stop. }
  intros u v. rewrite (get_edges_connect _ _ _ _ Hrun).
  case_decide as Hpair.
  - intros _. right. apply (next_stop_nodes _ _ u v Hnodes).
    by apply all_stationary_pairs_next_stop.
  - intros Hsome. left. by apply keys_edges_row_graph, elem_of_keys.
Qed.

(** X23: when every row arrives after it departs, every edge of the graph
    leads to a later time, so the graph has no cycle. *)
Theorem graph_from_schedule_forward (df : list Row) (G : nx.DiGraph)
    (u v : TrainStop) (attr : EdgeAttr) :
  Forall (λ row, departure_time row < arrival_time row) df →
  graph_from_schedule df = Ok G →
  ((u, v), attr) ∈ nx.edges G →
  u.2 < v.2.
Proof.
  intros Htimes Hrun Hedge.
  unfold graph_from_schedule in Hrun.
  pose proof (connect_stationary_nodes_Ok _ _ Hrun) as ->.
  rewrite edges_foldl_add_pair in Hedge.
  apply elem_of_foldl_set_item in Hedge as [Hrow|[Hpair _]].
  - assert (Hkey : (u, v) ∈ Dict.keys (nx.edges (row_graph df))).
    { apply list_elem_of_fmap. by exists ((u, v), attr). }
    apply keys_edges_row_graph, list_elem_of_fmap in Hkey as (row & Heq & Hin).
    pose proof (proj1 (Forall_forall _ _) Htimes row Hin) as Hlt.
    unfold leg, start_key, end_key in Heq. by simplify_eq/=.
  - apply all_stationary_pairs_next_stop in Hpair; [|apply NoDup_nodes_row_graph].
    by destruct Hpair as (_ & _ & _ & ? & _).
Qed.

End any_schedule.

(** ** Schedule ingestion *)

Section ingestion.
Implicit Types (parsed : list ParsedRow) (p : ParsedRow) (row : Row).

Lemma mapM_Ok_inv {A B} (f : A → result B) (l : list A) (k : list B) :
  mapM f l = Ok k → Forall2 (λ x y, f x = Ok y) l k.
Proof.
  revert k. induction l as [|x l IH]; intros k; simpl.
  - intros [= <-]. constructor.
  - destruct (f x) as [y|e] eqn:Hx; cbn [mbind result_bind]; [|done].
    destruct (mapM f l) as [k'|e] eqn:Hl; cbn [mbind result_bind]; [|done].
    intros [= <-]. constructor; [done | by apply IH].
Qed.

Lemma mapM_Raise_inv {A B} (f : A → result B) (l : list A) (e : exn) :
  mapM f l = Raise e → Exists (λ x, f x = Raise e) l.
Proof.
  induction l as [|x l IH]; simpl; [done|].
  destruct (f x) as [y|e'] eqn:Hx; cbn [mbind result_bind].
  - destruct (mapM f l) as [k'|e'] eqn:Hl; cbn [mbind result_bind]; [done|].
    intros [= ->]. right. by apply IH.
  - intros [= ->]. by left.
Qed.

Lemma to_minutes_past_midnight_cases (v : pyval) :
  (is_int v ∧ ∃ m, to_minutes_past_midnight v = Ok m)
  ∨ (¬ is_int v ∧ InvalidInput (to_minutes_past_midnight v)).
Proof.
  destruct v; [left | right..]; (split; [|done || by eexists]).
  - by eexists.
  - by intros [? ?].
  - by intros [? ?].
  - by intros [? ?].
  - by intros [? ?].
Qed.

Lemma to_minutes_past_midnight_Ok_int (v : pyval) (m : Z) :
  to_minutes_past_midnight v = Ok m → is_int v.
Proof.
  destruct (to_minutes_past_midnight_cases v) as [[? _]|[_ Hbad]]; [done|].
  unfold InvalidInput in Hbad. congruence.
Qed.

Lemma to_minutes_past_midnight_Raise (v : pyval) (e : exn) :
  to_minutes_past_midnight v = Raise e →
  ¬ is_int v ∧ e = AssertionError "The time must be an integer!".
Proof.
  destruct (to_minutes_past_midnight_cases v) as [[_ [m Hm]]|[Hv Hbad]].
  - congruence.
  - unfold InvalidInput in Hbad. intros He. split; [done | congruence].
Qed.

Lemma converted_zip parsed (departure arrival : list Z) :
  Forall2 (λ p m, to_minutes_past_midnight (parsed_departure_time p) = Ok m)
          parsed departure →
  Forall2 (λ p m, to_minutes_past_midnight (parsed_arrival_time p) = Ok m)
          parsed arrival →
  Forall2 converted parsed
    (zip_with (λ p times,
                 {| train_number := parsed_train_number p;
                    first_class := parsed_first_class p;
                    second_class := parsed_second_class p;
                    start := parsed_start p;
                    end_ := parsed_end p;
                    departure_time := times.1;
                    arrival_time := times.2 |})
              parsed (zip departure arrival)).
Proof.
  intros Hdep. revert arrival.
  induction Hdep as [|p m parsed departure Hp _ IH]; intros arrival Harr.
  - constructor.
  - destruct arrival as [|m' arrival]; [by apply Forall2_cons_nil_inv in Harr|].
    apply Forall2_cons in Harr as [Hp' Harr]. simpl. constructor.
    + by repeat split.
    + by apply IH.
Qed.

(** With integer time cells both column maps succeed. *)
Lemma read_schedule_int_cells parsed :
  Forall int_times parsed →
  ∃ departure arrival,
    Forall2 (λ p m, to_minutes_past_midnight (parsed_departure_time p) = Ok m)
            parsed departure
    ∧ Forall2 (λ p m, to_minutes_past_midnight (parsed_arrival_time p) = Ok m)
              parsed arrival
    ∧ mapM to_minutes_past_midnight (parsed_departure_time <$> parsed) = Ok departure
    ∧ mapM to_minutes_past_midnight (parsed_arrival_time <$> parsed) = Ok arrival.
Proof.
  intros Hints.
  destruct (mapM_total to_minutes_past_midnight (parsed_departure_time <$> parsed))
    as (departure & Hrun & Hdep).
  { apply Forall_fmap. eapply Forall_impl; [exact Hints|].
    intros p [[t Ht] _]. simpl. rewrite Ht. by eexists. }
  destruct (mapM_total to_minutes_past_midnight (parsed_arrival_time <$> parsed))
    as (arrival & Hrun' & Harr).
  { apply Forall_fmap. eapply Forall_impl; [exact Hints|].
    intros p [_ [t Ht]]. simpl. rewrite Ht. by eexists. }
  apply Forall2_fmap_l in Hdep. apply Forall2_fmap_l in Harr.
  by exists departure, arrival.
Qed.

(** X24: when every time cell is an integer the schedule is read: the rows
    come out in file order, one per parsed row, with the other columns as
    parsed and both times converted. *)
Theorem read_schedule_converts parsed :
  Forall int_times parsed →
  ∃ df, read_schedule parsed = Ok df ∧ Forall2 converted parsed df.
Proof.
  intros Hints. unfold read_schedule.
  destruct (read_schedule_int_cells parsed Hints)
    as (departure & arrival & Hdep & Harr & -> & ->).
  cbn [mbind result_bind]. eexists. split; [done|].
  apply converted_zip; [exact Hdep | exact Harr].
Qed.

(** X25: when some time cell is not an integer the read fails with the
    assertion of the conversion. *)
Theorem read_schedule_invalid parsed :
  Exists (λ p, ¬ int_times p) parsed →
  InvalidInput (read_schedule parsed).
Proof.
  intros Hbad. unfold read_schedule, InvalidInput.
  destruct (mapM to_minutes_past_midnight (parsed_departure_time <$> parsed))
    as [departure|e] eqn:Hdep; cbn [mbind result_bind].
  - destruct (mapM to_minutes_past_midnight (parsed_arrival_time <$> parsed))
      as [arrival|e] eqn:Harr; cbn [mbind result_bind].
    + exfalso. apply mapM_Ok_inv, Forall2_fmap_l in Hdep.
      apply mapM_Ok_inv, Forall2_fmap_l in Harr.
      apply Exists_exists in Hbad as (p & Hp & Hnot). apply Hnot.
      apply list_elem_of_lookup in Hp as [i Hi].
      destruct (Forall2_lookup_l _ _ _ _ _ Hdep Hi) as (m & _ & Hm).
      destruct (Forall2_lookup_l _ _ _ _ _ Harr Hi) as (m' & _ & Hm').
      split; by eapply to_minutes_past_midnight_Ok_int.
    + apply mapM_Raise_inv, Exists_exists in Harr as (v & _ & Hv).
      by apply to_minutes_past_midnight_Raise in Hv as [_ ->].
  - apply mapM_Raise_inv, Exists_exists in Hdep as (v & _ & Hv).
    by apply to_minutes_past_midnight_Raise in Hv as [_ ->].
Qed.

(** X26: a file of clock times of one day, each row departing no later than
    it arrives, gives rows whose times are minutes 0 to 1439 with the
    departure no later than the arrival. *)
Theorem read_schedule_same_day parsed :
  Forall (λ p, ∃ td ta, parsed_departure_time p = PyInt td
                        ∧ parsed_arrival_time p = PyInt ta
                        ∧ clock_time td ∧ clock_time ta ∧ td ≤ ta) parsed →
  ∃ df, read_schedule parsed = Ok df
    ∧ Forall (λ row, 0 ≤ departure_time row ≤ 1439
                     ∧ 0 ≤ arrival_time row ≤ 1439
                     ∧ departure_time row ≤ arrival_time row) df.
Proof.
  intros Hclock.
  destruct (read_schedule_int_cells parsed)
    as (departure & arrival & Hdeps & Harrs & Hrun & Hrun').
  { eapply Forall_impl; [exact Hclock|].
    intros p (td & ta & Hd & Ha & _). split; by eexists. }
  pose proof (converted_zip parsed departure arrival Hdeps Harrs) as Hconv.
  eexists. split.
  { unfold read_schedule. rewrite Hrun, Hrun'. reflexivity. }
  apply Forall_forall. intros row Hrow.
  apply list_elem_of_lookup in Hrow as [i Hi].
  destruct (Forall2_lookup_r _ _ _ _ _ Hconv Hi) as (p & Hp & Hc).
  apply list_elem_of_lookup_2 in Hp.
  pose proof (proj1 (Forall_forall _ _) Hclock p Hp)
    as (td & ta & Hd & Ha & [Hdr Hdm] & [Har Ham] & Hle).
  destruct Hc as (_ & _ & _ & _ & _ & Hdep & Harr).
  rewrite Hd, to_minutes_past_midnight_int in Hdep.
  rewrite Ha, to_minutes_past_midnight_int in Harr.
  injection Hdep as <-. injection Harr as <-.
  pose proof (Z.mod_pos_bound td 100 ltac:(lia)).
  pose proof (Z.mod_pos_bound ta 100 ltac:(lia)).
  pose proof (Z.div_mod td 100 ltac:(lia)).
  pose proof (Z.div_mod ta 100 ltac:(lia)).
  assert (0 ≤ td / 100 ≤ 23) by nia. assert (0 ≤ ta / 100 ≤ 23) by nia.
  assert (td / 100 ≤ ta / 100) by (apply Z.div_le_mono; lia).
  split; [lia|]. split; [lia|].
  destruct (decide (td / 100 = ta / 100)); nia.
Qed.

End ingestion.

(** ** The colour rotation *)

Section colour_rotation.
Implicit Types (st : cycle_state) (n m i : nat).

Ltac reach_at j :=
  exists j; split; [lia|]; first [left; reflexivity | right; reflexivity].

Ltac reach :=
  first [reach_at 0%nat | reach_at 1%nat | reach_at 2%nat | reach_at 3%nat
        | reach_at 4%nat | reach_at 5%nat | reach_at 6%nat].

Ltac one_step :=
  eexists _, _; split; [reflexivity|]; split; [reach|]; split; reflexivity.

(** One call of [next]: the colour at the current position comes out and
    the position moves on by one, back to 0 after 5. *)
Lemma cycle_next_reachable st :
  cycle_reachable st →
  ∃ col st', cycle_next st = Some (col, st')
    ∧ cycle_reachable st'
    ∧ colors !! cycle_position st = Some col
    ∧ cycle_position st' = ((cycle_position st + 1) mod 6)%nat.
Proof.
  intros (j & Hj & [-> | ->]);
    do 7 (destruct j as [|j]; [one_step|]); lia.
Qed.

Lemma cycle_position_lt st : (cycle_position st < 6)%nat.
Proof. unfold cycle_position. apply Nat.mod_upper_bound. lia. Qed.

Lemma next_colors_reachable n st :
  cycle_reachable st →
  ∃ cols st', next_colors n st = Some (cols, st')
    ∧ cycle_reachable st'
    ∧ length cols = n
    ∧ cycle_position st' = ((cycle_position st + n) mod 6)%nat
    ∧ ∀ i, (i < n)%nat → cols !! i = colors !! ((cycle_position st + i) mod 6)%nat.
Proof.
  revert st. induction n as [|n IH]; intros st Hst.
  - exists [], st. split; [done|]. split; [done|]. split; [done|]. split.
    + rewrite Nat.add_0_r, Nat.mod_small; [done | apply cycle_position_lt].
    + intros i Hi. lia.
  - destruct (cycle_next_reachable st Hst) as (col & st1 & Hnext & Hst1 & Hcol & Hpos).
    destruct (IH st1 Hst1) as (cols & st2 & Hrun & Hst2 & Hlen & Hpos2 & Hcols).
    assert (Hrun' : next_colors (S n) st = Some (col :: cols, st2)).
    { cbn [next_colors]. rewrite Hnext. simpl. by rewrite Hrun. }
    exists (col :: cols), st2. split; [done|]. split; [done|].
    split; [by rewrite length_cons, Hlen|]. split.
    + rewrite Hpos2, Hpos, Nat.Div0.add_mod_idemp_l. f_equal. lia.
    + intros [|i] Hi.
      * change ((col :: cols) !! 0%nat) with (Some col).
        rewrite Nat.add_0_r, Nat.mod_small; [done | apply cycle_position_lt].
      * change ((col :: cols) !! S i) with (cols !! i).
        rewrite Hcols by lia. rewrite Hpos, Nat.Div0.add_mod_idemp_l.
        do 2 f_equal. lia.
Qed.

Lemma color_cycle_reachable : cycle_reachable color_cycle.
Proof. reach. Qed.

(** X27: the rotation never runs out, and after [n] colours have been
    drawn the colour number [i] of the next [m] is
    [colors[(n + i) mod 6]]: a later plot goes on where the one before
    stopped, and trains six apart share a colour. *)
Theorem color_cycle_rotation (n m : nat) :
  ∃ before st after st',
    next_colors n color_cycle = Some (before, st)
    ∧ next_colors m st = Some (after, st')
    ∧ length after = m
    ∧ ∀ i, (i < m)%nat → after !! i = colors !! ((n + i) mod 6)%nat.
Proof.
  destruct (next_colors_reachable n color_cycle color_cycle_reachable)
    as (before & st & Hrun & Hst & _ & Hpos & _).
  destruct (next_colors_reachable m st Hst)
    as (after & st' & Hrun' & _ & Hlen & _ & Hcols).
  exists before, st, after, st'. split; [done|]. split; [done|]. split; [done|].
  intros i Hi. rewrite Hcols by done. rewrite Hpos.
  change (cycle_position color_cycle) with 0%nat.
  rewrite Nat.add_0_l, Nat.Div0.add_mod_idemp_l. done.
Qed.

End colour_rotation.

(** ** How many edges [connect_stationary_nodes] adds *)

Section edge_count.
Implicit Types (G : nx.DiGraph) (stops : list TrainStop).

Lemma length_set_item {K V} `{EqDecision K} (d : Dict.t K V) (k : K) (a : V) :
  (length d ≤ length (Dict.set_item k a d) ≤ S (length d))%nat.
Proof.
  induction d as [|[k' a'] d IH]; simpl; [lia|].
  case_decide; simpl; lia.
Qed.

Lemma length_foldl_set_item {K V} `{EqDecision K} (d : Dict.t K V)
    (ks : list K) (a : V) :
  (length d ≤ length (foldl (λ E p, Dict.set_item p a E) d ks)
   ≤ length d + length ks)%nat.
Proof.
  revert d. induction ks as [|k ks IH]; intros d; simpl; [lia|].
  pose proof (length_set_item d k a). pose proof (IH (Dict.set_item k a d)). lia.
Qed.

Lemma bind_keys_entries {B} (f : Z → list B) (g : Z * list TrainStop → list B)
    (gs : list (Z * list TrainStop)) :
  Forall (λ e, f e.1 = g e) gs → gs.*1 ≫= f = gs ≫= g.
Proof.
  induction 1 as [|e gs He _ IH]; [done|].
  csimpl. by rewrite He, IH.
Qed.

Lemma all_stationary_pairs_groups G :
  all_stationary_pairs G =
    find_all_stops_per_station G ≫= λ e, stationary_pairs e.2.
Proof.
  unfold all_stationary_pairs, Dict.keys. apply bind_keys_entries.
  apply Forall_forall. intros [station stops] Hin. simpl.
  by apply elem_of_find_all_stops_per_station in Hin as [_ ->].
Qed.

Lemma length_pairs_entries (gs : list (Z * list TrainStop)) :
  Forall (λ e, e.2 ≠ []) gs →
  (length (gs ≫= λ e, stationary_pairs e.2) + length gs
   = length (concat gs.*2))%nat.
Proof.
  induction 1 as [|[station stops] gs Hne _ IH]; [done|].
  csimpl. rewrite !length_app, length_stationary_pairs.
  simpl in Hne. destruct stops; [done|]. simpl in *. lia.
Qed.

Lemma length_all_stationary_pairs G :
  (length (all_stationary_pairs G) + length (find_all_stops_per_station G)
   = length (nx.nodes G))%nat.
Proof.
  rewrite all_stationary_pairs_groups, length_pairs_entries.
  - apply Permutation_length, concat_values_stops.
  - apply Forall_forall. intros [station stops] Hin. simpl.
    by apply elem_of_find_all_stops_per_station in Hin as [? _].
Qed.

(** X28: [connect_stationary_nodes] removes no edge, so every pair of stops
    joined by an edge before the call is joined after it, and it adds at
    most as many edges as there are nodes beyond one per station. *)
Theorem connect_stationary_nodes_edge_count (G G' : nx.DiGraph) :
  connect_stationary_nodes G = Ok G' →
  (∀ p, p ∈ Dict.keys (nx.edges G) → p ∈ Dict.keys (nx.edges G'))
  ∧ (length (nx.edges G) ≤ length (nx.edges G'))%nat
  ∧ (length (nx.edges G') + length (find_all_stops_per_station G)
     ≤ length (nx.edges G) + length (nx.nodes G))%nat.
Proof.
  intros Hrun. split.
  { intros [u v] Hin. apply elem_of_keys.
    rewrite (get_edges_connect G G' u v Hrun).
    case_decide; [by eexists | by apply elem_of_keys]. }
  apply connect_stationary_nodes_Ok in Hrun as ->. rewrite edges_foldl_add_pair.
  pose proof (length_foldl_set_item (nx.edges G) (all_stationary_pairs G) zero_attr).
  pose proof (length_all_stationary_pairs G). lia.
Qed.

End edge_count.

(** ** The sum of the occupancy table *)

Section train_minutes.
Implicit Types (schedule rows : list Row) (row : Row).

Lemma sumZ_fmap_add {A} (f g : A → Z) (l : list A) :
  sumZ ((λ x, f x + g x) <$> l) = sumZ (f <$> l) + sumZ (g <$> l).
Proof. induction l as [|x l IH]; csimpl; lia. Qed.

Lemma sumZ_fmap_indicator {A} (P : A → Prop) `{∀ x, Decision (P x)}
    (c : Z) (l : list A) :
  sumZ ((λ x, if bool_decide (P x) then c else 0) <$> l)
  = c * Z.of_nat (length (filter P l)).
Proof.
  induction l as [|x l IH]; csimpl; [lia|].
  rewrite filter_cons.
  case_bool_decide; [rewrite decide_True by done | rewrite decide_False by done];
    simpl length; lia.
Qed.

(** The number of minutes of a table of [n] entries that a range within it
    covers. *)
Lemma length_filter_range (n : nat) (s e : Z) :
  0 ≤ s → s ≤ e → e < Z.of_nat n →
  Z.of_nat (length (filter (λ i, s ≤ Z.of_nat i ≤ e) (seq 0 n))) = e - s + 1.
Proof.
  intros Hs Hse Hen.
  replace n with (Z.to_nat s + (Z.to_nat (e - s + 1) + (n - Z.to_nat (e + 1))))%nat
    by lia.
  rewrite !seq_app, !filter_app, !length_app.
  rewrite (filter_none _ (seq 0 (Z.to_nat s))).
  2:{ apply Forall_seq. intros i Hi. lia. }
  rewrite (filter_all _ (seq (0 + Z.to_nat s) (Z.to_nat (e - s + 1)))).
  2:{ apply Forall_seq. intros i Hi. lia. }
  rewrite filter_none.
  2:{ apply Forall_seq. intros i Hi. lia. }
  rewrite length_seq. simpl. lia.
Qed.

(** Counting by minute and counting by row give the same total. *)
Lemma sumZ_load train_type rows (n : nat) :
  Forall (λ row, 0 ≤ departure_time row
                 ∧ departure_time row ≤ arrival_time row
                 ∧ arrival_time row < Z.of_nat n) rows →
  sumZ (load train_type rows <$> seq 0 n) =
    sumZ ((λ row, unit_count train_type row
                  * (arrival_time row - departure_time row + 1)) <$> rows).
Proof.
  induction 1 as [|row rows (Hd & Hda & Ha) _ IH].
  - csimpl. induction (seq 0 n) as [|m l IHl]; csimpl; [done|].
    rewrite IHl. reflexivity.
  - rewrite (list_fmap_ext (load train_type (row :: rows))
               (λ m, (if bool_decide (departure_time row ≤ Z.of_nat m
                                      ≤ arrival_time row)
                      then unit_count train_type row else 0)
                     + load train_type rows m) (seq 0 n))
      by (intros i m _; apply load_cons).
    rewrite (sumZ_fmap_add _ (load train_type rows)), IH.
    rewrite (sumZ_fmap_indicator
               (λ m : nat, departure_time row ≤ Z.of_nat m ≤ arrival_time row)).
    rewrite length_filter_range by lia. csimpl. lia.
Qed.

(** X29: under the bounds of X9, for rows within the day that depart no
    later than they arrive, the entries of the table hold integers that add
    up to the unit counts of the rows, each counted once for every minute
    from departure to arrival, both included. *)
Theorem occupancy_table_sum schedule (firstCap secondCap : Z) (df : list float64) :
  0 < firstCap < 2 ^ 53 → 0 < secondCap < 2 ^ 53 →
  Forall (λ row, 0 ≤ first_class row < 2 ^ 53
                 ∧ 0 ≤ second_class row < 2 ^ 53) schedule →
  sumZ (unit_count (firstCap, secondCap) <$> schedule) ≤ 2 ^ 53 →
  Forall (λ row, 0 ≤ departure_time row
                 ∧ departure_time row ≤ arrival_time row
                 ∧ arrival_time row ≤ 1440) schedule →
  minimum_number_of_trains_at_time_t schedule (firstCap, secondCap) = Ok df →
  ∃ entries : list Z,
    df = (λ z, Finite (inject_Z z)) <$> entries
    ∧ sumZ entries =
        sumZ ((λ row, unit_count (firstCap, secondCap) row
                      * (arrival_time row - departure_time row + 1)) <$> schedule).
Proof.
  intros H1 H2 Hdemand Htotal Hrows Hrun.
  rewrite occupancy_cells in Hrun by done. apply Ok_inj in Hrun as <-.
  exists (load (firstCap, secondCap) schedule <$> seq 0 1441). split.
  - by rewrite <- list_fmap_compose.
  - apply sumZ_load. eapply Forall_impl; [exact Hrows|].
    intros row (? & ? & ?). lia.
Qed.

End train_minutes.

(** * Worked instances *)

Section instances.

Lemma minimum_number_of_trains_mono_demand_witness :
  0 < 100 ∧ 0 < 50
  ∧ first_class demo_row ≤ first_class demo_row_more
  ∧ second_class demo_row ≤ second_class demo_row_more
  ∧ minimum_number_of_trains demo_row (100, 50) = Ok 2
  ∧ minimum_number_of_trains demo_row_more (100, 50) = Ok 3
  ∧ 2 ≤ 3.
Proof.
  split; [lia|]. split; [lia|]. split; [simpl; lia|]. split; [simpl; lia|].
  split; [by vm_compute|]. split; [by vm_compute|].
  apply (minimum_number_of_trains_mono_demand demo_row demo_row_more 100 50 2 3);
    [lia | lia | simpl; lia | simpl; lia | by vm_compute | by vm_compute].
Defined.

Lemma minimum_number_of_trains_anti_capacity_witness :
  0 ≤ first_class demo_row ∧ 0 ≤ second_class demo_row
  ∧ 0 < 100 ≤ 200 ∧ 0 < 50 ≤ 50
  ∧ minimum_number_of_trains demo_row (100, 50) = Ok 2
  ∧ minimum_number_of_trains demo_row (200, 50) = Ok 1
  ∧ 1 ≤ 2.
Proof.
  split; [simpl; lia|]. split; [simpl; lia|]. split; [lia|]. split; [lia|].
  split; [by vm_compute|]. split; [by vm_compute|].
  apply (minimum_number_of_trains_anti_capacity demo_row 100 50 200 50 2 1);
    [simpl; lia | simpl; lia | lia | lia | by vm_compute | by vm_compute].
Defined.

Lemma minimum_number_of_trains_zero_iff_witness :
  0 ≤ first_class demo_row < 2 ^ 53 ∧ 0 ≤ second_class demo_row < 2 ^ 53
  ∧ 0 < 100 < 2 ^ 53 ∧ 0 < 50 < 2 ^ 53
  ∧ minimum_number_of_trains demo_row (100, 50) = Ok 2
  ∧ 0 ≤ 2 ∧ (2 = 0 ↔ first_class demo_row = 0 ∧ second_class demo_row = 0).
Proof.
  split; [simpl; lia|]. split; [simpl; lia|]. split; [lia|]. split; [lia|].
  split; [by vm_compute|].
  apply (minimum_number_of_trains_zero_iff demo_row 100 50 2);
    [simpl; lia | simpl; lia | lia | lia | by vm_compute].
Defined.

Lemma minimum_number_of_trains_subadditive_witness :
  0 < 100 < 2 ^ 53 ∧ 0 < 50 < 2 ^ 53
  ∧ 0 ≤ first_class demo_row ∧ 0 ≤ second_class demo_row
  ∧ 0 ≤ first_class demo_row_other ∧ 0 ≤ second_class demo_row_other
  ∧ first_class demo_row_more = first_class demo_row + first_class demo_row_other
  ∧ second_class demo_row_more = second_class demo_row + second_class demo_row_other
  ∧ first_class demo_row_more < 2 ^ 53 ∧ second_class demo_row_more < 2 ^ 53
  ∧ minimum_number_of_trains demo_row (100, 50) = Ok 2
  ∧ minimum_number_of_trains demo_row_other (100, 50) = Ok 2
  ∧ minimum_number_of_trains demo_row_more (100, 50) = Ok 3
  ∧ 3 ≤ 2 + 2.
Proof.
  split; [lia|]. split; [lia|].
  split; [simpl; lia|]. split; [simpl; lia|].
  split; [simpl; lia|]. split; [simpl; lia|].
  split; [reflexivity|]. split; [reflexivity|].
  split; [simpl; lia|]. split; [simpl; lia|].
  split; [by vm_compute|]. split; [by vm_compute|]. split; [by vm_compute|].
  apply (minimum_number_of_trains_subadditive demo_row demo_row_other demo_row_more
           100 50 2 2 3);
    [lia | lia | simpl; lia | simpl; lia | simpl; lia | simpl; lia
     | reflexivity | reflexivity | simpl; lia | simpl; lia
     | by vm_compute | by vm_compute | by vm_compute].
Defined.

Lemma overlap_demand :
  Forall (λ row, 0 ≤ first_class row < 2 ^ 53 ∧ 0 ≤ second_class row < 2 ^ 53)
    overlap_schedule.
Proof. repeat constructor; simpl; lia. Defined.

Lemma overlap_total : sumZ (unit_count (100, 50) <$> overlap_schedule) ≤ 2 ^ 53.
Proof. by vm_compute. Defined.

Lemma occupancy_table_permutation_witness :
  0 < 100 < 2 ^ 53 ∧ 0 < 50 < 2 ^ 53
  ∧ Forall (λ row, 0 ≤ first_class row < 2 ^ 53 ∧ 0 ≤ second_class row < 2 ^ 53)
      overlap_schedule
  ∧ sumZ (unit_count (100, 50) <$> overlap_schedule) ≤ 2 ^ 53
  ∧ overlap_schedule ≡ₚ reverse overlap_schedule
  ∧ minimum_number_of_trains_at_time_t overlap_schedule (100, 50) =
      minimum_number_of_trains_at_time_t (reverse overlap_schedule) (100, 50).
Proof.
  assert (Hperm : overlap_schedule ≡ₚ reverse overlap_schedule).
  { symmetry. apply reverse_Permutation. }
  split; [lia|]. split; [lia|]. split; [exact overlap_demand|].
  split; [exact overlap_total|]. split; [exact Hperm|].
  apply (occupancy_table_permutation overlap_schedule (reverse overlap_schedule)
           100 50); [lia | lia | exact overlap_demand | exact overlap_total | exact Hperm].
Defined.

Lemma overlap_two_leg_demand :
  Forall (λ row, 0 ≤ first_class row < 2 ^ 53 ∧ 0 ≤ second_class row < 2 ^ 53)
    (overlap_schedule ++ two_leg_schedule).
Proof. repeat constructor; simpl; lia. Defined.

Lemma overlap_two_leg_total :
  sumZ (unit_count (100, 50) <$> overlap_schedule ++ two_leg_schedule) ≤ 2 ^ 53.
Proof. by vm_compute. Defined.

Lemma occupancy_table_app_witness :
  0 < 100 < 2 ^ 53 ∧ 0 < 50 < 2 ^ 53
  ∧ Forall (λ row, 0 ≤ first_class row < 2 ^ 53 ∧ 0 ≤ second_class row < 2 ^ 53)
      (overlap_schedule ++ two_leg_schedule)
  ∧ sumZ (unit_count (100, 50) <$> overlap_schedule ++ two_leg_schedule) ≤ 2 ^ 53
  ∧ ∃ df df',
      minimum_number_of_trains_at_time_t overlap_schedule (100, 50) = Ok df
      ∧ minimum_number_of_trains_at_time_t two_leg_schedule (100, 50) = Ok df'
      ∧ minimum_number_of_trains_at_time_t (overlap_schedule ++ two_leg_schedule)
          (100, 50) = Ok (zip_with np.add df df').
Proof.
  split; [lia|]. split; [lia|]. split; [exact overlap_two_leg_demand|].
  split; [exact overlap_two_leg_total|].
  apply (occupancy_table_app overlap_schedule two_leg_schedule 100 50);
    [lia | lia | exact overlap_two_leg_demand | exact overlap_two_leg_total].
Defined.

Lemma occupancy_table_skips_row_witness :
  0 < 100 < 2 ^ 53 ∧ 0 < 50 < 2 ^ 53
  ∧ 0 ≤ first_class backward_row < 2 ^ 53 ∧ 0 ≤ second_class backward_row < 2 ^ 53
  ∧ (arrival_time backward_row < departure_time backward_row
     ∨ arrival_time backward_row < 0 ∨ 1440 < departure_time backward_row)
  ∧ minimum_number_of_trains_at_time_t
      (overlap_schedule ++ backward_row :: two_leg_schedule) (100, 50) =
    minimum_number_of_trains_at_time_t
      (overlap_schedule ++ two_leg_schedule) (100, 50).
Proof.
  split; [lia|]. split; [lia|]. split; [simpl; lia|]. split; [simpl; lia|].
  split; [left; simpl; lia|].
  apply (occupancy_table_skips_row overlap_schedule two_leg_schedule
           backward_row 100 50);
    [lia | lia | simpl; lia | simpl; lia | left; simpl; lia].
Defined.

Lemma occupancy_table_bounds_witness :
  0 < 100 < 2 ^ 53 ∧ 0 < 50 < 2 ^ 53
  ∧ Forall (λ row, 0 ≤ first_class row < 2 ^ 53 ∧ 0 ≤ second_class row < 2 ^ 53)
      overlap_schedule
  ∧ sumZ (unit_count (100, 50) <$> overlap_schedule) ≤ 2 ^ 53
  ∧ minimum_number_of_trains_at_time_t overlap_schedule (100, 50) = Ok overlap_table
  ∧ overlap_table !! 175%nat = Some (Finite 2)
  ∧ ∃ z, Finite 2 = Finite (inject_Z z)
      ∧ 0 ≤ z ≤ sumZ (unit_count (100, 50) <$> overlap_schedule).
Proof.
  split; [lia|]. split; [lia|]. split; [exact overlap_demand|].
  split; [exact overlap_total|].
  split; [by vm_compute|]. split; [by vm_compute|].
  apply (occupancy_table_bounds overlap_schedule 100 50 overlap_table 175 (Finite 2));
    [lia | lia | exact overlap_demand | exact overlap_total
     | by vm_compute | by vm_compute].
Defined.

Lemma occupancy_table_sum_witness :
  0 < 100 < 2 ^ 53 ∧ 0 < 50 < 2 ^ 53
  ∧ Forall (λ row, 0 ≤ first_class row < 2 ^ 53 ∧ 0 ≤ second_class row < 2 ^ 53)
      overlap_schedule
  ∧ sumZ (unit_count (100, 50) <$> overlap_schedule) ≤ 2 ^ 53
  ∧ Forall (λ row, 0 ≤ departure_time row
                   ∧ departure_time row ≤ arrival_time row
                   ∧ arrival_time row ≤ 1440) overlap_schedule
  ∧ minimum_number_of_trains_at_time_t overlap_schedule (100, 50) = Ok overlap_table
  ∧ ∃ entries : list Z,
      overlap_table = (λ z, Finite (inject_Z z)) <$> entries
      ∧ sumZ entries =
          sumZ ((λ row, unit_count (100, 50) row
                        * (arrival_time row - departure_time row + 1))
                  <$> overlap_schedule).
Proof.
  assert (Hrows : Forall (λ row, 0 ≤ departure_time row
                                 ∧ departure_time row ≤ arrival_time row
                                 ∧ arrival_time row ≤ 1440) overlap_schedule).
  { constructor; [simpl; lia|]. constructor; [simpl; lia|]. constructor. }
  split; [lia|]. split; [lia|]. split; [exact overlap_demand|].
  split; [exact overlap_total|]. split; [exact Hrows|]. split; [by vm_compute|].
  apply (occupancy_table_sum overlap_schedule 100 50 overlap_table);
    [lia | lia | exact overlap_demand | exact overlap_total | exact Hrows
     | by vm_compute].
Defined.

Lemma demo_graph_distinct : NoDup (nx.nodes demo_graph).
Proof. apply (bool_decide_unpack _). by vm_compute. Defined.

Lemma demo_graph_run : connect_stationary_nodes demo_graph = Ok demo_graph_connected.
Proof. by vm_compute. Defined.

Lemma demo_graph_next : next_stop demo_graph (1, 50) (1, 100).
Proof.
  apply all_stationary_pairs_next_stop; [exact demo_graph_distinct|].
  apply (bool_decide_unpack _). by vm_compute.
Defined.

Lemma demo_graph_not_next : ¬ next_stop demo_graph (1, 50) (2, 70).
Proof. intros (_ & _ & Hstation & _). simpl in Hstation. lia. Defined.

Lemma connect_stationary_nodes_next_stop_witness :
  NoDup (nx.nodes demo_graph)
  ∧ connect_stationary_nodes demo_graph = Ok demo_graph_connected
  ∧ next_stop demo_graph (1, 50) (1, 100)
  ∧ Dict.get ((1, 50), (1, 100)) (nx.edges demo_graph_connected) = Some zero_attr.
Proof.
  split; [exact demo_graph_distinct|]. split; [exact demo_graph_run|].
  split; [exact demo_graph_next|].
  exact (connect_stationary_nodes_next_stop demo_graph demo_graph_connected
           (1, 50) (1, 100) demo_graph_distinct demo_graph_run demo_graph_next).
Defined.

Lemma connect_stationary_nodes_other_edges_witness :
  NoDup (nx.nodes demo_graph)
  ∧ connect_stationary_nodes demo_graph = Ok demo_graph_connected
  ∧ ¬ next_stop demo_graph (1, 50) (2, 70)
  ∧ Dict.get ((1, 50), (2, 70)) (nx.edges demo_graph_connected) =
      Dict.get ((1, 50), (2, 70)) (nx.edges demo_graph).
Proof.
  split; [exact demo_graph_distinct|]. split; [exact demo_graph_run|].
  split; [exact demo_graph_not_next|].
  exact (connect_stationary_nodes_other_edges demo_graph demo_graph_connected
           (1, 50) (2, 70) demo_graph_distinct demo_graph_run demo_graph_not_next).
Defined.

Lemma connect_stationary_nodes_idempotent_witness :
  connect_stationary_nodes demo_graph = Ok demo_graph_connected
  ∧ connect_stationary_nodes demo_graph_connected = Ok demo_graph_connected.
Proof.
  split; [exact demo_graph_run|].
  exact (connect_stationary_nodes_idempotent demo_graph demo_graph_connected
           demo_graph_run).
Defined.

Lemma connect_stationary_nodes_keeps_stops_witness :
  connect_stationary_nodes demo_graph = Ok demo_graph_connected
  ∧ find_all_stops_per_station demo_graph_connected =
      find_all_stops_per_station demo_graph
  ∧ find_staring_trainstops demo_graph_connected = find_staring_trainstops demo_graph
  ∧ find_ending_trainstops demo_graph_connected = find_ending_trainstops demo_graph.
Proof.
  split; [exact demo_graph_run|].
  exact (connect_stationary_nodes_keeps_stops demo_graph demo_graph_connected
           demo_graph_run).
Defined.

Lemma connect_stationary_nodes_edge_count_witness :
  connect_stationary_nodes demo_graph = Ok demo_graph_connected
  ∧ (∀ p, p ∈ Dict.keys (nx.edges demo_graph) →
          p ∈ Dict.keys (nx.edges demo_graph_connected))
  ∧ (length (nx.edges demo_graph) ≤ length (nx.edges demo_graph_connected))%nat
  ∧ (length (nx.edges demo_graph_connected)
     + length (find_all_stops_per_station demo_graph)
     ≤ length (nx.edges demo_graph) + length (nx.nodes demo_graph))%nat.
Proof.
  split; [exact demo_graph_run|].
  exact (connect_stationary_nodes_edge_count demo_graph demo_graph_connected
           demo_graph_run).
Defined.

Lemma graph_from_schedule_forward_witness :
  Forall (λ row, departure_time row < arrival_time row) two_leg_schedule
  ∧ graph_from_schedule two_leg_schedule = Ok two_leg_graph
  ∧ (((2, 570), (2, 585)), zero_attr) ∈ nx.edges two_leg_graph
  ∧ (2, 570).2 < (2, 585).2.
Proof.
  assert (Htimes : Forall (λ row, departure_time row < arrival_time row)
                     two_leg_schedule).
  { constructor; [simpl; lia|]. constructor; [simpl; lia|]. constructor. }
  assert (Hedge : (((2, 570), (2, 585)), zero_attr) ∈ nx.edges two_leg_graph).
  { do 2 right. left. }
  split; [exact Htimes|]. split; [by vm_compute|]. split; [exact Hedge|].
  apply (graph_from_schedule_forward two_leg_schedule two_leg_graph
           (2, 570) (2, 585) zero_attr); [exact Htimes | by vm_compute | exact Hedge].
Defined.

Lemma read_schedule_converts_witness :
  Forall int_times parsed_two_legs
  ∧ ∃ df, read_schedule parsed_two_legs = Ok df
      ∧ Forall2 converted parsed_two_legs df.
Proof.
  assert (Hints : Forall int_times parsed_two_legs).
  { constructor; [split; by eexists|]. constructor; [split; by eexists|].
    constructor. }
  split; [exact Hints|]. exact (read_schedule_converts parsed_two_legs Hints).
Defined.

Lemma read_schedule_invalid_witness :
  Exists (λ p, ¬ int_times p) parsed_missing_time
  ∧ InvalidInput (read_schedule parsed_missing_time).
Proof.
  assert (Hbad : Exists (λ p, ¬ int_times p) parsed_missing_time).
  { right. left. intros [_ [t Ht]]. discriminate Ht. }
  split; [exact Hbad|]. exact (read_schedule_invalid parsed_missing_time Hbad).
Defined.

Lemma read_schedule_same_day_witness :
  Forall (λ p, ∃ td ta, parsed_departure_time p = PyInt td
                        ∧ parsed_arrival_time p = PyInt ta
                        ∧ clock_time td ∧ clock_time ta ∧ td ≤ ta)
         parsed_two_legs
  ∧ ∃ df, read_schedule parsed_two_legs = Ok df
      ∧ Forall (λ row, 0 ≤ departure_time row ≤ 1439
                       ∧ 0 ≤ arrival_time row ≤ 1439
                       ∧ departure_time row ≤ arrival_time row) df.
Proof.
  assert (Hclock : ∀ t, 0 ≤ t ≤ 2359 → (t mod 100 <=? 59) = true → clock_time t).
  { intros t Ht Hm. split; [exact Ht | by apply Z.leb_le]. }
  assert (Hrows : Forall (λ p, ∃ td ta, parsed_departure_time p = PyInt td
                                        ∧ parsed_arrival_time p = PyInt ta
                                        ∧ clock_time td ∧ clock_time ta ∧ td ≤ ta)
                    parsed_two_legs).
  { constructor.
    - exists 900, 930. split; [reflexivity|]. split; [reflexivity|].
      split; [apply Hclock; [lia | reflexivity]|].
      split; [apply Hclock; [lia | reflexivity]|]. lia.
    - constructor; [|constructor].
      exists 945, 1015. split; [reflexivity|]. split; [reflexivity|].
      split; [apply Hclock; [lia | reflexivity]|].
      split; [apply Hclock; [lia | reflexivity]|]. lia. }
  split; [exact Hrows|]. exact (read_schedule_same_day parsed_two_legs Hrows).
Defined.

End instances.
